(** * MultiVec: query layer, Huffman codes, CBOW kernel, training progress
      and dictionary induction

    Shallow embedding of [multivec/monolingual.cpp] and
    [multivec/distance.cpp].

    Conventions of the embedding.
    - C++ [int], [long long] and [size_t] values are integers of [Z] (sizes
      and loop indices that are never negative are [nat]); no computation
      below approaches the width of its type.
    - C++ [float] is idealised as an exact rational of [Q]: rounding, NaN and
      infinities are outside the model, but for [initUnigramTable], which
      casts a float to [int]: there the roundings are made ([to_float],
      [binary32]).  The quotient that [softWER] returns
      has no value when its divisor, which nothing guards, is zero: it is
      the outcome [Undefined].  The other divisors are guarded by the source
      or positive under the hypotheses of the theorems that use them.
    - [unordered_map<string, HuffmanNode>] is a [gmap string HuffmanNode];
      its iteration order is the order of [map_to_list].
    - [words_processed] is shared by the threads of [train]: every load
      and store of it that another thread can come between is a step of
      its own in the runs of [trainChunk].
    - [throw runtime_error(msg)] is the outcome [Throw e], where [e] is the
      error kind of the message; reading a [std::vector] out of range and
      calling a standard algorithm outside its precondition is [Undefined]. *)

From Stdlib Require Import QArith Qround Qpower Qminmax Lqa ZArith List String Ascii Lia Sorted.
From stdpp Require Import gmap strings list fin_maps.

Local Open Scope Z_scope.
Local Open Scope Q_scope.
Local Open Scope string_scope.

(** ** Outcomes of a call *)

(** The kinds of [runtime_error] raised by the query layer:
    ["OOV word"] and ["out of vocabulary"] are [OOV],
    ["input sequences don't have the same size"] is [ShapeMismatch],
    ["all word pairs are unknown (OOV)"] is [AllOOV],
    ["too short sentence, or OOV words"] is [InvalidInput]. *)
Inductive error : Type :=
  | OOV
  | AllOOV
  | ShapeMismatch
  | InvalidInput.

Inductive outcome (A : Type) : Type :=
  | Ok (a : A)
  | Throw (e : error)
  | Undefined.

Arguments Ok {A} a.
Arguments Throw {A} e.
Arguments Undefined {A}.

#[global] Instance outcome_ret : MRet outcome := fun _ a => Ok a.

#[global] Instance outcome_bind : MBind outcome := fun _ _ f c =>
  match c with
  | Ok a => f a
  | Throw e => Throw e
  | Undefined => Undefined
  end.

(** [try { body } catch (runtime_error) { handler }]: only a thrown error is
    caught. *)
Definition try_catch {A} (body : outcome A) (handler : error -> outcome A) : outcome A :=
  match body with
  | Throw e => handler e
  | other => other
  end.

(** [v[i]] on a [std::vector]: no value out of range. *)
Definition at_index {A} (v : list A) (i : nat) : outcome A :=
  match v !! i with
  | Some x => Ok x
  | None => Undefined
  end.

(** [v[i]] for an index held in an [int]. *)
Definition at_pos {A} (v : list A) (i : Z) : outcome A :=
  if (i <? 0)%Z then Undefined else at_index v (Z.to_nat i).

(** ** Vectors and matrices *)

(** Modelled from the spec: [vec] and [mat] are declared in utils.hpp, which
    is not among the sources; a vector is a fixed-length sequence of floats
    with element-wise [+], scalar [*] and [/], and dot product; a matrix is a
    sequence of rows. *)
Definition vec : Type := list Q.
Definition mat : Type := list vec.

(** [vec(d, 0)]. *)
Definition zeros (d : nat) : vec := repeat 0 d.

(** Modelled from the spec: [u + v] and [u += v], element by element. *)
Fixpoint vadd (u v : vec) : vec :=
  match u, v with
  | x :: u', y :: v' => (x + y) :: vadd u' v'
  | _, _ => u
  end.

(** Modelled from the spec: the scalar product [a * v]. *)
Definition vscale (a : Q) (v : vec) : vec := List.map (fun x => a * x) v.

(** Modelled from the spec: the scalar quotient [v / a] and [v /= a]. *)
Definition vdiv (v : vec) (a : Q) : vec := List.map (fun x => x / a) v.

(** Modelled from the spec: [u.dot(v)]. *)
Fixpoint dot (u v : vec) : Q :=
  match u, v with
  | x :: u', y :: v' => x * y + dot u' v'
  | _, _ => 0
  end.

(** [m[i]] for a row index held in an [int]; every index stored in a
    vocabulary is a row of the weight matrices. *)
Definition row (m : mat) (i : Z) : vec := nth (Z.to_nat i) m [].

(** [m[i] = v]. *)
Definition set_row (m : mat) (i : Z) (v : vec) : mat := <[Z.to_nat i := v]> m.

(** [x < y] on floats. *)
Definition Qltb (x y : Q) : bool := negb (Qle_bool y x).

(** Pointwise equality of vectors up to the value of their fractions. *)
Definition veq (u v : vec) : Prop := Forall2 Qeq u v.

(** The part of utils.hpp that is computed with square roots, exponentials
    and the pseudo-random generator; the functions of the model take it as
    an interface.  [rand k n] is the [k]-th draw of [multivec::rand(n)]. *)
Class Utils : Type := {
  cosineSimilarity : vec -> vec -> Q;
  norm : vec -> Q;
  sigmoid : Q -> Q;
  rand : nat -> Z -> Z
}.

(** ** Tokens *)

(** Modelled from the spec: [split] is declared in utils.hpp; it cuts a
    sentence into its tokens, which are separated by ASCII whitespace. *)
Definition is_space (c : ascii) : bool :=
  match N_of_ascii c with
  | 9%N | 10%N | 11%N | 12%N | 13%N | 32%N => true
  | _ => false
  end.

Definition push_token (cur : string) (toks : list string) : list string :=
  match cur with
  | EmptyString => toks
  | _ => cur :: toks
  end.

Fixpoint split_from (s cur : string) : list string :=
  match s with
  | EmptyString => push_token cur []
  | String c s' =>
      if is_space c then push_token cur (split_from s' EmptyString)
      else split_from s' (cur ++ String c EmptyString)
  end.

Definition split (s : string) : list string := split_from s EmptyString.

(** ** Configuration and model *)

(** Modelled from the spec: [Config] is declared in utils.hpp; these are the
    options the modelled functions read. *)
Record Config : Type := {
  dimension : Z;
  min_count : Z;
  window_size : Z;
  negative : Z;
  hierarchical_softmax : bool;
  no_average : bool;
  learning_rate : Q;
  iterations : Z;
  threads : Z
}.

(** Modelled from the spec: [HuffmanNode] is declared in utils.hpp.  A leaf
    is a vocabulary entry with its code and parents; an internal node has an
    index, the sum of the counts of its children, and the two children. *)
Inductive HuffmanNode : Type :=
  | LeafNode (index : Z) (word : string) (count : Z) (code parents : list Z)
  | ParentNode (index : Z) (count : Z) (left right : HuffmanNode).

Definition index (n : HuffmanNode) : Z :=
  match n with LeafNode i _ _ _ _ => i | ParentNode i _ _ _ => i end.

Definition word (n : HuffmanNode) : string :=
  match n with LeafNode _ w _ _ _ => w | ParentNode _ _ _ _ => EmptyString end.

Definition count (n : HuffmanNode) : Z :=
  match n with LeafNode _ _ c _ _ => c | ParentNode _ c _ _ => c end.

Definition is_leaf (n : HuffmanNode) : bool :=
  match n with LeafNode _ _ _ _ _ => true | ParentNode _ _ _ _ => false end.

Definition code (n : HuffmanNode) : list Z :=
  match n with LeafNode _ _ _ c _ => c | ParentNode _ _ _ _ => [] end.

Definition parents (n : HuffmanNode) : list Z :=
  match n with LeafNode _ _ _ _ p => p | ParentNode _ _ _ _ => [] end.

Record MonolingualModel : Type := {
  config : Config;
  input_weights : mat;
  output_weights : mat;
  output_weights_hs : mat;
  vocabulary : gmap string HuffmanNode;
  unigram_table : list HuffmanNode
}.

Definition with_input_weights (m : MonolingualModel) (w : mat) : MonolingualModel :=
  {| config := config m; input_weights := w; output_weights := output_weights m;
     output_weights_hs := output_weights_hs m; vocabulary := vocabulary m;
     unigram_table := unigram_table m |}.

Definition with_output_weights (m : MonolingualModel) (w : mat) : MonolingualModel :=
  {| config := config m; input_weights := input_weights m; output_weights := w;
     output_weights_hs := output_weights_hs m; vocabulary := vocabulary m;
     unigram_table := unigram_table m |}.

Definition with_output_weights_hs (m : MonolingualModel) (w : mat) : MonolingualModel :=
  {| config := config m; input_weights := input_weights m;
     output_weights := output_weights m; output_weights_hs := w;
     vocabulary := vocabulary m; unigram_table := unigram_table m |}.

Definition with_vocabulary (m : MonolingualModel) (v : gmap string HuffmanNode)
  : MonolingualModel :=
  {| config := config m; input_weights := input_weights m;
     output_weights := output_weights m; output_weights_hs := output_weights_hs m;
     vocabulary := v; unigram_table := unigram_table m |}.

(** ** Query layer (distance.cpp, monolingual.cpp) *)

Section Query.
Context {U : Utils}.

(** [MonolingualModel::wordVec(int index, int policy)]. *)
Definition wordVec_index (m : MonolingualModel) (index policy : Z) : vec :=
  if (policy =? 1)%Z && (0 <? negative (config m))%Z then
    let d := Z.to_nat (dimension (config m)) in
    (List.map (fun c => nth c (row (input_weights m) index) 0) (seq 0 d)
     ++ List.map (fun c => nth c (row (output_weights m) index) 0) (seq 0 d))%list
  else if (policy =? 2)%Z && (0 <? negative (config m))%Z then
    vadd (row (input_weights m) index) (row (output_weights m) index)
  else if (policy =? 3)%Z && (0 <? negative (config m))%Z then
    row (output_weights m) index
  else
    row (input_weights m) index.

(** [MonolingualModel::wordVec(const string& word, int policy)]. *)
Definition wordVec (m : MonolingualModel) (w : string) (policy : Z) : outcome vec :=
  match vocabulary m !! w with
  | None => Throw OOV
  | Some node => Ok (wordVec_index m (index node) policy)
  end.

(** [MonolingualModel::similarity]. *)
Definition similarity (m : MonolingualModel) (word1 word2 : string) (policy : Z) : Q :=
  match vocabulary m !! word1, vocabulary m !! word2 with
  | Some n1, Some n2 =>
      if (index n1 =? index n2)%Z then 1
      else cosineSimilarity (wordVec_index m (index n1) policy)
                            (wordVec_index m (index n2) policy)
  | _, _ => 0
  end.

(** [MonolingualModel::distance]. *)
Definition distance (m : MonolingualModel) (word1 word2 : string) (policy : Z) : Q :=
  (1 - similarity m word1 word2 policy) / 2.

(** One turn of the loop of [similarityNgrams]: the accumulator is
    [(res, n)]. *)
Definition ngrams_step (m : MonolingualModel) (words1 words2 : list string)
    (policy : Z) (acc : Q * Z) (i : nat) : outcome (Q * Z) :=
  try_catch
    (w1 ← at_index words1 i;
     w2 ← at_index words2 i;
     Ok (acc.1 + similarity m w1 w2 policy, (acc.2 + 1)%Z))
    (fun _ => Ok acc).

(** [for (i = lo; i < lo + len; ++i) body] over an accumulator, in the
    outcome monad. *)
Definition for_loop {A} (lo len : nat) (body : A -> nat -> outcome A) (init : A)
  : outcome A :=
  fold_left (fun acc i => a ← acc; body a i) (seq lo len) (Ok init).

(** [MonolingualModel::similarityNgrams].  The size test compares
    [words2.size()] with itself, as the source does. *)
Definition similarityNgrams (m : MonolingualModel) (seq1 seq2 : string) (policy : Z)
  : outcome Q :=
  let words1 := split seq1 in
  let words2 := split seq2 in
  if negb (length words2 =? length words2)%nat then Throw ShapeMismatch
  else
    acc ← for_loop 0 (length words1) (ngrams_step m words1 words2 policy) (0, 0%Z);
    if (acc.2 =? 0)%Z then Throw AllOOV
    else Ok (acc.1 / inject_Z acc.2).

(** [comp]: the order of [closest], greater similarity first. *)
Definition comp (p1 p2 : string * Q) : bool := Qltb p2.2 p1.2.

Fixpoint insert_by {A} (lt : A -> A -> bool) (x : A) (l : list A) : list A :=
  match l with
  | [] => [x]
  | y :: l' => if lt y x then y :: insert_by lt x l' else x :: l
  end.

Definition sort_by {A} (lt : A -> A -> bool) (l : list A) : list A :=
  foldr (insert_by lt) [] l.

(** [std::partial_sort(v.begin(), v.begin() + middle, v.end(), lt)].  The
    range [[first, middle)] must lie inside the vector.  The standard leaves
    the order of the elements from [middle] on open; here they follow in
    sorted order. *)
Definition partial_sort {A} (lt : A -> A -> bool) (v : list A) (middle : Z)
  : outcome (list A) :=
  if (middle <? 0)%Z || (Z.of_nat (length v) <? middle)%Z then Undefined
  else Ok (sort_by lt v).

(** The loop of [closest] over the vocabulary: every entry but the one of
    index [idx] is pushed with its cosine to [v1]. *)
Definition closest_candidates (m : MonolingualModel) (idx : Z) (v1 : vec) (policy : Z)
  : list (string * Q) :=
  foldl (fun res it =>
           if negb (index it.2 =? idx)%Z
           then (res ++ [(word it.2,
                          cosineSimilarity v1 (wordVec_index m (index it.2) policy))])%list
           else res)
        [] (map_to_list (vocabulary m)).

(** [MonolingualModel::closest(const string& word, int n, int policy)]. *)
Definition closest (m : MonolingualModel) (w : string) (n : Z) (policy : Z)
  : outcome (list (string * Q)) :=
  match vocabulary m !! w with
  | None => Throw OOV
  | Some node =>
      let v1 := wordVec_index m (index node) policy in
      let res := closest_candidates m (index node) v1 policy in
      sorted ← partial_sort comp res n;
      Ok (if (n <? Z.of_nat (length sorted))%Z then take (Z.to_nat n) sorted else sorted)
  end.

(** *** softWER *)

Definition mget (d : list (list Q)) (i j : nat) : Q := nth j (nth i d []) 0.

Definition mset (d : list (list Q)) (i j : nat) (x : Q) : list (list Q) :=
  <[i := <[j := x]> (nth i d [])]> d.

(** [std::min] of a three-element initializer list: the leftmost of the
    smallest. *)
Definition min3 (a b c : Q) : Q :=
  let m := if Qltb b a then b else a in
  if Qltb c m then c else m.

(** [for (i = lo; i < lo + len; ++i) d = body(d, i)]. *)
Definition for_each {A} (lo len : nat) (body : A -> nat -> A) (init : A) : A :=
  fold_left body (seq lo len) init.

(** The body of the inner loop of [softWER]. *)
Definition softWER_cell (m : MonolingualModel) (s1 s2 : list string) (policy : Z)
    (i : nat) (d : list (list Q)) (j : nat) : list (list Q) :=
  let sub_cost :=
    distance m (nth (i - 1) s1 EmptyString) (nth (j - 1) s2 EmptyString) policy in
  mset d i j (min3 (mget d (i - 1) j + 1)
                   (mget d i (j - 1) + 1)
                   (mget d (i - 1) (j - 1) + sub_cost)).

(** The table [d] of [softWER] after all its loops. *)
Definition softWER_table (m : MonolingualModel) (s1 s2 : list string) (policy : Z)
  : list (list Q) :=
  let len1 := length s1 in
  let len2 := length s2 in
  let d := repeat (repeat 0 (len2 + 1)) (len1 + 1) in
  let d := mset d 0 0 0 in
  let d := for_each 1 len1 (fun d i => mset d i 0 (inject_Z (Z.of_nat i))) d in
  let d := for_each 1 len2 (fun d i => mset d 0 i (inject_Z (Z.of_nat i))) d in
  for_each 1 len1 (fun d i => for_each 1 len2 (softWER_cell m s1 s2 policy i) d) d.

(** [x / len] for a float [x] and a size [len]: without a value when [len]
    is zero. *)
Definition div_size (x : Q) (len : nat) : outcome Q :=
  if (len =? 0)%nat then Undefined else Ok (x / inject_Z (Z.of_nat len)).

(** [MonolingualModel::softWER]. *)
Definition softWER (m : MonolingualModel) (hyp ref : string) (policy : Z) : outcome Q :=
  let s1 := split hyp in
  let s2 := split ref in
  let d := softWER_table m s1 s2 policy in
  div_size (mget d (length s1) (length s2)) (length s2).

(** The soft word error rate as the specification states it, a recurrence
    on the lengths [i] and [j] of the prefixes of the two sequences:
    [lev 0 0 = 0], [lev i 0 = i], [lev 0 j = j] and
    [lev i j = min (lev (i-1) j + 1, lev i (j-1) + 1,
                    lev (i-1) (j-1) + cost (i-1) (j-1))],
    where [cost] is the cost of the substitution.  [lev_row] is the row [i]
    from the row [prev] before it. *)
Fixpoint lev_row (sub : nat -> Q) (prev : nat -> Q) (i : nat) (j : nat) : Q :=
  match j with
  | O => inject_Z (Z.of_nat i)
  | S j' => min3 (prev j + 1) (lev_row sub prev i j' + 1) (prev j' + sub j')
  end.

Fixpoint lev (cost : nat -> nat -> Q) (i : nat) : nat -> Q :=
  match i with
  | O => fun j => inject_Z (Z.of_nat j)
  | S i' => lev_row (cost i') (lev cost i') i
  end.

(** The cost of the substitution of the token [i] of [h] by the token [j]
    of [r]: their [distance]. *)
Definition sub_cost_of (m : MonolingualModel) (h r : list string) (policy : Z)
    (i j : nat) : Q :=
  distance m (nth i h EmptyString) (nth j r EmptyString) policy.

(** [softWER] as the specification states it: the recurrence on the whole
    sequences, divided by the number of tokens of the reference. *)
Definition softWER_spec (m : MonolingualModel) (hyp ref : string) (policy : Z) : outcome Q :=
  let h := split hyp in
  let r := split ref in
  div_size (lev (sub_cost_of m h r policy) (length h) (length r)) (length r).

(** A table of [r] rows of [c] cells. *)
Definition shape (r c : nat) (d : list (list Q)) : Prop :=
  length d = r /\ forall i, (i < r)%nat -> length (nth i d []) = c.

(** The cells of the table of [softWER] that hold their final value when
    the row [i] is filled up to the column [j]: the rows before [i], the
    column 0, and the row [i] up to [j]. *)
Definition filled (m : MonolingualModel) (s1 s2 : list string) (policy : Z)
    (i j : nat) (d : list (list Q)) : Prop :=
  shape (length s1 + 1) (length s2 + 1) d
  /\ forall a b, (a <= length s1)%nat -> (b <= length s2)%nat ->
       (a < i \/ b = 0 \/ (a = i /\ b <= j))%nat ->
       mget d a b = lev (sub_cost_of m s1 s2 policy) a b.

(** The order of the result of [closest]: similarity descending. *)
Definition by_similarity (p q : string * Q) : Prop := q.2 <= p.2.

(** The sum that the loop of [similarityNgrams] reaches on two sequences of
    the same length, from [res]. *)
Fixpoint pairs_sum (m : MonolingualModel) (policy : Z) (words1 words2 : list string)
    (res : Q) : Q :=
  match words1, words2 with
  | w1 :: words1', w2 :: words2' =>
      pairs_sum m policy words1' words2' (res + similarity m w1 w2 policy)
  | _, _ => res
  end.

End Query.

(** ** Vocabulary (monolingual.cpp) *)

Definition with_count (n : HuffmanNode) (c : Z) : HuffmanNode :=
  match n with
  | LeafNode i w _ code parents => LeafNode i w c code parents
  | ParentNode i _ l r => ParentNode i c l r
  end.

Definition with_index (n : HuffmanNode) (i : Z) : HuffmanNode :=
  match n with
  | LeafNode _ w c code parents => LeafNode i w c code parents
  | ParentNode _ c l r => ParentNode i c l r
  end.

(** [MonolingualModel::addWordToVocab]; a new node is a leaf of count 1. *)
Definition addWordToVocab (vocab : gmap string HuffmanNode) (w : string)
  : gmap string HuffmanNode :=
  match vocab !! w with
  | Some node => <[w := with_count node (count node + 1)%Z]> vocab
  | None => <[w := LeafNode (Z.of_nat (size vocab)) w 1 [] []]> vocab
  end.

(** The loop of [reduceVocab] over the entries: an entry of count below
    [min_count] is erased, the others get the indices [i], [i + 1], ... in
    the order of the iteration. *)
Fixpoint reduceVocab_entries (min_count : Z) (i : Z) (entries : list (string * HuffmanNode))
  : list (string * HuffmanNode) :=
  match entries with
  | [] => []
  | it :: entries' =>
      if (count it.2 <? min_count)%Z then reduceVocab_entries min_count i entries'
      else (it.1, with_index it.2 i) :: reduceVocab_entries min_count (i + 1)%Z entries'
  end.

(** [MonolingualModel::reduceVocab]. *)
Definition reduceVocab (min_count : Z) (vocab : gmap string HuffmanNode)
  : gmap string HuffmanNode :=
  list_to_map (reduceVocab_entries min_count 0%Z (map_to_list vocab)).

(** The loop of [readVocab] over the words of the file, and [reduceVocab]
    after it. *)
Definition readVocab_words (min_count : Z) (words : list string) : gmap string HuffmanNode :=
  reduceVocab min_count (fold_left addWordToVocab words ∅).

(** ** Huffman tree and codes (monolingual.cpp) *)

(** Modelled from the spec: [HuffmanNode::comp] is declared in utils.hpp;
    the heap is ordered by count, greatest first. *)
Definition HuffmanNode_comp (a b : HuffmanNode) : bool := (count b <? count a)%Z.

(** [v.back()] followed by [v.pop_back()]. *)
Definition pop_back {A} (v : list A) : option (A * list A) :=
  match rev v with
  | [] => None
  | x :: r => Some (x, rev r)
  end.

(** The loop of [createBinaryTree]: while the heap has more than one node,
    the last two are joined under the parent of index [i], which is inserted
    at its [lower_bound].  [fuel] bounds the number of turns. *)
Fixpoint createBinaryTree_loop (fuel : nat) (i : Z) (heap : list HuffmanNode)
  : list HuffmanNode :=
  match fuel with
  | O => heap
  | S fuel' =>
      if (1 <? length heap)%nat then
        match pop_back heap with
        | Some (left_node, heap1) =>
            match pop_back heap1 with
            | Some (right_node, heap2) =>
                let parent :=
                  ParentNode i (count left_node + count right_node)%Z left_node right_node in
                createBinaryTree_loop fuel' (i + 1)%Z (insert_by HuffmanNode_comp parent heap2)
            | None => heap
            end
        | None => heap
        end
      else heap
  end.

(** The heap of [createBinaryTree] when its loop ends. *)
Definition createBinaryTree_heap (vocab : gmap string HuffmanNode) : list HuffmanNode :=
  let heap := sort_by HuffmanNode_comp (map_to_list vocab).*2 in
  createBinaryTree_loop (length heap) 0%Z heap.

(** [MonolingualModel::assignCodes].  A leaf of the tree points to its entry
    of the vocabulary, the entry of its word; the assignment to [node->code]
    and [node->parents] rewrites that entry. *)
Fixpoint assignCodes (node : HuffmanNode) (code parents : list Z)
    (vocab : gmap string HuffmanNode) : gmap string HuffmanNode :=
  match node with
  | LeafNode i w c _ _ => <[w := LeafNode i w c code parents]> vocab
  | ParentNode i _ left_node right_node =>
      let parents := (parents ++ [i])%list in
      let code_left := (code ++ [0%Z])%list in
      let code_right := (code ++ [1%Z])%list in
      assignCodes right_node code_right parents (assignCodes left_node code_left parents vocab)
  end.

(** [MonolingualModel::createBinaryTree]: [heap.front()] of an empty heap has
    no value. *)
Definition createBinaryTree (m : MonolingualModel) : outcome MonolingualModel :=
  match createBinaryTree_heap (vocabulary m) with
  | [] => Undefined
  | root :: _ => Ok (with_vocabulary m (assignCodes root [] [] (vocabulary m)))
  end.

(** The vocabulary as [addWordToVocab] builds it: every entry is a leaf
    stored under its own word. *)
Definition vocabulary_wf (vocab : gmap string HuffmanNode) : Prop :=
  forall k n, vocab !! k = Some n -> is_leaf n = true /\ word n = k.

(** The indices of the vocabulary as [reduceVocab] assigns them: no two
    entries share one. *)
Definition vocabulary_indices (vocab : gmap string HuffmanNode) : Prop :=
  forall k1 k2 n1 n2,
    vocab !! k1 = Some n1 -> vocab !! k2 = Some n2 -> index n1 = index n2 -> k1 = k2.

(** The words of the leaves of a tree, left to right. *)
Fixpoint leaves (t : HuffmanNode) : list string :=
  match t with
  | LeafNode _ w _ _ _ => [w]
  | ParentNode _ _ l r => (leaves l ++ leaves r)%list
  end.

(** The words of the leaves of the trees of a heap. *)
Definition forest_leaves (heap : list HuffmanNode) : list string :=
  concat (List.map leaves heap).

(** Descent from [t] along the bits of [code], [0] to the left child and [1]
    to the right child: the indices of the internal nodes passed, in order,
    and the node reached. *)
Fixpoint walk (t : HuffmanNode) (code : list Z) : option (list Z * HuffmanNode) :=
  match code with
  | [] => Some ([], t)
  | b :: code' =>
      match t with
      | LeafNode _ _ _ _ _ => None
      | ParentNode i _ l r =>
          if (b =? 0)%Z then '(p, n) ← walk l code'; Some (i :: p, n)
          else if (b =? 1)%Z then '(p, n) ← walk r code'; Some (i :: p, n)
          else None
      end
  end.

(** ** Training kernels (monolingual.cpp) *)

(** Modelled from the spec: the constant [MAX_EXP] of utils.hpp is 6. *)
Definition MAX_EXP : Q := 6.

(** Modelled from the spec: [operator==] of [HuffmanNode] is declared in
    utils.hpp; a node of the vocabulary is identified by its index. *)
Definition HuffmanNode_eqb (a b : HuffmanNode) : bool := (index a =? index b)%Z.

Section Training.
Context {U : Utils}.

(** One turn of the loop of [hierarchicalUpdate]; the accumulator is
    [(temp, model)]. *)
Definition hierarchicalUpdate_step (node : HuffmanNode) (hidden : vec) (alpha : Q)
    (update : bool) (acc : vec * MonolingualModel) (j : nat) : vec * MonolingualModel :=
  let '(temp, m) := acc in
  let parent_index := nth j (parents node) 0%Z in
  let x := dot hidden (row (output_weights_hs m) parent_index) in
  if Qle_bool x (- MAX_EXP) || Qle_bool MAX_EXP x then acc
  else
    let pred := sigmoid x in
    let error := - alpha * (pred - inject_Z (nth j (code node) 0%Z)) in
    let temp := vadd temp (vscale error (row (output_weights_hs m) parent_index)) in
    if update then
      (temp, with_output_weights_hs m
               (set_row (output_weights_hs m) parent_index
                  (vadd (row (output_weights_hs m) parent_index) (vscale error hidden))))
    else (temp, m).

(** [MonolingualModel::hierarchicalUpdate]. *)
Definition hierarchicalUpdate (m : MonolingualModel) (node : HuffmanNode) (hidden : vec)
    (alpha : Q) (update : bool) : vec * MonolingualModel :=
  for_each 0 (length (code node)) (hierarchicalUpdate_step node hidden alpha update)
           (zeros (Z.to_nat (dimension (config m))), m).

(** [MonolingualModel::getRandomHuffmanNode] at the draw number [k].  The
    draw is below the size of the table; [node] stands for an entry that an
    empty table does not have. *)
Definition getRandomHuffmanNode (m : MonolingualModel) (k : nat) (node : HuffmanNode)
  : HuffmanNode :=
  nth (Z.to_nat (rand k (Z.of_nat (length (unigram_table m))))) (unigram_table m) node.

(** One turn of the loop of [negSamplingUpdate]; the accumulator is
    [(temp, model, draws)]. *)
Definition negSamplingUpdate_step (node : HuffmanNode) (hidden : vec) (alpha : Q)
    (update : bool) (acc : vec * MonolingualModel * nat) (d : nat) : vec * MonolingualModel * nat :=
  let '(temp, m, k) := acc in
  let '(target, label, k', skip) :=
    if (d =? 0)%nat then (node, 1%Z, k, false)
    else
      let target := getRandomHuffmanNode m k node in
      (target, 0%Z, S k, HuffmanNode_eqb target node) in
  if skip then (temp, m, k')
  else
    let x := dot hidden (row (output_weights m) (index target)) in
    let pred :=
      if Qle_bool MAX_EXP x then 1
      else if Qle_bool x (- MAX_EXP) then 0
      else sigmoid x in
    let error := alpha * (inject_Z label - pred) in
    let temp := vadd temp (vscale error (row (output_weights m) (index target))) in
    if update then
      (temp, with_output_weights m
               (set_row (output_weights m) (index target)
                  (vadd (row (output_weights m) (index target)) (vscale error hidden))), k')
    else (temp, m, k').

(** [MonolingualModel::negSamplingUpdate]; [k] counts the draws of the
    generator. *)
Definition negSamplingUpdate (m : MonolingualModel) (k : nat) (node : HuffmanNode) (hidden : vec)
    (alpha : Q) (update : bool) : vec * MonolingualModel * nat :=
  for_each 0 (Z.to_nat (negative (config m) + 1))
           (negSamplingUpdate_step node hidden alpha update)
           (zeros (Z.to_nat (dimension (config m))), m, k).

(** The positions [pos] of [word_pos - w .. word_pos + w] that the loops of
    [trainWordCBOW] do not skip. *)
Definition window_positions (size : nat) (word_pos w : Z) : list Z :=
  List.filter
    (fun pos => negb ((pos <? 0)%Z || (Z.of_nat size <=? pos)%Z || (pos =? word_pos)%Z))
    (List.map (fun k => (word_pos - w + Z.of_nat k)%Z) (seq 0 (Z.to_nat (2 * w + 1)))).

(** The first loop of [trainWordCBOW] and the test of [sent_vec]: the sum
    [hidden] and the number [count] of its summands. *)
Definition cbow_sum (m : MonolingualModel) (nodes : list HuffmanNode) (cur_node : HuffmanNode)
    (word_pos w : Z) (sent_vec : option vec) : vec * Z :=
  let acc :=
    fold_left (fun acc pos =>
                 (vadd acc.1 (row (input_weights m) (index (nth (Z.to_nat pos) nodes cur_node))),
                  (acc.2 + 1)%Z))
              (window_positions (length nodes) word_pos w)
              (zeros (Z.to_nat (dimension (config m))), 0%Z) in
  match sent_vec with
  | Some sv => (vadd acc.1 sv, (acc.2 + 1)%Z)
  | None => acc
  end.

(** The value of [count] from the test of [no_average] on: the divisor of
    [hidden] and, later, of [error]. *)
Definition cbow_divisor (m : MonolingualModel) (count : Z) : Z :=
  if no_average (config m) then 1%Z else count.

(** The two gradient calls of [trainWordCBOW]: the vector [error], the
    model and the draws after them. *)
Definition cbow_error (m : MonolingualModel) (k : nat) (cur_node : HuffmanNode) (hidden : vec)
    (alpha : Q) (update : bool) : vec * MonolingualModel * nat :=
  let error := zeros (Z.to_nat (dimension (config m))) in
  let '(error, m) :=
    if hierarchical_softmax (config m) then
      let '(e, m') := hierarchicalUpdate m cur_node hidden alpha update in (vadd error e, m')
    else (error, m) in
  if (0 <? negative (config m))%Z then
    let '(e, m', k') := negSamplingUpdate m k cur_node hidden alpha update in (vadd error e, m', k')
  else (error, m, k).

(** The second loop of [trainWordCBOW]: [step] is added to the row of every
    context position. *)
Definition cbow_update_rows (m : MonolingualModel) (nodes : list HuffmanNode)
    (cur_node : HuffmanNode) (word_pos w : Z) (step : vec) : MonolingualModel :=
  fold_left (fun m pos =>
               let i := index (nth (Z.to_nat pos) nodes cur_node) in
               with_input_weights m
                 (set_row (input_weights m) i (vadd (row (input_weights m) i) step)))
            (window_positions (length nodes) word_pos w) m.

(** [MonolingualModel::trainWordCBOW].  The result is the model, the
    sentence vector behind [sent_vec] and the number of draws. *)
Definition trainWordCBOW (m : MonolingualModel) (k : nat) (nodes : list HuffmanNode)
    (word_pos : Z) (sent_vec : option vec) (alpha : Q) (update : bool)
  : outcome (MonolingualModel * option vec * nat) :=
  cur_node ← at_pos nodes word_pos;
  let this_window_size := (1 + rand k (window_size (config m)))%Z in
  let k := S k in
  let '(sum, count) := cbow_sum m nodes cur_node word_pos this_window_size sent_vec in
  if (count =? 0)%Z then Ok (m, sent_vec, k)
  else
    let count := cbow_divisor m count in
    let hidden := vdiv sum (inject_Z count) in
    let '(error, m, k) := cbow_error m k cur_node hidden alpha update in
    let step := vdiv error (inject_Z count) in
    let m := if update then cbow_update_rows m nodes cur_node word_pos this_window_size step
             else m in
    Ok (m, (fun sv => vadd sv step) <$> sent_vec, k).

End Training.

(** ** Training progress (trainChunk) *)

(** [getNodes]: the node of every token of the sentence, [None] being the
    sentinel [HuffmanNode::UNK] of a token out of the vocabulary. *)
Definition getNodes (vocab : gmap string HuffmanNode) (sentence : string)
  : list (option HuffmanNode) :=
  List.map (fun w => vocab !! w) (split sentence).

(** [n == HuffmanNode::UNK] on the nodes of a sentence. *)
Definition is_UNK (n : option HuffmanNode) : bool :=
  match n with
  | None => true
  | Some _ => false
  end.

(** The value [trainSentence] returns: the number of tokens of the sentence
    that are in the vocabulary, [nodes.size() - count(nodes, UNK)]. *)
Definition trainSentence_words (vocab : gmap string HuffmanNode) (sent : string) : Z :=
  let nodes := getNodes vocab sent in
  (Z.of_nat (length nodes) - Z.of_nat (length (List.filter is_UNK nodes)))%Z.

(** What a run of [train] fixes for its workers: the configuration, the
    vocabulary, [training_words] and the lines of the chunk of every
    worker. *)
Record TrainingRun : Type := {
  run_config : Config;
  run_vocabulary : gmap string HuffmanNode;
  training_words : Z;
  chunks : list (list string)
}.

(** An access to [words_processed] that a worker has still to make in the
    statement it is executing.  [words_processed] is a plain [long long]
    (monolingual.hpp, without [SYNC_SGD]), so [words_processed +=
    word_count] is a load followed by a store: [Store v] is the store, to
    be made with the sum [v] of the loaded value and [word_count].
    [ReadAlpha] is the read of [words_processed] in the assignment to
    [alpha], which ends the block that holds [print_mutex]. *)
Inductive Access : Type :=
  | Store (v : Z)
  | ReadAlpha.

(** The local variables of [trainChunk]: the epoch [k], the lines of the
    chunk not yet read in this epoch, [word_count] and [alpha]; and the
    accesses to [words_processed] that the statement the worker is in has
    still to make. *)
Record Worker : Type := {
  epoch : Z;
  pending : list string;
  word_count : Z;
  alpha : Q;
  accesses : list Access
}.

(** The shared counter [words_processed] and the workers. *)
Record Progress : Type := {
  words_processed : Z;
  workers : list Worker
}.

(** The learning rate that [trainChunk] computes from [words_processed].
    The divisor is positive when the update is reached: the loop over the
    epochs runs for [iterations > 0] only, and [word_count] reaches 10000
    only on a file of as many tokens. *)
Definition decayed_alpha (r : TrainingRun) (words_processed : Z) : Q :=
  let starting_alpha := learning_rate (run_config r) in
  let alpha :=
    starting_alpha
    * (1 - inject_Z words_processed / inject_Z (iterations (run_config r) * training_words r)) in
  if Qltb alpha (starting_alpha * (1 # 10000)) then starting_alpha * (1 # 10000) else alpha.

Definition is_ReadAlpha (a : Access) : bool :=
  match a with
  | ReadAlpha => true
  | Store _ => false
  end.

(** The worker is inside the block of [std::lock_guard guard(print_mutex)]:
    it has taken the mutex and not yet made the last access of the block. *)
Definition holds_print_mutex (w : Worker) : bool := existsb is_ReadAlpha (accesses w).

(** Whether a worker other than the [i]-th holds [print_mutex]. *)
Definition locked_by_other (workers : list Worker) (i : nat) : bool :=
  existsb holds_print_mutex (take i workers ++ drop (S i) workers).

Definition with_accesses (w : Worker) (l : list Access) : Worker :=
  {| epoch := epoch w; pending := pending w; word_count := word_count w; alpha := alpha w;
     accesses := l |}.

(** The access [a] made by a worker: [st] is [words_processed] and the
    worker before it, the result is both after it. *)
Definition perform (r : TrainingRun) (st : Z * Worker) (a : Access) : Z * Worker :=
  match a with
  | Store v => (v, st.2)
  | ReadAlpha =>
      (st.1, {| epoch := epoch st.2; pending := pending st.2; word_count := word_count st.2;
                alpha := decayed_alpha r st.1; accesses := accesses st.2 |})
  end.

(** The value of [words_processed] after the accesses [l], made from the
    value [wp] with no access of another worker in between: the value of
    the last store of [l], and [wp] when [l] has none. *)
Definition stored (l : list Access) (wp : Z) : Z :=
  fold_left (fun wp a => match a with
                         | Store v => v
                         | ReadAlpha => wp
                         end) l wp.

(** The worker [w] makes the next of its accesses, if it has one to make. *)
Definition access_step (r : TrainingRun) (wp : Z) (w : Worker) : option (Z * Worker) :=
  match accesses w with
  | a :: rest => Some (perform r (wp, with_accesses w rest) a)
  | [] => None
  end.

(** The worker [w] makes all the accesses it has still to make. *)
Definition settle (r : TrainingRun) (wp : Z) (w : Worker) : Z * Worker :=
  fold_left (perform r) (accesses w) (wp, with_accesses w []).

(** One turn of [trainChunk] for the worker [w] on its chunk [chunk], from
    the value [wp] of [words_processed]: either one turn of the [while]
    loop (a sentence, and the block that updates the learning rate when
    [word_count] has reached 10000), or the end of an epoch.  The worker
    first finishes the statement it is in ([settle]).  The turn goes as far
    as the load of [words_processed] of its [+=]; the store, and in the
    block the read for [alpha], are left in [accesses], so that accesses of
    the other workers can come in between: nothing orders
    [words_processed += word_count] at the end of an epoch, which is
    outside the block of [print_mutex].  The block is entered only when no
    other worker holds the mutex ([locked]); a worker whose epochs are over
    has no turn.  Of [trainSentence] the turn keeps the number of words it
    returns; the weights, which it changes, are not part of the
    progress. *)
Definition trainChunk_step (r : TrainingRun) (chunk : list string) (locked : bool) (wp : Z)
    (w : Worker) : option (Z * Worker) :=
  if (epoch w <? iterations (run_config r))%Z then
    let '(wp, w) := settle r wp w in
    match pending w with
    | sent :: rest =>
        let wc := (word_count w + trainSentence_words (run_vocabulary r) sent)%Z in
        if (10000 <=? wc)%Z then
          if locked then None
          else
            Some (wp, {| epoch := epoch w; pending := rest; word_count := 0; alpha := alpha w;
                         accesses := [Store (wp + wc); ReadAlpha] |})
        else
          Some (wp, {| epoch := epoch w; pending := rest; word_count := wc; alpha := alpha w;
                       accesses := [] |})
    | [] =>
        Some (wp, {| epoch := (epoch w + 1)%Z; pending := chunk; word_count := 0;
                     alpha := alpha w; accesses := [Store (wp + word_count w)] |})
    end
  else None.

(** The state in which [train] starts its workers. *)
Definition train_init (r : TrainingRun) : Progress :=
  {| words_processed := 0;
     workers := List.map (fun chunk => {| epoch := 0; pending := chunk; word_count := 0;
                                          alpha := learning_rate (run_config r);
                                          accesses := [] |})
                         (chunks r) |}.

(** A step of the run: some worker makes its turn. *)
Inductive train_step (r : TrainingRun) : Progress -> Progress -> Prop :=
  | train_step_worker (g : Progress) (i : nat) (chunk : list string) (w w' : Worker) (wp' : Z) :
      workers g !! i = Some w ->
      chunks r !! i = Some chunk ->
      trainChunk_step r chunk (locked_by_other (workers g) i) (words_processed g) w
      = Some (wp', w') ->
      train_step r g {| words_processed := wp'; workers := <[i := w']> (workers g) |}.

(** Some worker makes the next access of the statement it is in. *)
Inductive train_access (r : TrainingRun) : Progress -> Progress -> Prop :=
  | train_access_worker (g : Progress) (i : nat) (w w' : Worker) (wp' : Z) :
      workers g !! i = Some w ->
      access_step r (words_processed g) w = Some (wp', w') ->
      train_access r g {| words_processed := wp'; workers := <[i := w']> (workers g) |}.

(** The states of a run: the turns and the accesses of the workers in any
    order.  The standard gives no meaning to a run in which two threads
    access a plain [long long] without an order between them; the states
    are those of a machine that makes the loads and stores one at a time. *)
Inductive train_reachable (r : TrainingRun) : Progress -> Prop :=
  | train_reachable_init : train_reachable r (train_init r)
  | train_reachable_step (g g' : Progress) :
      train_reachable r g -> train_step r g g' -> train_reachable r g'
  | train_reachable_access (g g' : Progress) :
      train_reachable r g -> train_access r g g' -> train_reachable r g'.

(** A schedule: which worker makes a turn or an access next. *)
Inductive Move : Type :=
  | Turn (i : nat)
  | Acc (i : nat).

Definition move_step (r : TrainingRun) (g : Progress) (mv : Move) : option Progress :=
  match mv with
  | Turn i =>
      w ← workers g !! i;
      chunk ← chunks r !! i;
      st ← trainChunk_step r chunk (locked_by_other (workers g) i) (words_processed g) w;
      Some {| words_processed := st.1; workers := <[i := st.2]> (workers g) |}
  | Acc i =>
      w ← workers g !! i;
      st ← access_step r (words_processed g) w;
      Some {| words_processed := st.1; workers := <[i := st.2]> (workers g) |}
  end.

(** The state after the moves of a schedule, if each of them can be made. *)
Definition run_moves (r : TrainingRun) (g : Progress) (moves : list Move) : option Progress :=
  fold_left (fun og mv => g ← og; move_step r g mv) moves (Some g).

(** ** Dictionary induction (distance.cpp) *)

(** Modelled from the spec: [BilingualModel] is declared in bilingual.hpp; it
    owns a source and a target model and has its own configuration. *)
Record BilingualModel : Type := {
  bi_config : Config;
  src_model : MonolingualModel;
  trg_model : MonolingualModel
}.

Section Bilingual.
Context {U : Utils}.

(** The inner loop of the free function [dictionaryInduction]: the
    accumulator is [(trg_index, similarity)], [None] being
    [trg_words.end()]. *)
Definition best_target (src_vec : vec) (trg_words : list (string * vec))
  : option (string * vec) * Q :=
  fold_left (fun acc trg_it =>
               let sim := dot src_vec trg_it.2 in
               match acc.1 with
               | None => (Some trg_it, sim)
               | Some _ => if Qltb acc.2 sim then (Some trg_it, sim) else acc
               end)
            trg_words (None, 0).

(** The free function [dictionaryInduction(src_words, trg_words,
    dictionary)]; the result is [dictionary] after the call. *)
Definition dictionaryInduction_words (src_words trg_words : list (string * vec))
    (dictionary : list (string * string)) : list (string * string) :=
  fold_left (fun dictionary it =>
               match (best_target it.2 trg_words).1 with
               | Some trg_index => (dictionary ++ [(it.1, trg_index.1)])%list
               | None => dictionary
               end)
            src_words dictionary.

(** The two loops that look the words up and scale their vectors to unit
    length. *)
Definition unit_vectors (m : MonolingualModel) (vocab : list string) (policy : Z)
  : list (string * vec) :=
  fold_left (fun words w =>
               match vocabulary m !! w with
               | Some node =>
                   let v := wordVec_index m (index node) policy in
                   (words ++ [(word node, vdiv v (norm v))])%list
               | None => words
               end)
            vocab [].

(** The vector [splits[i]] of the thread [i] of [n]. *)
Definition thread_split {A} (src_words : list A) (n i : nat) : list A :=
  let size := (length src_words / n)%nat in
  let first := (i * size)%nat in
  let last := if (i =? n - 1)%nat then length src_words else (first + size)%nat in
  take (last - first) (drop first src_words).

(** [BilingualModel::dictionaryInduction(src_vocab, trg_vocab, policy)].
    Every thread fills its own [dictionaries[i]] from its own [splits[i]]
    and the shared, unchanged [trg_words]; the second loop joins the threads
    in order and appends their dictionaries. *)
Definition dictionaryInduction (b : BilingualModel) (src_vocab trg_vocab : list string)
    (policy : Z) : list (string * string) :=
  let src_words := unit_vectors (src_model b) src_vocab policy in
  let trg_words := unit_vectors (trg_model b) trg_vocab policy in
  if (threads (bi_config b) =? 1)%Z then
    dictionaryInduction_words src_words trg_words []
  else
    let n := Z.to_nat (threads (bi_config b)) in
    let dictionaries :=
      List.map (fun i => dictionaryInduction_words (thread_split src_words n i) trg_words [])
               (seq 0 n) in
    fold_left (fun dictionary d => (dictionary ++ d)%list) dictionaries [].

Definition with_threads (b : BilingualModel) (t : Z) : BilingualModel :=
  {| bi_config :=
       {| dimension := dimension (bi_config b); min_count := min_count (bi_config b);
          window_size := window_size (bi_config b);
          negative := negative (bi_config b);
          hierarchical_softmax := hierarchical_softmax (bi_config b);
          no_average := no_average (bi_config b); learning_rate := learning_rate (bi_config b);
          iterations := iterations (bi_config b); threads := t |};
     src_model := src_model b; trg_model := trg_model b |}.

End Bilingual.

(** ** Models for the examples *)

(** An instance of [Utils] for models whose vectors have one coordinate:
    there the cosine of two vectors is the sign of their product and the
    norm is the absolute value.  [sigmoid] takes its value at 0 everywhere
    and every draw of [rand] is 0. *)
Definition sign (q : Q) : Q :=
  if Qltb 0 q then 1 else if Qltb q 0 then - (1) else 0.

Definition example_utils : Utils :=
  {| cosineSimilarity := fun u v => sign (dot u v);
     norm := fun v => let x := nth 0 v 0 in if Qltb x 0 then - x else x;
     sigmoid := fun _ => 1 # 2;
     rand := fun _ _ => 0%Z |}.

Definition example_config (negative : Z) (no_average : bool) (threads : Z) : Config :=
  {| dimension := 1; min_count := 1; window_size := 1; negative := negative;
     hierarchical_softmax := false; no_average := no_average;
     learning_rate := 1 # 10; iterations := 1; threads := threads |}.

Definition example_leaf (i : Z) (w : string) (c : Z) : HuffmanNode := LeafNode i w c [] [].

(** The vocabulary [{x, z}]. *)
Definition model_xz : MonolingualModel :=
  {| config := example_config 0 false 1;
     input_weights := [[1]; [- (1)]];
     output_weights := [[0]; [0]];
     output_weights_hs := [[0]; [0]];
     vocabulary := <["x" := example_leaf 0 "x" 2]> (<["z" := example_leaf 1 "z" 1]> ∅);
     unigram_table := [] |}.

(** The vocabulary [{a, b, c}] with [negative] samples. *)
Definition model_abc (negative : Z) (no_average : bool) : MonolingualModel :=
  {| config := example_config negative no_average 1;
     input_weights := [[3]; [- (2)]; [3]];
     output_weights := [[1]; [- (1)]; [1]];
     output_weights_hs := [[0]; [0]; [0]];
     vocabulary := <["a" := example_leaf 0 "a" 5]>
                     (<["b" := example_leaf 1 "b" 3]> (<["c" := example_leaf 2 "c" 1]> ∅));
     unigram_table := [example_leaf 1 "b" 3] |}.

(** The sentence [a b c] as [getNodes] returns it for [model_abc]. *)
Definition nodes_abc : list HuffmanNode :=
  [example_leaf 0 "a" 5; example_leaf 1 "b" 3; example_leaf 2 "c" 1].

(** A run of one worker over two lines, the first of 10000 tokens. *)
Definition long_line : string := String.concat " " (repeat "a" (Z.to_nat 10000)).

Definition example_run : TrainingRun :=
  {| run_config := example_config 0 false 1;
     run_vocabulary := vocabulary (model_abc 0 false);
     training_words := 10002;
     chunks := [[long_line; "b c"]] |}.

(** The state of [example_run] after its worker has read the first line,
    made the store of its [+=] and read [words_processed] for [alpha]. *)
Definition example_progress : Progress :=
  {| words_processed := 10000;
     workers := [{| epoch := 0; pending := ["b c"]; word_count := 0;
                    alpha := decayed_alpha example_run 10000; accesses := [] |}] |}.

(** A run of two workers on a file of four lines, [long_line] twice, then
    [b c] and [c]: [chunkify] gives two lines to each worker. *)
Definition example_race : TrainingRun :=
  {| run_config := example_config 0 false 2;
     run_vocabulary := vocabulary (model_abc 0 false);
     training_words := 20003;
     chunks := [[long_line; long_line]; ["b c"; "c"]] |}.

(** A schedule of [example_race].  The second worker reads its two lines
    and, at the end of its epoch, loads [words_processed], which is 0.  The
    first worker reads its first line and updates its learning rate, reads
    its second line, takes the mutex, loads [words_processed] and stores
    20000. *)
Definition race_schedule : list Move :=
  [Turn 1; Turn 1; Turn 1; Turn 0; Acc 0; Acc 0; Turn 0; Acc 0]%nat.

Definition example_bilingual (threads : Z) : BilingualModel :=
  {| bi_config := example_config 0 false threads;
     src_model := model_abc 0 false;
     trg_model := model_xz |}.

(** ** Further queries (distance.cpp) *)

Section MoreQueries.
Context {U : Utils}.

(** The loop of [closest(word, words, policy)] over the list: every word of
    the list that is in the vocabulary is pushed with its cosine to [v1]. *)
Definition closest_among_candidates (m : MonolingualModel) (v1 : vec) (words : list string)
    (policy : Z) : list (string * Q) :=
  foldl (fun res w =>
           match vocabulary m !! w with
           | Some node =>
               (res ++ [(word node,
                         cosineSimilarity v1 (wordVec_index m (index node) policy))])%list
           | None => res
           end)
        [] words.

(** [MonolingualModel::closest(const string& word, const vector<string>&
    words, int policy)].  [std::sort] leaves the order of equal elements
    open; here they keep the order of a sort by insertion. *)
Definition closest_among (m : MonolingualModel) (w : string) (words : list string)
    (policy : Z) : outcome (list (string * Q)) :=
  match vocabulary m !! w with
  | None => Throw OOV
  | Some node =>
      let v1 := wordVec_index m (index node) policy in
      Ok (sort_by comp (closest_among_candidates m v1 words policy))
  end.

(** The loop of [closest(const vec& v, int n, int policy)] over the
    vocabulary: every entry is pushed. *)
Definition closest_vec_candidates (m : MonolingualModel) (v : vec) (policy : Z)
  : list (string * Q) :=
  foldl (fun res it =>
           (res ++ [(word it.2,
                     cosineSimilarity v (wordVec_index m (index it.2) policy))])%list)
        [] (map_to_list (vocabulary m)).

(** [MonolingualModel::closest(const vec& v, int n, int policy)]. *)
Definition closest_vec (m : MonolingualModel) (v : vec) (n : Z) (policy : Z)
  : outcome (list (string * Q)) :=
  let res := closest_vec_candidates m v policy in
  sorted ← partial_sort comp res n;
  Ok (if (n <? Z.of_nat (length sorted))%Z then take (Z.to_nat n) sorted else sorted).

(** [BilingualModel::trg_closest]. *)
Definition trg_closest (b : BilingualModel) (src_word : string) (n : Z) (policy : Z)
  : outcome (list (string * Q)) :=
  match vocabulary (src_model b) !! src_word with
  | None => Throw OOV
  | Some node =>
      closest_vec (trg_model b) (wordVec_index (src_model b) (index node) policy) n policy
  end.

(** [BilingualModel::src_closest]. *)
Definition src_closest (b : BilingualModel) (trg_word : string) (n : Z) (policy : Z)
  : outcome (list (string * Q)) :=
  match vocabulary (trg_model b) !! trg_word with
  | None => Throw OOV
  | Some node =>
      closest_vec (src_model b) (wordVec_index (trg_model b) (index node) policy) n policy
  end.

(** [BilingualModel::similarity]: no test of the indices, which belong to
    two vocabularies. *)
Definition bilingual_similarity (b : BilingualModel) (src_word trg_word : string) (policy : Z)
  : Q :=
  match vocabulary (src_model b) !! src_word, vocabulary (trg_model b) !! trg_word with
  | Some n1, Some n2 =>
      cosineSimilarity (wordVec_index (src_model b) (index n1) policy)
                       (wordVec_index (trg_model b) (index n2) policy)
  | _, _ => 0
  end.

(** [BilingualModel::distance]. *)
Definition bilingual_distance (b : BilingualModel) (src_word trg_word : string) (policy : Z)
  : Q :=
  1 - bilingual_similarity b src_word trg_word policy.

(** One of the two loops of [similaritySentence]: the vector of every word
    is added to [v]; the error of an unknown word is caught. *)
Definition sentence_sum (m : MonolingualModel) (words : list string) (policy : Z) (v : vec)
  : outcome vec :=
  fold_left (fun acc w =>
               v ← acc;
               try_catch (x ← wordVec m w policy; Ok (vadd v x)) (fun _ => Ok v))
            words (Ok v).

(** [MonolingualModel::similaritySentence]. *)
Definition similaritySentence (m : MonolingualModel) (seq1 seq2 : string) (policy : Z)
  : outcome Q :=
  let words1 := split seq1 in
  let words2 := split seq2 in
  vec1 ← sentence_sum m words1 policy (zeros (Z.to_nat (dimension (config m))));
  vec2 ← sentence_sum m words2 policy (zeros (Z.to_nat (dimension (config m))));
  let length := norm vec1 * norm vec2 in
  if Qeq_bool length 0 then Ok 0 else Ok (dot vec1 vec2 / length).

(** The sum of the vectors of the words that the vocabulary knows, from
    [v]. *)
Definition known_sum (m : MonolingualModel) (words : list string) (policy : Z) (v : vec)
  : vec :=
  fold_left (fun v w =>
               match vocabulary m !! w with
               | Some node => vadd v (wordVec_index m (index node) policy)
               | None => v
               end)
            words v.

(** The words of a sentence that the vocabulary knows. *)
Definition known_words (m : MonolingualModel) (words : list string) : list string :=
  List.filter (fun w => bool_decide (is_Some (vocabulary m !! w))) words.

End MoreQueries.

(** ** similaritySentenceSyntax (distance.cpp) *)

(** The exceptions that [similaritySentenceSyntax] meets: the
    [runtime_error] of [wordVec] and the [std::out_of_range] of
    [std::map::at], which is a [std::logic_error] and no [runtime_error]. *)
Inductive exception : Type :=
  | runtime_error (e : error)
  | out_of_range.

Inductive result (A : Type) : Type :=
  | Returns (a : A)
  | Raises (x : exception)
  | NoResult.

Arguments Returns {A} a.
Arguments Raises {A} x.
Arguments NoResult {A}.

Definition result_bind {A B} (c : result A) (f : A -> result B) : result B :=
  match c with
  | Returns a => f a
  | Raises x => Raises x
  | NoResult => NoResult
  end.

(** [try { body } catch (runtime_error) { handler }] where other exceptions
    can pass. *)
Definition catch_runtime_error {A} (body : result A) (handler : result A) : result A :=
  match body with
  | Raises (runtime_error _) => handler
  | other => other
  end.

(** The table [syntax_weights]. *)
Definition syntax_weights : list (string * Q) :=
  [("VERB", 3 # 4); ("NOUN", 1); ("PRON", 1 # 10); ("ADJ", 3 # 4); ("ADV", 1 # 2);
   ("ADP", 1 # 10); ("CONJ", 1 # 10); ("DET", 1 # 10); ("NUM", 1 # 2); ("PRT", 1 # 10);
   ("X", 1 # 2); (".", 1 # 20)].

(** [syntax_weights.at(tag)]: [None] is the throw of [std::out_of_range]. *)
Definition syntax_weights_at (tag : string) : option Q :=
  snd <$> List.find (fun e => String.eqb e.1 tag) syntax_weights.

(** Modelled from the spec: the product [v * a] of a vector by a scalar. *)
Definition vtimes (v : vec) (a : Q) : vec := List.map (fun x => x * a) v.

Section Syntax.
Context {U : Utils}.

(** [pow] of [<cmath>]. *)
Variable pow : Q -> Q -> Q.

(** The term
    [wordVec(word, policy) * pow(syntax_weights.at(tag), 1 - alpha) * pow(idf, alpha)].
    The language leaves open which of [wordVec] and [at] is called first;
    [tag_first] says it. *)
Definition syntax_term (tag_first : bool) (m : MonolingualModel) (w tag : string) (idf alpha : Q)
    (policy : Z) : result vec :=
  let of_word :=
    match wordVec m w policy with
    | Ok v => Returns v
    | Throw e => Raises (runtime_error e)
    | Undefined => NoResult
    end in
  let of_tag :=
    match syntax_weights_at tag with
    | Some sw => Returns (pow sw (1 - alpha))
    | None => Raises out_of_range
    end in
  if tag_first then
    result_bind of_tag (fun a =>
    result_bind of_word (fun v => Returns (vtimes (vtimes v a) (pow idf alpha))))
  else
    result_bind of_word (fun v =>
    result_bind of_tag (fun a => Returns (vtimes (vtimes v a) (pow idf alpha)))).

(** One of the two loops of [similaritySentenceSyntax], over the positions
    that the three sequences have. *)
Definition syntax_sum (tag_first : bool) (m : MonolingualModel) (words tags : list string)
    (idf : list Q) (alpha : Q) (policy : Z) (v : vec) : result vec :=
  fold_left (fun acc i =>
               result_bind acc (fun v =>
                 catch_runtime_error
                   (result_bind
                      (syntax_term tag_first m (nth i words EmptyString) (nth i tags EmptyString)
                                   (nth i idf 0) alpha policy)
                      (fun t => Returns (vadd v t)))
                   (Returns v)))
            (seq 0 (Nat.min (Nat.min (length words) (length tags)) (length idf)))
            (Returns v).

(** [MonolingualModel::similaritySentenceSyntax]. *)
Definition similaritySentenceSyntax (tag_first1 tag_first2 : bool) (m : MonolingualModel)
    (seq1 seq2 tags1 tags2 : string) (idf1 idf2 : list Q) (alpha : Q) (policy : Z)
  : result Q :=
  let words1 := split seq1 in
  let words2 := split seq2 in
  let pos_tags1 := split tags1 in
  let pos_tags2 := split tags2 in
  result_bind (syntax_sum tag_first1 m words1 pos_tags1 idf1 alpha policy
                          (zeros (Z.to_nat (dimension (config m))))) (fun vec1 =>
  result_bind (syntax_sum tag_first2 m words2 pos_tags2 idf2 alpha policy
                          (zeros (Z.to_nat (dimension (config m))))) (fun vec2 =>
  let length := norm vec1 * norm vec2 in
  if Qeq_bool length 0 then Returns 0 else Returns (dot vec1 vec2 / length))).

(** A position of the loop at which the word is known and the tag is not in
    the table. *)
Definition unknown_tag_at (m : MonolingualModel) (words tags : list string) (idf : list Q)
    (i : nat) : Prop :=
  (i < Nat.min (Nat.min (length words) (length tags)) (length idf))%nat
  /\ is_Some (vocabulary m !! nth i words EmptyString)
  /\ syntax_weights_at (nth i tags EmptyString) = None.

(** Every tag that the loop reads is in the table. *)
Definition tags_known (words tags : list string) (idf : list Q) : Prop :=
  forall i, (i < Nat.min (Nat.min (length words) (length tags)) (length idf))%nat ->
            is_Some (syntax_weights_at (nth i tags EmptyString)).

End Syntax.

(** A function for [pow] in the examples: it is [pow] on the exponents 0 and
    1, and its first argument on the others. *)
Definition example_pow (x a : Q) : Q := if Qeq_bool a 0 then 1 else x.

(** ** Further notions on the Huffman tree *)

(** The indices of the internal nodes of a tree. *)
Fixpoint internal_indices (t : HuffmanNode) : list Z :=
  match t with
  | LeafNode _ _ _ _ _ => []
  | ParentNode i _ l r => i :: (internal_indices l ++ internal_indices r)%list
  end.

(** The indices of the internal nodes of the trees of a heap. *)
Definition forest_internal (heap : list HuffmanNode) : list Z :=
  concat (List.map internal_indices heap).

(** The leaves of a tree, as nodes. *)
Fixpoint leaf_nodes (t : HuffmanNode) : list HuffmanNode :=
  match t with
  | LeafNode _ _ _ _ _ => [t]
  | ParentNode _ _ l r => (leaf_nodes l ++ leaf_nodes r)%list
  end.

(** The integers [lo], [lo + 1], ..., [lo + len - 1]. *)
Definition Zseq (lo : Z) (len : nat) : list Z :=
  List.map (fun k => (lo + Z.of_nat k)%Z) (seq 0 len).

(** ** The other training kernels and the paragraph vector (monolingual.cpp) *)

Section MoreTraining.
Context {U : Utils}.

(** [MonolingualModel::trainWordDBOW]; [sent_vec] is the vector behind the
    pointer, which [trainWord] has tested.  The two gradient calls are those
    of [trainWordCBOW], [cbow_error]. *)
Definition trainWordDBOW (m : MonolingualModel) (k : nat) (nodes : list HuffmanNode)
    (word_pos : Z) (sent_vec : vec) (alpha : Q) (update : bool)
  : outcome (MonolingualModel * vec * nat) :=
  output_word ← at_pos nodes word_pos;
  let '(error, m, k) := cbow_error m k output_word sent_vec alpha update in
  Ok (m, vadd sent_vec error, k).

(** One turn of the loop of [trainWordSkipGram] that is not skipped. *)
Definition trainWordSkipGram_step (nodes : list HuffmanNode) (input_word : HuffmanNode)
    (alpha : Q) (update : bool) (acc : MonolingualModel * nat) (p : Z)
  : MonolingualModel * nat :=
  let '(m, k) := acc in
  let output_word := nth (Z.to_nat p) nodes input_word in
  let i := index input_word in
  let '(error, m, k) := cbow_error m k output_word (row (input_weights m) i) alpha update in
  if update then
    (with_input_weights m (set_row (input_weights m) i (vadd (row (input_weights m) i) error)), k)
  else (m, k).

(** [MonolingualModel::trainWordSkipGram]. *)
Definition trainWordSkipGram (m : MonolingualModel) (k : nat) (nodes : list HuffmanNode)
    (word_pos : Z) (alpha : Q) (update : bool) : outcome (MonolingualModel * nat) :=
  input_word ← at_pos nodes word_pos;
  let this_window_size := (1 + rand k (window_size (config m)))%Z in
  let k := S k in
  Ok (fold_left (trainWordSkipGram_step nodes input_word alpha update)
                (window_positions (length nodes) word_pos this_window_size) (m, k)).

(** [MonolingualModel::trainWord]; [skip_gram] is the field of that name of
    the configuration. *)
Definition trainWord (skip_gram : bool) (m : MonolingualModel) (k : nat)
    (nodes : list HuffmanNode) (word_pos : Z) (sent_vec : option vec) (alpha : Q)
    (update : bool) : outcome (MonolingualModel * option vec * nat) :=
  if skip_gram then
    match sent_vec with
    | Some sv =>
        '(m, sv, k) ← trainWordDBOW m k nodes word_pos sv alpha update; Ok (m, Some sv, k)
    | None =>
        '(m, k) ← trainWordSkipGram m k nodes word_pos alpha update; Ok (m, None, k)
    end
  else trainWordCBOW m k nodes word_pos sent_vec alpha update.

(** The nodes of a sentence after the [erase] of the tokens [UNK]. *)
Definition known_nodes (vocab : gmap string HuffmanNode) (sentence : string)
  : list HuffmanNode :=
  omap id (getNodes vocab sentence).

(** The inner loop of [sentVec]: [trainWord] on every position, on the
    vector [sent_vec] of the caller and with [update] false.  [trainWord]
    returns the vector behind the pointer it was given, here always
    [&sent_vec]. *)
Definition sentVec_epoch (skip_gram : bool) (nodes : list HuffmanNode) (alpha : Q)
    (st : MonolingualModel * vec * nat) : outcome (MonolingualModel * vec * nat) :=
  for_loop 0 (length nodes)
    (fun '(m, sent_vec, k) pos =>
       '(m, sv, k) ← trainWord skip_gram m k nodes (Z.of_nat pos) (Some sent_vec) alpha false;
       Ok (m, default sent_vec sv, k))
    st.

(** [MonolingualModel::sentVec] from the draw number [k]: the model after
    the call, the vector returned and the number of draws. *)
Definition sentVec (skip_gram : bool) (m : MonolingualModel) (k : nat) (sentence : string)
  : outcome (MonolingualModel * vec * nat) :=
  let nodes := known_nodes (vocabulary m) sentence in
  match nodes with
  | [] => Throw InvalidInput
  | _ =>
      let sent_vec := zeros (Z.to_nat (dimension (config m))) in
      for_loop 0 (Z.to_nat (iterations (config m)))
        (fun st it =>
           let alpha :=
             learning_rate (config m)
             * (1 - inject_Z (Z.of_nat it) / inject_Z (iterations (config m))) in
           sentVec_epoch skip_gram nodes alpha st)
        (m, sent_vec, k)
  end.

(** [MonolingualModel::sentVectors] on the lines of the input file: the
    model, [sent_weights] and the number of draws after the call. *)
Definition sentVectors (skip_gram : bool) (m : MonolingualModel) (k : nat)
    (lines : list string) : outcome (MonolingualModel * mat * nat) :=
  fold_left
    (fun acc line =>
       '(m, sent_weights, k) ← acc;
       '(m, embedding, k) ←
         try_catch (sentVec skip_gram m k line)
                   (fun _ => Ok (m, zeros (Z.to_nat (dimension (config m))), k));
       Ok (m, (sent_weights ++ [embedding])%list, k))
    lines (Ok (m, [], k)).

End MoreTraining.

(** A part [f] of the model that an assignment to a row of
    [output_weights_hs], of [output_weights] or of [input_weights] keeps. *)
Definition keeps_hs {A} (f : MonolingualModel -> A) : Prop :=
  forall m i v, f (with_output_weights_hs m (set_row (output_weights_hs m) i v)) = f m.

Definition keeps_out {A} (f : MonolingualModel -> A) : Prop :=
  forall m i v, f (with_output_weights m (set_row (output_weights m) i v)) = f m.

Definition keeps_in {A} (f : MonolingualModel -> A) : Prop :=
  forall m i v, f (with_input_weights m (set_row (input_weights m) i v)) = f m.

(** ** Accounting of a run of [train] *)

(** The number of tokens of the vocabulary in some lines: the sum of what
    [trainSentence] returns for them. *)
Definition lines_words (r : TrainingRun) (lines : list string) : Z :=
  fold_right (fun sent acc => (trainSentence_words (run_vocabulary r) sent + acc)%Z) 0%Z lines.

(** What the worker [w] of the chunk [chunk] has still to add to
    [words_processed]: its [word_count], the lines left in this epoch and
    the epochs to come. *)
Definition owed (r : TrainingRun) (chunk : list string) (w : Worker) : Z :=
  if (epoch w <? iterations (run_config r))%Z then
    (word_count w + lines_words r (pending w)
     + (iterations (run_config r) - epoch w - 1) * lines_words r chunk)%Z
  else 0%Z.

(** The number of turns that the worker [w] of the chunk [chunk] has still
    to make: one for each line left and one for the end of each epoch. *)
Definition steps_left (r : TrainingRun) (chunk : list string) (w : Worker) : Z :=
  if (epoch w <? iterations (run_config r))%Z then
    ((iterations (run_config r) - epoch w - 1) * (Z.of_nat (length chunk) + 1)
     + Z.of_nat (length (pending w)) + 1)%Z
  else 0%Z.

(** The number of turns and accesses that the worker [w] has still to make,
    at most: a turn leaves at most two accesses to make. *)
Definition moves_left (r : TrainingRun) (chunk : list string) (w : Worker) : Z :=
  (3 * steps_left r chunk w + Z.of_nat (length (accesses w)))%Z.

(** The sum of [f chunk worker] over the workers and their chunks. *)
Definition sum_workers (f : list string -> Worker -> Z) (chunks : list (list string))
    (workers : list Worker) : Z :=
  fold_right (fun cw acc => (f cw.1 cw.2 + acc)%Z) 0%Z (zip chunks workers).

(** ** Further queries of the bilingual model (distance.cpp) *)

Section MoreBilingual.
Context {U : Utils}.

(** One turn of the loop of [BilingualModel::similarityNgrams]. *)
Definition bilingual_ngrams_step (b : BilingualModel) (src_words trg_words : list string)
    (policy : Z) (acc : Q * Z) (i : nat) : outcome (Q * Z) :=
  try_catch
    (w1 ← at_index src_words i;
     w2 ← at_index trg_words i;
     Ok (acc.1 + bilingual_similarity b w1 w2 policy, (acc.2 + 1)%Z))
    (fun _ => Ok acc).

(** [BilingualModel::similarityNgrams].  The size test compares
    [trg_words.size()] with itself, as the source does. *)
Definition bilingual_similarityNgrams (b : BilingualModel) (src_seq trg_seq : string)
    (policy : Z) : outcome Q :=
  let src_words := split src_seq in
  let trg_words := split trg_seq in
  if negb (length trg_words =? length trg_words)%nat then Throw ShapeMismatch
  else
    acc ← for_loop 0 (length src_words)
            (bilingual_ngrams_step b src_words trg_words policy) (0, 0%Z);
    if (acc.2 =? 0)%Z then Throw AllOOV
    else Ok (acc.1 / inject_Z acc.2).

(** The sum that the loop of [BilingualModel::similarityNgrams] reaches on
    the pairs of two sequences, from [res]. *)
Fixpoint bilingual_pairs_sum (b : BilingualModel) (policy : Z) (src_words trg_words : list string)
    (res : Q) : Q :=
  match src_words, trg_words with
  | w1 :: src_words', w2 :: trg_words' =>
      bilingual_pairs_sum b policy src_words' trg_words'
        (res + bilingual_similarity b w1 w2 policy)
  | _, _ => res
  end.

(** [BilingualModel::similaritySentence]; the two sums start from vectors of
    the dimension of the configuration of the bilingual model. *)
Definition bilingual_similaritySentence (b : BilingualModel) (src_seq trg_seq : string)
    (policy : Z) : outcome Q :=
  let src_words := split src_seq in
  let trg_words := split trg_seq in
  src_vec ← sentence_sum (src_model b) src_words policy
              (zeros (Z.to_nat (dimension (bi_config b))));
  trg_vec ← sentence_sum (trg_model b) trg_words policy
              (zeros (Z.to_nat (dimension (bi_config b))));
  let length := norm src_vec * norm trg_vec in
  if Qeq_bool length 0 then Ok 0 else Ok (dot src_vec trg_vec / length).

End MoreBilingual.

(** ** learnMapping (distance.cpp) *)

(** Modelled from the spec: [u - v], element by element. *)
Fixpoint vsub (u v : vec) : vec :=
  match u, v with
  | x :: u', y :: v' => (x - y) :: vsub u' v'
  | _, _ => u
  end.

(** Modelled from the spec: [mat(rows, columns)] is declared in utils.hpp; it
    is the matrix of zeros of that shape. *)
Definition zero_mat (rows columns : nat) : mat := repeat (zeros columns) rows.

(** The variables of [learnMapping] that its loop changes: the matrix
    [mapping], [dict_indices], which [random_shuffle] permutes in place,
    [patience], [best_loss], [prev_best_loss] and [alpha]. *)
Record MappingState : Type := {
  mapping : mat;
  dict_indices : list (Z * Z);
  patience : Z;
  best_loss : Q;
  prev_best_loss : Q;
  mapping_alpha : Q
}.

(** The first loop of [learnMapping]: the pairs of indices of the entries of
    the dictionary that both vocabularies know. *)
Definition known_pairs (b : BilingualModel) (dict : list (string * string)) : list (Z * Z) :=
  fold_left (fun acc it =>
               match vocabulary (src_model b) !! it.1, vocabulary (trg_model b) !! it.2 with
               | Some src_node, Some trg_node => (acc ++ [(index src_node, index trg_node)])%list
               | _, _ => acc
               end)
            dict [].

(** The two nested loops that correct [mapping] for one pair: every read of
    a coordinate is a read of a [std::vector]. *)
Definition learnMapping_update (mapping : mat) (x e : vec) (alpha : Q) : outcome mat :=
  for_loop 0 (length mapping)
    (fun mapping i =>
       for_loop 0 (length (nth 0 mapping []))
         (fun mapping j =>
            xj ← at_index x j;
            ei ← at_index e i;
            r ← at_index mapping i;
            mij ← at_index r j;
            let error := xj * ei * 2 in
            Ok (<[i := <[j := mij - alpha * error]> r]> mapping))
         mapping)
    mapping.

(** One turn of the loop over [dict_indices]; the accumulator is
    [(mapping, loss)]. *)
Definition learnMapping_pair (src_weights trg_weights : mat) (size : nat) (alpha : Q)
    (acc : mat * Q) (it : Z * Z) : outcome (mat * Q) :=
  let '(mapping, loss) := acc in
  let x := row src_weights it.1 in
  let z := row trg_weights it.2 in
  let y := List.map (fun r => dot r x) mapping in
  let e := vsub y z in
  let loss := loss + dot e e / inject_Z (Z.of_nat size) in
  mapping ← learnMapping_update mapping x e alpha;
  Ok (mapping, loss).

Section LearnMapping.
(** [shuffle k l] is [l] after the [k]-th call of [random_shuffle]. *)
Variable shuffle : nat -> list (Z * Z) -> list (Z * Z).

(** One turn of the [while] loop of [learnMapping], the [turn]-th: the state
    after it, and whether the turn ends on [break]. *)
Definition learnMapping_turn (src_weights trg_weights : mat) (turn : nat) (st : MappingState)
  : outcome (MappingState * bool) :=
  let epsilon := 1 # 10000 in
  let indices := shuffle turn (dict_indices st) in
  '(mapping, loss) ←
    fold_left (fun acc it =>
                 a ← acc;
                 learnMapping_pair src_weights trg_weights (length indices)
                                   (mapping_alpha st) a it)
              indices (Ok (mapping st, 0));
  let patience :=
    if Qltb 0 (best_loss st) && Qle_bool (best_loss st - epsilon) loss
    then (patience st - 1)%Z else patience st in
  let best_loss :=
    if Qle_bool (best_loss st) 0 then loss else Qmin (best_loss st) loss in
  if (patience =? 0)%Z then
    if Qltb 0 (prev_best_loss st) && Qle_bool (prev_best_loss st - epsilon) best_loss then
      Ok ({| mapping := mapping; dict_indices := indices; patience := patience;
             best_loss := best_loss; prev_best_loss := prev_best_loss st;
             mapping_alpha := mapping_alpha st |}, true)
    else
      Ok ({| mapping := mapping; dict_indices := indices; patience := 10;
             best_loss := best_loss; prev_best_loss := best_loss;
             mapping_alpha := mapping_alpha st / 2 |}, false)
  else
    Ok ({| mapping := mapping; dict_indices := indices; patience := patience;
           best_loss := best_loss; prev_best_loss := prev_best_loss st;
           mapping_alpha := mapping_alpha st |}, false).

(** The [while] loop of [learnMapping] for at most [fuel] turns, from the
    turn number [turn]: [Some] of the last state when the loop has ended by
    then, on its test or on [break], and [None] when it is still running. *)
Fixpoint learnMapping_loop (src_weights trg_weights : mat) (fuel turn : nat)
    (st : MappingState) : outcome (option MappingState) :=
  match fuel with
  | O => Ok None
  | S fuel' =>
      if Qltb (1 # 10000000000) (mapping_alpha st) then
        '(st', stop) ← learnMapping_turn src_weights trg_weights turn st;
        if (stop : bool) then Ok (Some st')
        else learnMapping_loop src_weights trg_weights fuel' (S turn) st'
      else Ok (Some st)
  end.

(** [BilingualModel::learnMapping] for at most [fuel] turns of its loop;
    [mapping] starts as the matrix of shape [D_trg] by [D_src]. *)
Definition learnMapping (b : BilingualModel) (dict : list (string * string)) (fuel : nat)
  : outcome (option MappingState) :=
  learnMapping_loop (input_weights (src_model b)) (input_weights (trg_model b)) fuel 0
    {| mapping := zero_mat (Z.to_nat (dimension (config (trg_model b))))
                           (Z.to_nat (dimension (config (src_model b))));
       dict_indices := known_pairs b dict;
       patience := 10;
       best_loss := - (1);
       prev_best_loss := - (1);
       mapping_alpha := 1 # 100 |}.

End LearnMapping.

(** ** chunkify and the lines of a chunk (monolingual.cpp) *)

(** A training file is the list of its lines, every line being followed by
    a newline; the offset of a byte is its distance from the start of the
    file.  The functions below are the code after [check_is_open] and
    [check_is_non_empty], on a file that has passed them. *)

(** What [tellg] returns before each [getline] of the loop of [chunkify],
    from the offset [pos]: the start of every line, then the end of the
    file. *)
Fixpoint line_positions_from (pos : Z) (lines : list string) : list Z :=
  pos :: match lines with
         | [] => []
         | line :: rest =>
             line_positions_from (pos + Z.of_nat (String.length line) + 1)%Z rest
         end.

(** [MonolingualModel::chunkify]: the vector [chunks] returned and the
    values given to [training_lines] and [training_words].  The division by
    [n_chunks] has no value for 0. *)
Definition chunkify (lines : list string) (n_chunks : Z) : outcome (list Z * Z * Z) :=
  let line_positions := line_positions_from 0 lines in
  let words :=
    fold_left (fun words line => (words + Z.of_nat (length (split line)))%Z) lines 0%Z in
  let training_lines := (Z.of_nat (length line_positions) - 1)%Z in
  if (n_chunks =? 0)%Z then Undefined
  else
    let chunk_size := Z.quot training_lines n_chunks in
    chunks ← for_loop 0 (Z.to_nat n_chunks)
               (fun chunks i =>
                  chunk_start ← at_pos line_positions (Z.of_nat i * chunk_size);
                  Ok (chunks ++ [chunk_start])%list)
               [];
    Ok (chunks, training_lines, words).

(** [infile.seekg(pos, infile.beg)]: the strings that the calls of
    [getline] return from the offset [pos] on, the first of them being the
    rest of the line in which [pos] lies. *)
Fixpoint seekg (lines : list string) (pos : Z) : list string :=
  match lines with
  | [] => []
  | line :: rest =>
      if (pos <? 0)%Z then []
      else if (pos <=? Z.of_nat (String.length line))%Z then
        substring (Z.to_nat pos) (String.length line - Z.to_nat pos) line :: rest
      else seekg rest (pos - Z.of_nat (String.length line) - 1)
  end.

(** The [while] loop of [trainChunk] in one epoch, as far as it reads the
    file: [pos] is the offset of the stream and [remaining] what [getline]
    has still to return; [stop] is [chunks[chunk_id + 1]] for a chunk that
    is not the last.  The result is the sentences given to [trainSentence],
    in order. *)
Fixpoint read_chunk (stop : option Z) (pos : Z) (remaining : list string) : list string :=
  match remaining with
  | [] => []
  | sent :: rest =>
      let pos' := (pos + Z.of_nat (String.length sent) + 1)%Z in
      sent :: match stop with
              | Some next => if (next <=? pos')%Z then [] else read_chunk stop pos' rest
              | None => read_chunk stop pos' rest
              end
  end.

(** The sentences that [trainChunk] trains on in each epoch, for the chunk
    [chunk_id] of [chunks]. *)
Definition trainChunk_lines (lines : list string) (chunks : list Z) (chunk_id : nat)
  : outcome (list string) :=
  chunk_start ← at_index chunks chunk_id;
  let stop :=
    if (Z.of_nat chunk_id <? Z.of_nat (length chunks) - 1)%Z then chunks !! S chunk_id
    else None in
  Ok (read_chunk stop chunk_start (seekg lines chunk_start)).

(** The offset of the start of the line [k]. *)
Definition line_offset (lines : list string) (k : nat) : Z :=
  fold_right (fun line acc => (Z.of_nat (String.length line) + 1 + acc)%Z) 0%Z (take k lines).

(** ** The unigram table (monolingual.cpp) *)

Definition with_unigram_table (m : MonolingualModel) (t : list HuffmanNode)
  : MonolingualModel :=
  {| config := config m; input_weights := input_weights m;
     output_weights := output_weights m; output_weights_hs := output_weights_hs m;
     vocabulary := vocabulary m; unigram_table := t |}.

(** [static_cast<int>] of a float: the fraction is dropped. *)
Definition float_to_int (q : Q) : Z := Z.quot (Qnum q) (Zpos (Qden q)).

(** *** Rounding to [float]

    Where the integer [d] of [initUnigramTable] is computed from floats the
    roundings are part of the embedding: before a [static_cast<int>] a
    rounding can change the result.  The model computes in the reals and
    rounds where the source assigns to a [float] or multiplies floats. *)

(** The exponent of a positive real [x]: the [e] with [2^e <= x < 2^(e+1)]. *)
Definition float_exponent (x : Q) : Z :=
  let e := (Z.log2 (Qnum x) - Z.log2 (Zpos (Qden x)))%Z in
  if Qle_bool (2 ^ e) x then e else (e - 1)%Z.

(** The integer nearest to [x], the even one of two that are as near. *)
Definition round_half_even (x : Q) : Z :=
  let k := Qfloor x in
  match Qcompare (x - inject_Z k) (1 # 2) with
  | Lt => k
  | Gt => (k + 1)%Z
  | Eq => if Z.even k then k else (k + 1)%Z
  end.

(** The [float] nearest to a positive real: 24 bits are kept. *)
Definition binary32_pos (x : Q) : Q :=
  let e := float_exponent x in
  inject_Z (round_half_even (x * 2 ^ (23 - e))) * 2 ^ (e - 23).

(** The rounding of IEEE 754 binary32, to nearest and ties to even, with
    the exponents taken unbounded: no subnormal numbers, no underflow to
    zero, no overflow to infinity. *)
Definition binary32 (x : Q) : Q :=
  if Qltb 0 x then binary32_pos x
  else if Qltb x 0 then - binary32_pos (- x)
  else 0.

Section UnigramTable.
(** [to_float x] is the [float] that an assignment to a [float], or a
    product of floats, makes of the real [x]; [binary32] is the rounding of
    the machine.  [pow] is [std::pow] on the count and [power], a [double],
    and [UNIGRAM_TABLE_SIZE] the constant of utils.hpp. *)
Variable to_float : Q -> Q.
Variable pow : Q -> Q -> Q.
Variable UNIGRAM_TABLE_SIZE : Z.

(** The value of [total_count] after the first loop of [initUnigramTable]:
    [total_count += pow(count, power)] rounds the sum to [float] in every
    turn. *)
Definition unigram_total (entries : list (string * HuffmanNode)) : Q :=
  fold_left (fun total_count it =>
               to_float (total_count + pow (inject_Z (count it.2)) (3 # 4)))
            entries 0.

(** The number [d] of copies of an entry of count [c] in the table: the
    quotient is rounded to the [float f], the product [f *
    UNIGRAM_TABLE_SIZE] is a [float], and the cast drops its fraction. *)
Definition unigram_copies (total_count : Q) (c : Z) : Z :=
  let f := to_float (pow (inject_Z c) (3 # 4) / total_count) in
  float_to_int (to_float (f * inject_Z UNIGRAM_TABLE_SIZE)).

(** [MonolingualModel::initUnigramTable]: the model with its table and the
    value given to [vocab_word_count].  The quotient by [total_count] has
    no value when [total_count] is 0. *)
Definition initUnigramTable (m : MonolingualModel) : outcome (MonolingualModel * Z) :=
  let entries := map_to_list (vocabulary m) in
  let vocab_word_count := fold_left (fun acc it => (acc + count it.2)%Z) entries 0%Z in
  let total_count := unigram_total entries in
  table ← fold_left
            (fun acc it =>
               table ← acc;
               if Qeq_bool total_count 0 then Undefined
               else
                 let d := unigram_copies total_count (count it.2) in
                 Ok (table ++ repeat it.2 (Z.to_nat d))%list)
            entries (Ok []);
  Ok (with_unigram_table m table, vocab_word_count).

End UnigramTable.

(** ** Further examples *)

(** A generator whose [random_shuffle] leaves the order. *)
Definition example_shuffle (k : nat) (l : list (Z * Z)) : list (Z * Z) := l.

(** A vocabulary of three words that occur once each. *)
Definition model_ones : MonolingualModel :=
  {| config := example_config 1 false 1;
     input_weights := [[1]; [1]; [1]];
     output_weights := [[0]; [0]; [0]];
     output_weights_hs := [[0]; [0]; [0]];
     vocabulary := <["a" := example_leaf 0 "a" 1]>
                     (<["b" := example_leaf 1 "b" 1]> (<["c" := example_leaf 2 "c" 1]> ∅));
     unigram_table := [] |}.

(** A file of three lines. *)
Definition example_lines : list string := ["a b"; "c"; "a"].

(** ** Initialisation of a model (monolingual.cpp) *)

Section Initialize.
(** [randf k] is the [k]-th draw of [multivec::randf()]. *)
Variable randf : nat -> Q.
Variable pow : Q -> Q -> Q.
Variable UNIGRAM_TABLE_SIZE : Z.

(** [MonolingualModel::initNet] from the draw number [k]: [input_weights]
    is filled row by row, the two output matrices are zero. *)
Definition initNet (k : nat) (m : MonolingualModel) : MonolingualModel :=
  let v := size (vocabulary m) in
  let d := Z.to_nat (dimension (config m)) in
  {| config := config m;
     input_weights :=
       List.map (fun row =>
                   List.map (fun col =>
                               (randf (k + row * d + col) - (1 # 2))
                               / inject_Z (dimension (config m)))
                            (seq 0 d))
                (seq 0 v);
     output_weights := repeat (zeros d) v;
     output_weights_hs := repeat (zeros d) v;
     vocabulary := vocabulary m;
     unigram_table := unigram_table m |}.

(** [MonolingualModel::readVocab] on the words of the training file: the
    vocabulary is cleared and filled, reduced, coded, and the unigram table
    is built, with the rounding [binary32] of its floats.  The result is the
    model and [vocab_word_count]. *)
Definition readVocab (m : MonolingualModel) (words : list string)
  : outcome (MonolingualModel * Z) :=
  let m := with_vocabulary m (readVocab_words (min_count (config m)) words) in
  m ← createBinaryTree m;
  initUnigramTable binary32 pow UNIGRAM_TABLE_SIZE m.

(** The branch [initialize] of [MonolingualModel::train]: [readVocab], then
    [initNet]. *)
Definition train_initialize (k : nat) (m : MonolingualModel) (words : list string)
  : outcome (MonolingualModel * Z) :=
  '(m, vocab_word_count) ← readVocab m words;
  Ok (initNet k m, vocab_word_count).

End Initialize.

(** * Properties *)

(** ** Loops and outcomes *)

Lemma for_loop_S {A} lo len (body : A -> nat -> outcome A) init :
  for_loop lo (S len) body init = (a ← body init lo; for_loop (S lo) len body a).
Proof.
  unfold for_loop. simpl.
  destruct (body init lo) as [a|e|]; simpl; [reflexivity| |];
    induction (seq (S lo) len) as [|i l IH]; simpl; auto.
Qed.

Lemma for_loop_not_Throw {A} (body : A -> nat -> outcome A) len :
  (forall a i e, body a i <> Throw e) ->
  forall lo init e, for_loop lo len body init <> Throw e.
Proof.
  intros Hbody. induction len as [|len IH]; intros lo init e.
  - discriminate.
  - rewrite for_loop_S. destruct (body init lo) as [a| e'|] eqn:Hb; simpl.
    + apply IH.
    + exfalso. eapply Hbody, Hb.
    + discriminate.
Qed.

Lemma for_each_S {A} lo len (body : A -> nat -> A) init :
  for_each lo (S len) body init = for_each (S lo) len body (body init lo).
Proof. reflexivity. Qed.

(** Invariants of a counted loop: what holds before the turn [lo] and is
    kept by every turn holds after the last one. *)
Lemma for_each_invariant {A} (Inv : nat -> A -> Prop) (body : A -> nat -> A) len :
  forall lo init,
    Inv lo init ->
    (forall k a, (lo <= k < lo + len)%nat -> Inv k a -> Inv (S k) (body a k)) ->
    Inv (lo + len)%nat (for_each lo len body init).
Proof.
  induction len as [|len IH]; intros lo init H0 Hstep.
  - rewrite Nat.add_0_r. exact H0.
  - rewrite for_each_S. replace (lo + S len)%nat with (S lo + len)%nat by lia.
    apply IH.
    + apply Hstep; [lia | exact H0].
    + intros k a Hk. apply Hstep. lia.
Qed.

(** ** Tokens *)

Lemma split_from_spaces s :
  (forall c, In c (list_ascii_of_string s) -> is_space c = true) ->
  split_from s EmptyString = [].
Proof.
  induction s as [|c s IH]; intros Hs; simpl.
  - reflexivity.
  - rewrite (Hs c) by (simpl; auto). simpl. apply IH.
    intros c' Hc'. apply Hs. simpl. auto.
Qed.

(** A sentence of whitespace only, the empty one among them, has no
    token. *)
Lemma split_whitespace s :
  (forall c, In c (list_ascii_of_string s) -> is_space c = true) -> split s = [].
Proof. apply split_from_spaces. Qed.

(** ** similarityNgrams *)

Section QueryFacts.
Context {U : Utils}.

Lemma ngrams_step_middle m policy (pre1 pre2 words1 words2 : list string) w1 w2 acc :
  length pre1 = length pre2 ->
  ngrams_step m (pre1 ++ w1 :: words1) (pre2 ++ w2 :: words2) policy acc (length pre1)
  = Ok (acc.1 + similarity m w1 w2 policy, (acc.2 + 1)%Z).
Proof.
  intros Hpre. unfold ngrams_step, at_index.
  rewrite (list_lookup_middle pre1 words1 w1 (length pre1) eq_refl).
  rewrite (list_lookup_middle pre2 words2 w2 (length pre1) Hpre).
  reflexivity.
Qed.

Lemma ngrams_loop_suffix m policy (pre1 pre2 words1 words2 : list string) res n :
  length pre1 = length pre2 ->
  length words1 = length words2 ->
  for_loop (length pre1) (length words1)
           (ngrams_step m (pre1 ++ words1) (pre2 ++ words2) policy) (res, n)
  = Ok (pairs_sum m policy words1 words2 res, (n + Z.of_nat (length words1))%Z).
Proof.
  revert pre1 pre2 words2 res n.
  induction words1 as [|w1 words1 IH]; intros pre1 pre2 words2 res n Hpre Hlen.
  - simpl. unfold for_loop. simpl. do 2 f_equal. lia.
  - destruct words2 as [|w2 words2]; [discriminate|].
    simpl length. rewrite for_loop_S.
    rewrite ngrams_step_middle by exact Hpre.
    simpl.
    replace (pre1 ++ w1 :: words1)%list with ((pre1 ++ [w1]) ++ words1)%list
      by (rewrite <- app_assoc; reflexivity).
    replace (pre2 ++ w2 :: words2)%list with ((pre2 ++ [w2]) ++ words2)%list
      by (rewrite <- app_assoc; reflexivity).
    replace (S (length pre1)) with (length (pre1 ++ [w1])%list)
      by (rewrite length_app; simpl; lia).
    rewrite IH.
    + do 2 f_equal. lia.
    + rewrite !length_app. simpl. lia.
    + simpl in Hlen. lia.
Qed.

(** On sequences of the same length [similarityNgrams] divides the sum of
    the similarities of all the pairs, the unknown ones counting for 0, by
    the number of pairs; it throws only when there is no pair at all. *)
Lemma similarityNgrams_equal_length m seq1 seq2 policy :
  length (split seq1) = length (split seq2) ->
  similarityNgrams m seq1 seq2 policy =
    if (length (split seq1) =? 0)%nat then Throw AllOOV
    else Ok (pairs_sum m policy (split seq1) (split seq2) 0
             / inject_Z (Z.of_nat (length (split seq1)))).
Proof.
  intros Hlen. unfold similarityNgrams.
  rewrite Nat.eqb_refl. simpl negb. cbv iota.
  pose proof (ngrams_loop_suffix m policy [] [] (split seq1) (split seq2) 0 0%Z eq_refl Hlen) as H.
  simpl in H. rewrite H. simpl.
  destruct (length (split seq1)) as [|k]; simpl; reflexivity.
Qed.

Lemma ngrams_step_not_Throw m words1 words2 policy acc i e :
  ngrams_step m words1 words2 policy acc i <> Throw e.
Proof.
  unfold ngrams_step, at_index.
  destruct (words1 !! i); simpl; [|discriminate].
  destruct (words2 !! i); simpl; discriminate.
Qed.

(** No pair of inputs makes [similarityNgrams] throw for the sizes. *)
Lemma similarityNgrams_never_ShapeMismatch m seq1 seq2 policy :
  similarityNgrams m seq1 seq2 policy <> Throw ShapeMismatch.
Proof.
  unfold similarityNgrams. rewrite Nat.eqb_refl. simpl negb. cbv iota.
  destruct (for_loop _ _ _ _) as [acc| e|] eqn:Hl; simpl.
  - destruct (acc.2 =? 0)%Z; discriminate.
  - exfalso. eapply for_loop_not_Throw; [|exact Hl]. intros. apply ngrams_step_not_Throw.
  - discriminate.
Qed.

End QueryFacts.

Section QueryExamples.
#[local] Existing Instance example_utils.

(** C1.  With the vocabulary [{x, z}], [similarityNgrams] of ["x y z"] and
    ["x q z"] is 2/3: the pair [(y, q)] of unknown words is counted as a pair
    of similarity 0.  Of ["w w"] and ["u u"], no word of which is known, it
    is 0 and not the error [AllOOV]. *)
Theorem similarityNgrams_counts_unknown_pairs :
  similarityNgrams model_xz "x y z" "x q z" 0 = Ok (2 # 3)
  /\ similarityNgrams model_xz "w w" "u u" 0 = Ok (0 # 2).
Proof. split; vm_compute; reflexivity. Qed.

(** C2.  [similarityNgrams] of ["x"] and ["x y"], of one and two tokens,
    returns the similarity 1 and not the error [ShapeMismatch]; with the
    longer sequence first the loop reads the shorter one out of range. *)
Theorem similarityNgrams_accepts_unequal_lengths :
  similarityNgrams model_xz "x" "x y" 0 = Ok 1
  /\ similarityNgrams model_xz "x y" "x" 0 = Undefined.
Proof. split; vm_compute; reflexivity. Qed.

End QueryExamples.

(** ** softWER *)

Lemma nth_insert_eq {A} (l : list A) i x d :
  (i < length l)%nat -> nth i (<[i := x]> l) d = x.
Proof. intros Hi. rewrite nth_lookup, list_lookup_insert_eq by exact Hi. reflexivity. Qed.

Lemma nth_insert_ne {A} (l : list A) i j x d :
  i <> j -> nth j (<[i := x]> l) d = nth j l d.
Proof. intros Hij. rewrite !nth_lookup, list_lookup_insert_ne by exact Hij. reflexivity. Qed.

Lemma shape_repeat r c : shape r c (repeat (repeat 0 c) r).
Proof.
  split.
  - apply repeat_length.
  - intros i Hi. rewrite nth_repeat_lt by exact Hi. apply repeat_length.
Qed.

Lemma shape_mset r c d i j x : shape r c d -> shape r c (mset d i j x).
Proof.
  intros [Hr Hc]. unfold mset. split.
  - rewrite length_insert. exact Hr.
  - intros a Ha. destruct (decide (i = a)) as [->|Hne].
    + rewrite nth_insert_eq by lia. rewrite length_insert. apply Hc, Ha.
    + rewrite nth_insert_ne by exact Hne. apply Hc, Ha.
Qed.

Lemma mget_mset_eq r c d i j x :
  shape r c d -> (i < r)%nat -> (j < c)%nat -> mget (mset d i j x) i j = x.
Proof.
  intros [Hr Hc] Hi Hj. unfold mget, mset.
  rewrite nth_insert_eq by lia. apply nth_insert_eq. rewrite Hc by exact Hi. exact Hj.
Qed.

Lemma mget_mset_ne d i j x a b :
  (a <> i \/ b <> j) -> mget (mset d i j x) a b = mget d a b.
Proof.
  intros Hne. unfold mget, mset.
  destruct (decide (i = a)) as [->|Hia].
  - destruct (decide (a < length d)%nat) as [Hlt|Hge].
    + rewrite nth_insert_eq by exact Hlt. apply nth_insert_ne. intros ->. tauto.
    + rewrite list_insert_ge by lia. reflexivity.
  - rewrite nth_insert_ne by exact Hia. reflexivity.
Qed.

Lemma lev_0_l cost j : lev cost 0 j = inject_Z (Z.of_nat j).
Proof. reflexivity. Qed.

Lemma lev_0_r cost i : lev cost i 0 = inject_Z (Z.of_nat i).
Proof. destruct i; reflexivity. Qed.

Lemma lev_S_S cost i j :
  lev cost (S i) (S j)
  = min3 (lev cost i (S j) + 1) (lev cost (S i) j + 1) (lev cost i j + cost i j).
Proof. reflexivity. Qed.

Section SoftWER.
Context {U : Utils}.
Variables (m : MonolingualModel) (s1 s2 : list string) (policy : Z).

Let len1 := length s1.
Let len2 := length s2.
Let L := lev (sub_cost_of m s1 s2 policy).


Lemma softWER_cell_filled i j d :
  (1 <= i <= len1)%nat -> (1 <= j <= len2)%nat ->
  filled m s1 s2 policy i (j - 1) d ->
  filled m s1 s2 policy i j (softWER_cell m s1 s2 policy i d j).
Proof.
  intros Hi Hj [Hshape Hd]. unfold softWER_cell. split.
  - apply shape_mset, Hshape.
  - intros a b Ha Hb Hab.
    destruct (decide (a = i /\ b = j)) as [[-> ->]|Hne].
    + rewrite (mget_mset_eq (len1 + 1) (len2 + 1)) by (assumption || lia).
      rewrite !Hd by lia.
      destruct i as [|i']; [lia|]. destruct j as [|j']; [lia|].
      replace (S i' - 1)%nat with i' by lia. replace (S j' - 1)%nat with j' by lia.
      unfold L. rewrite lev_S_S. reflexivity.
    + rewrite mget_mset_ne by lia. apply Hd; lia.
Qed.

Lemma softWER_row_filled i d :
  (1 <= i <= len1)%nat ->
  filled m s1 s2 policy i 0 d ->
  filled m s1 s2 policy (S i) 0 (for_each 1 len2 (softWER_cell m s1 s2 policy i) d).
Proof.
  intros Hi Hd.
  assert (filled m s1 s2 policy i len2
            (for_each 1 len2 (softWER_cell m s1 s2 policy i) d)) as [Hs Hf].
  { pose proof (for_each_invariant (fun k d => filled m s1 s2 policy i (k - 1) d)
                  (softWER_cell m s1 s2 policy i) len2 1 d) as H.
    simpl in H. replace (len2 - 0)%nat with len2 in H by lia.
    apply H.
    - exact Hd.
    - intros k a Hk Ha. replace (k - 0)%nat with k by lia.
      apply softWER_cell_filled; [exact Hi | lia | exact Ha]. }
  split; [exact Hs|]. intros a b Ha Hb Hab. apply Hf; lia.
Qed.

Lemma softWER_init_filled :
  filled m s1 s2 policy 1 0
    (for_each 1 len2 (fun d i => mset d 0 i (inject_Z (Z.of_nat i)))
       (for_each 1 len1 (fun d i => mset d i 0 (inject_Z (Z.of_nat i)))
          (mset (repeat (repeat 0 (len2 + 1)) (len1 + 1)) 0 0 0))).
Proof.
  set (d0 := mset (repeat (repeat 0 (len2 + 1)) (len1 + 1)) 0 0 0).
  assert (shape (len1 + 1) (len2 + 1) d0 /\ mget d0 0 0 = 0) as Hd0.
  { split; [apply shape_mset, shape_repeat|].
    apply (mget_mset_eq (len1 + 1) (len2 + 1)); [apply shape_repeat | lia | lia]. }
  pose proof (for_each_invariant
    (fun k d => shape (len1 + 1) (len2 + 1) d
                /\ forall a, (a < k)%nat -> (a <= len1)%nat -> mget d a 0 = L a 0)
    (fun d i => mset d i 0 (inject_Z (Z.of_nat i))) len1 1 d0) as H1.
  simpl in H1.
  match type of H1 with ?P -> ?Q -> _ => assert P as Hinit0; [|assert Q as Hstep] end.
  { split; [exact (proj1 Hd0)|]. intros a Ha _. replace a with 0%nat by lia.
    rewrite (proj2 Hd0). reflexivity. }
  { intros k d Hk [Hs Hd]. split; [apply shape_mset, Hs|].
    intros a Ha Hle. destruct (decide (a = k)) as [->|Hne].
    - rewrite (mget_mset_eq (len1 + 1) (len2 + 1)) by (assumption || lia).
      unfold L. rewrite lev_0_r. reflexivity.
    - rewrite mget_mset_ne by lia. apply Hd; lia. }
  pose proof (H1 Hinit0 Hstep) as Hcol. clear Hstep H1 Hinit0.
  set (d1 := for_each 1 len1 _ d0) in *.
  destruct Hcol as [Hs1 Hcol].
  pose proof (for_each_invariant
    (fun k d => shape (len1 + 1) (len2 + 1) d
                /\ (forall a, (a <= len1)%nat -> mget d a 0 = L a 0)
                /\ forall b, (b < k)%nat -> (b <= len2)%nat -> mget d 0 b = L 0 b)
    (fun d i => mset d 0 i (inject_Z (Z.of_nat i))) len2 1 d1) as H2.
  simpl in H2.
  match type of H2 with ?P -> ?Q -> _ => assert P as Hinit; [|assert Q as Hstep] end.
  { split; [exact Hs1|]. split.
    - intros a Ha. apply Hcol; lia.
    - intros b Hb _. replace b with 0%nat by lia. apply Hcol; lia. }
  { intros k d Hk (Hs & Hc & Hr). split; [apply shape_mset, Hs|]. split.
    - intros a Ha. rewrite mget_mset_ne by lia. apply Hc, Ha.
    - intros b Hb Hle. destruct (decide (b = k)) as [->|Hne].
      + rewrite (mget_mset_eq (len1 + 1) (len2 + 1)) by (assumption || lia).
        reflexivity.
      + rewrite mget_mset_ne by lia. apply Hr; lia. }
  destruct (H2 Hinit Hstep) as (Hs & Hc & Hr).
  split; [exact Hs|].
  intros a b Ha Hb [Hlt|[->|[-> Hb0]]].
  - replace a with 0%nat by lia. apply Hr; lia.
  - apply Hc, Ha.
  - replace b with 0%nat by lia. apply Hc, Ha.
Qed.

(** Every cell of the table of [softWER] holds the value of the
    recurrence. *)
Lemma softWER_table_lev a b :
  (a <= len1)%nat -> (b <= len2)%nat ->
  mget (softWER_table m s1 s2 policy) a b = L a b.
Proof.
  intros Ha Hb. unfold softWER_table. fold len1 len2.
  pose proof (for_each_invariant (fun k d => filled m s1 s2 policy k 0 d)
    (fun d i => for_each 1 len2 (softWER_cell m s1 s2 policy i) d) len1 1 _
    softWER_init_filled) as H.
  simpl in H.
  destruct H as [_ H].
  - intros k d Hk Hd. apply softWER_row_filled; [lia | exact Hd].
  - apply H; lia.
Qed.

End SoftWER.

Lemma Qltb_lt x y : Qltb x y = true <-> x < y.
Proof.
  unfold Qltb. rewrite negb_true_iff. split.
  - intros H. apply Qnot_le_lt. intros Hle. apply Qle_bool_iff in Hle. congruence.
  - intros H. destruct (Qle_bool y x) eqn:E; [|reflexivity].
    apply Qle_bool_iff in E. exfalso. apply (Qlt_not_le _ _ H E).
Qed.

Lemma Qltb_ge x y : Qltb x y = false <-> y <= x.
Proof.
  unfold Qltb. rewrite negb_false_iff. apply Qle_bool_iff.
Qed.

(** [min3] returns one of its arguments, below the three of them. *)
Lemma min3_spec a b c :
  (min3 a b c = a \/ min3 a b c = b \/ min3 a b c = c)
  /\ min3 a b c <= a /\ min3 a b c <= b /\ min3 a b c <= c.
Proof.
  unfold min3.
  destruct (Qltb b a) eqn:Hba; [apply Qltb_lt in Hba | apply Qltb_ge in Hba].
  - destruct (Qltb c b) eqn:Hcb; [apply Qltb_lt in Hcb | apply Qltb_ge in Hcb];
      (split; [tauto | repeat split; lra]).
  - destruct (Qltb c a) eqn:Hca; [apply Qltb_lt in Hca | apply Qltb_ge in Hca];
      (split; [tauto | repeat split; lra]).
Qed.

Lemma min3_value v a b c :
  v <= a -> v <= b -> v <= c -> (a == v \/ b == v \/ c == v) -> min3 a b c == v.
Proof.
  intros Ha Hb Hc Hv.
  destruct (min3_spec a b c) as ([E|[E|E]] & H1 & H2 & H3); rewrite E in *;
    destruct Hv as [Hv|[Hv|Hv]]; lra.
Qed.

(** Evaluates the sizes [inject_Z (Z.of_nat n)] of a goal for closed [n]. *)
Ltac eval_sizes :=
  repeat match goal with
         | |- context [inject_Z (Z.of_nat ?n)] =>
             let v := eval compute in (inject_Z (Z.of_nat n)) in
             change (inject_Z (Z.of_nat n)) with v
         end.

(** A cell [min3 a b c == v] of the recurrence, by linear arithmetic over
    the cells before it. *)
Ltac min3_cell :=
  apply min3_value;
  [lra | lra | lra | solve [left; lra | right; left; lra | right; right; lra]].

Lemma inject_Z_of_nat_nonneg n : 0 <= inject_Z (Z.of_nat n).
Proof. change 0 with (inject_Z 0). rewrite <- Zle_Qle. lia. Qed.

(** With substitution costs that are not negative, no cell of the
    recurrence is negative. *)
Lemma lev_nonneg cost :
  (forall i j, 0 <= cost i j) -> forall i j, 0 <= lev cost i j.
Proof.
  intros Hcost. induction i as [|i IHi]; intros j.
  - rewrite lev_0_l. apply inject_Z_of_nat_nonneg.
  - induction j as [|j IHj].
    + rewrite lev_0_r. apply inject_Z_of_nat_nonneg.
    + rewrite lev_S_S.
      destruct (min3_spec (lev cost i (S j) + 1) (lev cost (S i) j + 1)
                          (lev cost i j + cost i j)) as ([E|[E|E]] & _); rewrite E.
      * specialize (IHi (S j)). lra.
      * lra.
      * specialize (IHi j). specialize (Hcost i j). lra.
Qed.

(** When moreover the cost of every token of the first [n] against itself
    is zero, the diagonal is zero. *)
Lemma lev_diagonal cost n :
  (forall i j, 0 <= cost i j) ->
  (forall i, (i < n)%nat -> cost i i == 0) ->
  forall i, (i <= n)%nat -> lev cost i i == 0.
Proof.
  intros Hcost Hdiag. induction i as [|i IH]; intros Hi.
  - rewrite lev_0_l. reflexivity.
  - rewrite lev_S_S. apply min3_value.
    + pose proof (lev_nonneg cost Hcost i (S i)). lra.
    + pose proof (lev_nonneg cost Hcost (S i) i). lra.
    + pose proof (lev_nonneg cost Hcost i i). specialize (Hcost i i). lra.
    + right. right. rewrite IH by lia. rewrite Hdiag by lia. reflexivity.
Qed.

Section SoftWERFacts.
Context {U : Utils}.
Hypothesis cosine_le_1 : forall u v, cosineSimilarity u v <= 1.

Lemma similarity_le_1 m word1 word2 policy : similarity m word1 word2 policy <= 1.
Proof.
  unfold similarity.
  destruct (vocabulary m !! word1); [|lra].
  destruct (vocabulary m !! word2); [|lra].
  destruct (index h =? index h0)%Z; [lra | apply cosine_le_1].
Qed.

Lemma distance_nonneg m word1 word2 policy : 0 <= distance m word1 word2 policy.
Proof.
  unfold distance. pose proof (similarity_le_1 m word1 word2 policy).
  apply Qle_shift_div_l; lra.
Qed.

Lemma distance_same m w policy :
  is_Some (vocabulary m !! w) -> distance m w w policy == 0.
Proof.
  intros [n Hn]. unfold distance, similarity. rewrite Hn, Z.eqb_refl. reflexivity.
Qed.

(** C6.  [softWER] is [softWER_spec]: the recurrence [lev] of the edit
    distance with [lev 0 0 = 0], [lev i 0 = i], [lev 0 j = j], insertions and
    deletions of cost 1 and substitutions of cost [distance], on the whole
    sequences, divided by the number of tokens of the reference.  With a
    cosine that is at most 1, [softWER] of a sentence of at least one token,
    all known, against itself is 0, and of ["a b"] against ["a b c"], all
    known, is 1/3. *)
Theorem softWER_is_soft_edit_distance (m : MonolingualModel) (policy : Z) :
  (forall hyp ref, softWER m hyp ref policy = softWER_spec m hyp ref policy)
  /\ (forall hyp,
         split hyp <> [] ->
         (forall w, In w (split hyp) -> is_Some (vocabulary m !! w)) ->
         exists q, softWER m hyp hyp policy = Ok q /\ q == 0)
  /\ (is_Some (vocabulary m !! "a") -> is_Some (vocabulary m !! "b") ->
      is_Some (vocabulary m !! "c") ->
      exists q, softWER m "a b" "a b c" policy = Ok q /\ q == 1 # 3).
Proof.
  assert (forall hyp ref, softWER m hyp ref policy = softWER_spec m hyp ref policy)
    as Hrefine.
  { intros hyp ref. unfold softWER, softWER_spec.
    rewrite softWER_table_lev by lia. reflexivity. }
  split; [exact Hrefine|]. split.
  - intros hyp Hne Hvoc. rewrite Hrefine. unfold softWER_spec, div_size.
    destruct (length (split hyp)) as [|n] eqn:Hlen.
    { destruct (split hyp); [congruence | discriminate]. }
    simpl Nat.eqb. cbv iota. eexists. split; [reflexivity|].
    rewrite (lev_diagonal _ (S n)).
    + reflexivity.
    + intros i j. apply distance_nonneg.
    + intros i Hi. unfold sub_cost_of. apply distance_same, Hvoc, nth_In. lia.
    + lia.
  - intros Ha Hb Hc. rewrite Hrefine. unfold softWER_spec.
    change (split "a b") with ["a"; "b"]. change (split "a b c") with ["a"; "b"; "c"].
    set (cost := sub_cost_of m ["a"; "b"] ["a"; "b"; "c"] policy).
    assert (Hcost : forall i j, 0 <= cost i j) by (intros; apply distance_nonneg).
    assert (H00 : cost 0%nat 0%nat == 0) by (apply distance_same, Ha).
    assert (H11 : cost 1%nat 1%nat == 0) by (apply distance_same, Hb).
    assert (L11 : lev cost 1 1 == 0).
    { rewrite lev_S_S, !lev_0_l, !lev_0_r. eval_sizes.
      min3_cell. }
    assert (L12 : lev cost 1 2 == 1).
    { rewrite lev_S_S, !lev_0_l. eval_sizes.
      pose proof (Hcost 0%nat 1%nat).
      min3_cell. }
    assert (L13 : lev cost 1 3 == 2).
    { rewrite lev_S_S, !lev_0_l. eval_sizes.
      pose proof (Hcost 0%nat 2%nat).
      min3_cell. }
    assert (L21 : lev cost 2 1 == 1).
    { rewrite lev_S_S, !lev_0_r. eval_sizes.
      pose proof (Hcost 1%nat 0%nat).
      min3_cell. }
    assert (L22 : lev cost 2 2 == 0).
    { rewrite lev_S_S. min3_cell. }
    assert (L23 : lev cost 2 3 == 1).
    { rewrite lev_S_S. pose proof (Hcost 1%nat 2%nat).
      min3_cell. }
    simpl length. unfold div_size. simpl Nat.eqb. cbv iota.
    eexists. split; [reflexivity|]. rewrite L23. reflexivity.
Qed.

End SoftWERFacts.

(** C10.  For a reference without token, empty or of whitespace only, the
    cell [d[|h|][0]] that [softWER] returns divided by the number of tokens
    of the reference is [|h|], that number is 0, and nothing guards the
    division: the call has no value. *)
Theorem softWER_empty_reference {U : Utils} (m : MonolingualModel) (hyp ref : string)
    (policy : Z) :
  (forall c, In c (list_ascii_of_string ref) -> is_space c = true) ->
  mget (softWER_table m (split hyp) (split ref) policy)
       (length (split hyp)) (length (split ref))
  = inject_Z (Z.of_nat (length (split hyp)))
  /\ length (split ref) = 0%nat
  /\ softWER m hyp ref policy = Undefined.
Proof.
  intros Href. pose proof (split_whitespace ref Href) as Hsplit.
  split; [|split].
  - rewrite softWER_table_lev by lia. rewrite Hsplit. simpl length. apply lev_0_r.
  - rewrite Hsplit. reflexivity.
  - unfold softWER. rewrite Hsplit. reflexivity.
Qed.

(** ** wordVec *)

Lemma map_nth_seq {A} (l : list A) (d : A) :
  List.map (fun c => nth c l d) (seq 0 (length l)) = l.
Proof.
  induction l as [|x l IH]; simpl; [reflexivity|].
  f_equal. rewrite <- seq_shift, List.map_map. exact IH.
Qed.

Lemma map_nth_seq_length {A} (l : list A) (d : A) n :
  length l = n -> List.map (fun c => nth c l d) (seq 0 n) = l.
Proof. intros <-. apply map_nth_seq. Qed.

Section WordVec.
Context {U : Utils}.

(** C3 (amended).  For a word of the vocabulary and a policy among 1, 2 and
    3, [wordVec] does not fail.  Without negative sampling ([negative] not
    above 0) it returns the input weights of the word, as the policy 0
    does; with [negative > 0] the policy 1 returns the input weights
    followed by the output weights, a vector of length [2 * dimension], the
    policy 2 their element-wise sum and the policy 3 the output weights. *)
Theorem wordVec_policies (m : MonolingualModel) (w : string) (node : HuffmanNode)
    (policy : Z) :
  vocabulary m !! w = Some node ->
  (policy = 1 \/ policy = 2 \/ policy = 3)%Z ->
  length (row (input_weights m) (index node)) = Z.to_nat (dimension (config m)) ->
  length (row (output_weights m) (index node)) = Z.to_nat (dimension (config m)) ->
  ((negative (config m) <= 0)%Z ->
     wordVec m w policy = Ok (row (input_weights m) (index node)))
  /\ ((0 < negative (config m))%Z ->
        (policy = 1%Z ->
           wordVec m w policy
           = Ok (row (input_weights m) (index node) ++ row (output_weights m) (index node))%list
           /\ length (row (input_weights m) (index node)
                      ++ row (output_weights m) (index node))%list
              = (2 * Z.to_nat (dimension (config m)))%nat)
        /\ (policy = 2%Z ->
              wordVec m w policy
              = Ok (vadd (row (input_weights m) (index node))
                         (row (output_weights m) (index node))))
        /\ (policy = 3%Z ->
              wordVec m w policy = Ok (row (output_weights m) (index node)))).
Proof.
  intros Hw Hp Hin Hout. unfold wordVec, wordVec_index. rewrite Hw. split.
  - intros Hneg. replace (0 <? negative (config m))%Z with false by (symmetry; lia).
    rewrite !andb_false_r. reflexivity.
  - intros Hneg. replace (0 <? negative (config m))%Z with true by (symmetry; lia).
    rewrite !andb_true_r. split; [|split].
    + intros ->. split; [|rewrite length_app; lia].
      simpl. rewrite (map_nth_seq_length _ _ _ Hin), (map_nth_seq_length _ _ _ Hout).
      reflexivity.
    + intros ->. reflexivity.
    + intros ->. reflexivity.
Qed.

End WordVec.

(** ** Sorting *)

Section Sorting.
Context {A : Type} (lt : A -> A -> bool).

Lemma insert_by_perm x l : insert_by lt x l ≡ₚ x :: l.
Proof.
  induction l as [|y l IH]; simpl; [reflexivity|].
  destruct (lt y x); [|reflexivity].
  rewrite IH. apply Permutation_swap.
Qed.

Lemma sort_by_perm l : sort_by lt l ≡ₚ l.
Proof.
  unfold sort_by. induction l as [|x l IH]; simpl; [reflexivity|].
  rewrite insert_by_perm. constructor. exact IH.
Qed.

Lemma sort_by_length l : length (sort_by lt l) = length l.
Proof. apply Permutation_length, sort_by_perm. Qed.

(** [ge x y]: [x] may stand before [y]. *)
Variable ge : A -> A -> Prop.
Hypothesis ge_trans : forall x y z, ge x y -> ge y z -> ge x z.
Hypothesis lt_true : forall x y, lt x y = true -> ge x y.
Hypothesis lt_false : forall x y, lt x y = false -> ge y x.

Lemma insert_by_sorted x l :
  StronglySorted ge l -> StronglySorted ge (insert_by lt x l).
Proof.
  induction l as [|y l IH]; intros Hs; simpl.
  - repeat constructor.
  - apply StronglySorted_inv in Hs as [Hs Hy].
    destruct (lt y x) eqn:E.
    + constructor; [apply IH, Hs|].
      apply (Permutation_Forall (Permutation_sym (insert_by_perm x l))).
      constructor; [apply lt_true, E | exact Hy].
    + constructor; [constructor; assumption|].
      constructor; [apply lt_false, E|].
      eapply Forall_impl; [exact Hy|]. intros z Hz. simpl in Hz.
      eapply ge_trans; [apply lt_false, E | exact Hz].
Qed.

Lemma sort_by_sorted l : StronglySorted ge (sort_by lt l).
Proof.
  unfold sort_by. induction l as [|x l IH]; simpl; [constructor|].
  apply insert_by_sorted, IH.
Qed.

End Sorting.

Lemma In_take {A} (x : A) n l : In x (take n l) -> In x l.
Proof. rewrite <- !list_elem_of_In. apply subseteq_take. Qed.

Lemma StronglySorted_take {A} (R : A -> A -> Prop) n l :
  StronglySorted R l -> StronglySorted R (take n l).
Proof.
  revert n. induction l as [|x l IH]; intros [|n] Hs; simpl; try constructor.
  - apply StronglySorted_inv in Hs as [Hs _]. apply IH, Hs.
  - apply StronglySorted_inv in Hs as [_ Hx].
    apply Forall_forall. intros y Hy. rewrite Forall_forall in Hx. apply Hx.
    eapply subseteq_take, Hy.
Qed.

(** ** closest *)

Section Closest.
Context {U : Utils}.

Lemma closest_candidates_filter m idx v1 policy :
  closest_candidates m idx v1 policy
  = List.map (fun it => (word it.2, cosineSimilarity v1 (wordVec_index m (index it.2) policy)))
             (List.filter (fun it => negb (index it.2 =? idx)%Z) (map_to_list (vocabulary m))).
Proof.
  unfold closest_candidates.
  enough (forall l acc,
    foldl (fun res (it : string * HuffmanNode) =>
             if negb (index it.2 =? idx)%Z
             then (res ++ [(word it.2,
                            cosineSimilarity v1 (wordVec_index m (index it.2) policy))])%list
             else res) acc l
    = (acc ++ List.map (fun it => (word it.2,
                          cosineSimilarity v1 (wordVec_index m (index it.2) policy)))
                       (List.filter (fun it => negb (index it.2 =? idx)%Z) l))%list) as H
    by apply (H _ []).
  induction l as [|it l IH]; intros acc; simpl.
  - rewrite app_nil_r. reflexivity.
  - destruct (negb (index it.2 =? idx)%Z); simpl.
    + rewrite IH, <- app_assoc. reflexivity.
    + apply IH.
Qed.

Lemma filter_length_perm {A} (f : A -> bool) (l l' : list A) :
  l ≡ₚ l' -> length (List.filter f l) = length (List.filter f l').
Proof.
  induction 1 as [|x l l' _ IH|x y l|l l' l'' _ IH1 _ IH2]; simpl.
  - reflexivity.
  - destruct (f x); simpl; congruence.
  - destruct (f x), (f y); reflexivity.
  - congruence.
Qed.

Lemma filter_all {A} (f : A -> bool) (l : list A) :
  (forall x, In x l -> f x = true) -> List.filter f l = l.
Proof.
  induction l as [|x l IH]; intros H; simpl; [reflexivity|].
  rewrite (H x) by (left; reflexivity). f_equal. apply IH.
  intros y Hy. apply H. right. exact Hy.
Qed.

(** The candidates of a word are the other entries of the vocabulary: one
    less than its size. *)
Lemma closest_candidates_length m w node v1 policy :
  vocabulary_indices (vocabulary m) ->
  vocabulary m !! w = Some node ->
  length (closest_candidates m (index node) v1 policy) = pred (size (vocabulary m)).
Proof.
  intros Hidx Hw. rewrite closest_candidates_filter, length_map.
  rewrite <- (filter_length_perm _ _ _ (map_to_list_delete (vocabulary m) w node Hw)).
  simpl. rewrite Z.eqb_refl. simpl.
  rewrite filter_all.
  - rewrite length_map_to_list. apply map_size_delete_Some. eauto.
  - intros [k n] Hin. apply list_elem_of_In, elem_of_map_to_list in Hin.
    apply lookup_delete_Some in Hin as [Hne Hk]. simpl.
    apply negb_true_iff, Z.eqb_neq. intros Heq.
    apply Hne. symmetry. eapply Hidx; eassumption.
Qed.

(** Beyond the number of candidates [closest] has no value. *)
Lemma closest_beyond_candidates m w node n policy :
  vocabulary m !! w = Some node ->
  (Z.of_nat (length (closest_candidates m (index node)
                       (wordVec_index m (index node) policy) policy)) < n)%Z ->
  closest m w n policy = Undefined.
Proof.
  intros Hw Hn. unfold closest, partial_sort. rewrite Hw.
  replace (Z.of_nat _ <? n)%Z with true by (symmetry; lia).
  rewrite orb_true_r. reflexivity.
Qed.

(** Up to the number of candidates, [closest] returns [n] of them, sorted
    by similarity descending, none of them the word itself. *)
Lemma closest_within_candidates m w node n policy :
  vocabulary_wf (vocabulary m) ->
  vocabulary m !! w = Some node ->
  (0 <= n <= Z.of_nat (length (closest_candidates m (index node)
                                 (wordVec_index m (index node) policy) policy)))%Z ->
  exists res,
    closest m w n policy = Ok res
    /\ length res = Z.to_nat n
    /\ StronglySorted by_similarity res
    /\ forall p, In p res -> p.1 <> w.
Proof.
  intros Hwf Hw Hn. unfold closest, partial_sort. rewrite Hw.
  set (v1 := wordVec_index m (index node) policy) in *.
  set (cands := closest_candidates m (index node) v1 policy) in *.
  replace (n <? 0)%Z with false by (symmetry; lia).
  replace (Z.of_nat (length cands) <? n)%Z with false by (symmetry; lia).
  simpl.
  assert (Hsorted : StronglySorted by_similarity (sort_by comp cands)).
  { apply sort_by_sorted.
    - unfold by_similarity. intros x y z Hxy Hyz. lra.
    - unfold comp, by_similarity. intros x y H. apply Qltb_lt in H. lra.
    - unfold comp, by_similarity. intros x y H. apply Qltb_ge in H. lra. }
  assert (Hwords : forall p, In p (sort_by comp cands) -> p.1 <> w).
  { intros p Hp.
    apply (Permutation_in _ (sort_by_perm comp cands)) in Hp.
    unfold cands in Hp. rewrite closest_candidates_filter in Hp.
    apply in_map_iff in Hp as ([k nd] & <- & Hin).
    apply filter_In in Hin as [Hin Hidx]. simpl in *.
    apply list_elem_of_In, elem_of_map_to_list in Hin.
    destruct (Hwf k nd Hin) as [_ Hk]. intros Heq.
    rewrite Hk in Heq. rewrite Heq, Hw in Hin. injection Hin as <-.
    rewrite Z.eqb_refl in Hidx. discriminate. }
  eexists. split; [reflexivity|].
  destruct (n <? Z.of_nat (length (sort_by comp cands)))%Z eqn:E.
  - split; [|split].
    + rewrite length_take, sort_by_length. lia.
    + apply StronglySorted_take, Hsorted.
    + intros p Hp. eapply Hwords, In_take, Hp.
  - rewrite sort_by_length in E. split; [|split]; [|exact Hsorted|exact Hwords].
    rewrite sort_by_length. lia.
Qed.

End Closest.

Section ClosestExamples.
#[local] Existing Instance example_utils.

(** C5.  With the vocabulary [{x, z}], [closest] of ["x"] for [n = 10] has
    no value: the only candidate is ["z"], and [partial_sort] is called with
    a middle that lies 9 places behind the end of the candidates.  For
    [n = 1] the result is ["z"]. *)
Theorem closest_beyond_vocabulary :
  closest model_xz "x" 10 0 = Undefined
  /\ closest model_xz "x" 1 0 = Ok [("z", - (1))].
Proof. split; vm_compute; reflexivity. Qed.

End ClosestExamples.

(** ** Vocabulary *)

Lemma addWordToVocab_wf vocab w :
  vocabulary_wf vocab -> vocabulary_wf (addWordToVocab vocab w).
Proof.
  intros Hwf k n. unfold addWordToVocab.
  destruct (vocab !! w) as [node|] eqn:Hw; intros H.
  - apply lookup_insert_Some in H as [[<- <-]|[_ H]]; [|apply Hwf, H].
    destruct (Hwf w node Hw) as [Hleaf Hword]. destruct node; [|discriminate].
    split; [reflexivity | exact Hword].
  - apply lookup_insert_Some in H as [[<- <-]|[_ H]]; [|apply Hwf, H].
    split; reflexivity.
Qed.

Lemma reduceVocab_entries_In min_count entries :
  forall i k n,
    In (k, n) (reduceVocab_entries min_count i entries) ->
    exists n0 j, In (k, n0) entries /\ n = with_index n0 j /\ (i <= j)%Z
                 /\ (j < i + Z.of_nat (length (reduceVocab_entries min_count i entries)))%Z.
Proof.
  induction entries as [|it entries IH]; intros i k n Hin; simpl in *; [contradiction|].
  destruct (count it.2 <? min_count)%Z.
  - destruct (IH i k n Hin) as (n0 & j & H0 & Hn & Hj). eauto 6.
  - destruct Hin as [[= <- <-]|Hin].
    + exists it.2, i. destruct it. simpl. repeat split; auto; lia.
    + destruct (IH (i + 1)%Z k n Hin) as (n0 & j & H0 & Hn & Hj1 & Hj2).
      exists n0, j. simpl. repeat split; auto; lia.
Qed.

Lemma reduceVocab_entries_keys min_count entries :
  forall i, NoDup entries.*1 -> NoDup (reduceVocab_entries min_count i entries).*1.
Proof.
  induction entries as [|it entries IH]; intros i Hnd; simpl in *; [constructor|].
  apply NoDup_cons in Hnd as [Hit Hnd].
  destruct (count it.2 <? min_count)%Z; [apply IH, Hnd|].
  simpl. apply NoDup_cons. split; [|apply IH, Hnd].
  intros Hin. apply Hit. apply list_elem_of_fmap in Hin as ([k n] & Hk & Hin).
  apply list_elem_of_In, reduceVocab_entries_In in Hin as (n0 & j & H0 & _).
  simpl in Hk. subst k. apply list_elem_of_fmap. exists (it.1, n0).
  split; [reflexivity | apply list_elem_of_In, H0].
Qed.

(** The indices that the loop of [reduceVocab] gives are all different. *)
Lemma reduceVocab_entries_indices min_count entries :
  forall i k1 k2 n1 n2,
    NoDup entries.*1 ->
    In (k1, n1) (reduceVocab_entries min_count i entries) ->
    In (k2, n2) (reduceVocab_entries min_count i entries) ->
    index n1 = index n2 -> k1 = k2.
Proof.
  induction entries as [|it entries IH]; intros i k1 k2 n1 n2 Hnd H1 H2 Hidx;
    simpl in *; [contradiction|].
  apply NoDup_cons in Hnd as [Hit Hnd].
  destruct (count it.2 <? min_count)%Z; [eapply IH; eassumption|].
  assert (forall k n, In (k, n) (reduceVocab_entries min_count (i + 1)%Z entries) ->
                      index n <> i) as Hlater.
  { intros k n Hin Heq.
    apply reduceVocab_entries_In in Hin as (n0 & j' & _ & -> & Hj & _).
    destruct n0; simpl in Heq; lia. }
  destruct H1 as [[= <- <-]|H1], H2 as [[= <- <-]|H2].
  - reflexivity.
  - exfalso. apply (Hlater k2 n2 H2). rewrite <- Hidx. destruct (it.2); reflexivity.
  - exfalso. apply (Hlater k1 n1 H1). rewrite Hidx. destruct (it.2); reflexivity.
  - eapply IH; eassumption.
Qed.

(** [reduceVocab] keeps the entries leaves under their words and makes their
    indices different. *)
Lemma reduceVocab_wf min_count vocab :
  vocabulary_wf vocab ->
  vocabulary_wf (reduceVocab min_count vocab)
  /\ vocabulary_indices (reduceVocab min_count vocab).
Proof.
  intros Hwf. unfold reduceVocab.
  pose proof (reduceVocab_entries_keys min_count (map_to_list vocab) 0%Z
                (NoDup_fst_map_to_list vocab)) as Hnd.
  split.
  - intros k n H. apply elem_of_list_to_map in H; [|exact Hnd].
    apply list_elem_of_In, reduceVocab_entries_In in H as (n0 & j & H0 & -> & _).
    apply list_elem_of_In, elem_of_map_to_list in H0.
    destruct (Hwf k n0 H0) as [Hleaf Hword]. destruct n0; [|discriminate].
    split; [reflexivity | exact Hword].
  - intros k1 k2 n1 n2 H1 H2 Hidx.
    apply elem_of_list_to_map in H1; [|exact Hnd].
    apply elem_of_list_to_map in H2; [|exact Hnd].
    apply list_elem_of_In in H1, H2.
    eapply reduceVocab_entries_indices; [apply NoDup_fst_map_to_list | | | ]; eassumption.
Qed.

(** The vocabulary that [readVocab] builds from the words of a file. *)
Lemma readVocab_words_wf min_count words :
  vocabulary_wf (readVocab_words min_count words)
  /\ vocabulary_indices (readVocab_words min_count words).
Proof.
  apply reduceVocab_wf.
  assert (forall vocab, vocabulary_wf vocab -> vocabulary_wf (fold_left addWordToVocab words vocab))
    as H.
  { induction words as [|w words IH]; intros vocab Hwf; simpl; [exact Hwf|].
    apply IH, addWordToVocab_wf, Hwf. }
  apply H. intros k n Hkn. rewrite lookup_empty in Hkn. discriminate.
Qed.

(** ** Huffman tree and codes *)

Lemma pop_back_Some {A} (v v' : list A) x : pop_back v = Some (x, v') -> v = (v' ++ [x])%list.
Proof.
  unfold pop_back. destruct (rev v) as [|y r] eqn:E; [discriminate|].
  intros [= <- <-]. rewrite <- (rev_involutive v), E. reflexivity.
Qed.

Lemma pop_back_None {A} (v : list A) : pop_back v = None -> v = [].
Proof.
  unfold pop_back. destruct (rev v) as [|y r] eqn:E; [|discriminate].
  intros _. rewrite <- (rev_involutive v), E. reflexivity.
Qed.

Lemma forest_leaves_app h1 h2 :
  forest_leaves (h1 ++ h2) = (forest_leaves h1 ++ forest_leaves h2)%list.
Proof. unfold forest_leaves. rewrite List.map_app, concat_app. reflexivity. Qed.

Lemma forest_leaves_perm h1 h2 : h1 ≡ₚ h2 -> forest_leaves h1 ≡ₚ forest_leaves h2.
Proof.
  unfold forest_leaves. induction 1; simpl.
  - reflexivity.
  - apply Permutation_app_head. assumption.
  - rewrite !app_assoc. apply Permutation_app_tail, Permutation_app_comm.
  - etransitivity; eassumption.
Qed.

(** The loop of [createBinaryTree] keeps the leaves of the heap. *)
Lemma createBinaryTree_loop_leaves fuel :
  forall i heap, forest_leaves (createBinaryTree_loop fuel i heap) ≡ₚ forest_leaves heap.
Proof.
  induction fuel as [|fuel IH]; intros i heap; simpl; [reflexivity|].
  destruct (1 <? length heap)%nat; [|reflexivity].
  destruct (pop_back heap) as [[left_node heap1]|] eqn:E1; [|reflexivity].
  destruct (pop_back heap1) as [[right_node heap2]|] eqn:E2; [|reflexivity].
  apply pop_back_Some in E1, E2. subst heap heap1.
  rewrite IH, (forest_leaves_perm _ _ (insert_by_perm _ _ _)).
  rewrite !forest_leaves_app. unfold forest_leaves. simpl. rewrite !app_nil_r.
  rewrite (Permutation_app_comm (leaves left_node) (leaves right_node)).
  rewrite <- (app_assoc (concat _)). apply Permutation_app_comm.
Qed.

(** With one turn of fuel for every node of the heap, the loop ends on a
    heap of one node. *)
Lemma createBinaryTree_loop_length fuel :
  forall i heap,
    (1 <= length heap <= S fuel)%nat ->
    length (createBinaryTree_loop fuel i heap) = 1%nat.
Proof.
  induction fuel as [|fuel IH]; intros i heap Hlen; simpl; [lia|].
  destruct (1 <? length heap)%nat eqn:E; [|apply Nat.ltb_ge in E; lia].
  apply Nat.ltb_lt in E.
  destruct (pop_back heap) as [[left_node heap1]|] eqn:E1.
  - apply pop_back_Some in E1. subst heap. rewrite length_app in *. simpl in *.
    destruct (pop_back heap1) as [[right_node heap2]|] eqn:E2.
    + apply pop_back_Some in E2. subst heap1. rewrite length_app in *. simpl in *.
      apply IH. rewrite (Permutation_length (insert_by_perm _ _ _)). simpl. lia.
    + apply pop_back_None in E2. subst heap1. simpl in *. lia.
  - apply pop_back_None in E1. subst heap. simpl in *. lia.
Qed.

Lemma leaves_of_vocabulary (vocab : gmap string HuffmanNode) :
  vocabulary_wf vocab ->
  forest_leaves (map_to_list vocab).*2 = (map_to_list vocab).*1.
Proof.
  intros Hwf.
  assert (forall it, In it (map_to_list vocab) -> leaves it.2 = [it.1]) as H.
  { intros [k n] Hin. apply list_elem_of_In, elem_of_map_to_list in Hin.
    destruct (Hwf k n Hin) as [Hleaf Hword]. simpl.
    destruct n; [simpl in *; congruence | discriminate]. }
  unfold forest_leaves. induction (map_to_list vocab) as [|it l IH]; simpl; [reflexivity|].
  rewrite H by (left; reflexivity). simpl. f_equal. apply IH.
  intros it' Hin. apply H. right. exact Hin.
Qed.

(** On a vocabulary that is not empty [createBinaryTree] ends with one tree
    on the heap; its leaves are the words of the vocabulary, each once. *)
Lemma createBinaryTree_heap_root (vocab : gmap string HuffmanNode) :
  vocabulary_wf vocab -> vocab <> ∅ ->
  exists root,
    createBinaryTree_heap vocab = [root]
    /\ NoDup (leaves root)
    /\ forall w, In w (leaves root) <-> is_Some (vocab !! w).
Proof.
  intros Hwf Hne. unfold createBinaryTree_heap.
  set (heap := sort_by HuffmanNode_comp (map_to_list vocab).*2).
  assert (Hlen : (1 <= length heap)%nat).
  { unfold heap. rewrite sort_by_length, length_fmap.
    destruct (map_to_list vocab) eqn:E; simpl; [|lia].
    apply map_to_list_empty_iff in E. contradiction. }
  pose proof (createBinaryTree_loop_length (length heap) 0%Z heap ltac:(lia)) as H1.
  pose proof (createBinaryTree_loop_leaves (length heap) 0%Z heap) as Hperm.
  destruct (createBinaryTree_loop (length heap) 0%Z heap) as [|root [|]]; try discriminate.
  exists root. split; [reflexivity|].
  assert (leaves root ≡ₚ (map_to_list vocab).*1) as Hl.
  { unfold forest_leaves in Hperm at 1. simpl in Hperm. rewrite app_nil_r in Hperm.
    rewrite Hperm. unfold heap.
    rewrite (forest_leaves_perm _ _ (sort_by_perm _ _)).
    rewrite leaves_of_vocabulary by exact Hwf. reflexivity. }
  split.
  - rewrite Hl. apply NoDup_fst_map_to_list.
  - intros w. rewrite <- list_elem_of_In, Hl, list_elem_of_fmap. split.
    + intros ([k n] & -> & Hkn). apply elem_of_map_to_list in Hkn. eauto.
    + intros [n Hn]. exists (w, n). split; [reflexivity|].
      apply elem_of_map_to_list, Hn.
Qed.

Lemma assignCodes_other t :
  forall c p (vocab : gmap string HuffmanNode) w,
    ~ In w (leaves t) -> assignCodes t c p vocab !! w = vocab !! w.
Proof.
  induction t as [i w0 cnt c0 p0 | i cnt l IHl r IHr]; intros c p vocab w Hw; simpl in *.
  - apply lookup_insert_ne. tauto.
  - rewrite in_app_iff in Hw. rewrite IHr, IHl by tauto. reflexivity.
Qed.

(** [assignCodes] from the code [c] and the parents [p] gives every leaf of
    [t] the code [c ++ bits] and the parents [p ++ idxs], where [bits] leads
    from [t] to the leaf through the internal nodes [idxs]. *)
Lemma assignCodes_leaf t :
  forall c p (vocab : gmap string HuffmanNode) w,
    NoDup (leaves t) -> In w (leaves t) ->
    exists n bits idxs leaf,
      assignCodes t c p vocab !! w = Some n
      /\ code n = (c ++ bits)%list /\ parents n = (p ++ idxs)%list
      /\ length bits = length idxs
      /\ walk t bits = Some (idxs, leaf)
      /\ is_leaf leaf = true /\ word leaf = w.
Proof.
  induction t as [i w0 cnt c0 p0 | i cnt l IHl r IHr]; intros c p vocab w Hnd Hw; simpl in *.
  - destruct Hw as [<-|[]].
    exists (LeafNode i w0 cnt c p), [], [], (LeafNode i w0 cnt c0 p0).
    rewrite lookup_insert_eq, !app_nil_r. simpl. repeat split; reflexivity.
  - apply NoDup_app in Hnd as (Hl & Hlr & Hr).
    destruct (decide (w ∈ leaves r)) as [Hin|Hnin].
    + destruct (IHr (c ++ [1%Z])%list (p ++ [i])%list
                    (assignCodes l (c ++ [0%Z])%list (p ++ [i])%list vocab) w Hr)
        as (n & bits & idxs & leaf & Hn & Hc & Hp & Hlen & Hwalk & Hleaf & Hword).
      { apply list_elem_of_In, Hin. }
      exists n, (1%Z :: bits), (i :: idxs), leaf.
      rewrite Hn, Hc, Hp, <- !app_assoc. simpl. rewrite Hwalk, Hlen. simpl.
      repeat split; assumption || reflexivity.
    + rewrite assignCodes_other by (rewrite <- list_elem_of_In; exact Hnin).
      apply in_app_iff in Hw as [Hw|Hw]; [|apply list_elem_of_In in Hw; contradiction].
      destruct (IHl (c ++ [0%Z])%list (p ++ [i])%list vocab w Hl Hw)
        as (n & bits & idxs & leaf & Hn & Hc & Hp & Hlen & Hwalk & Hleaf & Hword).
      exists n, (0%Z :: bits), (i :: idxs), leaf.
      rewrite Hn, Hc, Hp, <- !app_assoc. simpl. rewrite Hwalk, Hlen. simpl.
      repeat split; assumption || reflexivity.
Qed.

(** C8.  On a vocabulary that is not empty, [createBinaryTree] builds one
    tree, whose leaves are the words of the vocabulary, and gives every
    entry [n] of the vocabulary a code and a list of parents of the same
    length, such that the descent from the root along the code, left on 0
    and right on 1, passes the internal nodes [parents n] in order and ends
    on the leaf of the word of the entry. *)
Theorem createBinaryTree_codes_follow_paths (m : MonolingualModel) :
  vocabulary_wf (vocabulary m) ->
  vocabulary m <> ∅ ->
  exists root m',
    createBinaryTree_heap (vocabulary m) = [root]
    /\ createBinaryTree m = Ok m'
    /\ (forall w, is_Some (vocabulary m' !! w) <-> is_Some (vocabulary m !! w))
    /\ forall w n,
         vocabulary m' !! w = Some n ->
         length (code n) = length (parents n)
         /\ exists leaf,
              walk root (code n) = Some (parents n, leaf)
              /\ is_leaf leaf = true /\ word leaf = w.
Proof.
  intros Hwf Hne.
  destruct (createBinaryTree_heap_root (vocabulary m) Hwf Hne) as (root & Hroot & Hnd & Hin).
  exists root. unfold createBinaryTree. rewrite Hroot.
  eexists. split; [reflexivity|]. split; [reflexivity|]. simpl. split.
  { intros w. destruct (decide (w ∈ leaves root)) as [H|H].
    - apply list_elem_of_In in H.
      destruct (assignCodes_leaf root [] [] (vocabulary m) w Hnd H) as (n & _ & _ & _ & Hn & _).
      rewrite Hn. split; [intros _; apply Hin, H | eauto].
    - rewrite assignCodes_other by (rewrite <- list_elem_of_In; exact H). reflexivity. }
  intros w n Hn.
  assert (In w (leaves root)) as Hw.
  { destruct (decide (w ∈ leaves root)) as [H|H]; [apply list_elem_of_In, H|].
    rewrite assignCodes_other in Hn by (rewrite <- list_elem_of_In; exact H).
    apply Hin. eauto. }
  destruct (assignCodes_leaf root [] [] (vocabulary m) w Hnd Hw)
    as (n' & bits & idxs & leaf & Hn' & Hc & Hp & Hlen & Hwalk & Hleaf & Hword).
  rewrite Hn in Hn'. injection Hn' as <-. simpl in Hc, Hp. subst bits idxs.
  split; [exact Hlen|]. exists leaf. repeat split; assumption.
Qed.

(** ** Dictionary induction *)

Lemma fold_left_app_concat {A} (ls : list (list A)) (acc : list A) :
  fold_left (fun d l => (d ++ l)%list) ls acc = (acc ++ concat ls)%list.
Proof.
  revert acc. induction ls as [|l ls IH]; intros acc; simpl.
  - rewrite app_nil_r. reflexivity.
  - rewrite IH, app_assoc. reflexivity.
Qed.

(** The slices before the last one of [n] threads are a prefix of the
    words. *)
Lemma thread_split_prefix {A} (l : list A) size k :
  concat (List.map (fun i => take size (drop (i * size) l)) (seq 0 k)) = take (k * size) l.
Proof.
  induction k as [|k IH].
  - reflexivity.
  - rewrite seq_S, List.map_app, concat_app, IH. simpl. rewrite app_nil_r.
    rewrite take_take_drop. f_equal. lia.
Qed.

(** The slices of the threads, in order, make up the words. *)
Lemma thread_split_concat {A} (l : list A) n :
  (1 <= n)%nat -> concat (List.map (thread_split l n) (seq 0 n)) = l.
Proof.
  intros Hn. destruct n as [|k]; [lia|]. clear Hn.
  rewrite seq_S, List.map_app, concat_app. simpl. rewrite app_nil_r.
  rewrite (List.map_ext_in _ (fun i => take (length l / S k) (drop (i * (length l / S k)) l))).
  - rewrite thread_split_prefix.
    assert (thread_split l (S k) k = drop (k * (length l / S k)) l) as ->.
    { unfold thread_split. replace (S k - 1)%nat with k by lia. rewrite Nat.eqb_refl.
      apply take_ge. rewrite length_drop. lia. }
    apply take_drop.
  - intros i Hi. apply in_seq in Hi. unfold thread_split.
    replace (i =? S k - 1)%nat with false by (symmetry; apply Nat.eqb_neq; lia).
    f_equal. lia.
Qed.

Section DictionaryInduction.
Context {U : Utils}.

Lemma dictionaryInduction_words_acc src_words trg_words dictionary :
  dictionaryInduction_words src_words trg_words dictionary
  = (dictionary ++ dictionaryInduction_words src_words trg_words [])%list.
Proof.
  unfold dictionaryInduction_words. revert dictionary.
  induction src_words as [|it src_words IH]; intros dictionary; simpl.
  - rewrite app_nil_r. reflexivity.
  - destruct (best_target it.2 trg_words).1 as [trg_index|].
    + rewrite IH, (IH [_]), app_assoc. reflexivity.
    + apply IH.
Qed.

Lemma dictionaryInduction_words_app src1 src2 trg_words :
  dictionaryInduction_words (src1 ++ src2) trg_words []
  = (dictionaryInduction_words src1 trg_words []
     ++ dictionaryInduction_words src2 trg_words [])%list.
Proof.
  unfold dictionaryInduction_words at 1. rewrite fold_left_app.
  fold (dictionaryInduction_words src1 trg_words []).
  fold (dictionaryInduction_words src2 trg_words (dictionaryInduction_words src1 trg_words [])).
  apply dictionaryInduction_words_acc.
Qed.

Lemma dictionaryInduction_words_concat splits trg_words :
  concat (List.map (fun s => dictionaryInduction_words s trg_words []) splits)
  = dictionaryInduction_words (concat splits) trg_words [].
Proof.
  induction splits as [|s splits IH]; simpl.
  - reflexivity.
  - rewrite dictionaryInduction_words_app, IH. reflexivity.
Qed.

(** C9.  With more than one thread, [dictionaryInduction] returns the list
    of pairs that it returns with one thread, in the same order. *)
Theorem dictionaryInduction_threads (b : BilingualModel) (src_vocab trg_vocab : list string)
    (policy : Z) (T : Z) :
  (1 < T)%Z ->
  dictionaryInduction (with_threads b T) src_vocab trg_vocab policy
  = dictionaryInduction (with_threads b 1) src_vocab trg_vocab policy.
Proof.
  intros HT. unfold dictionaryInduction. simpl.
  replace (T =? 1)%Z with false by (symmetry; lia).
  rewrite fold_left_app_concat. simpl.
  rewrite <- (List.map_map (thread_split _ (Z.to_nat T))
                (fun s => dictionaryInduction_words s _ [])).
  rewrite dictionaryInduction_words_concat, thread_split_concat by lia.
  reflexivity.
Qed.

End DictionaryInduction.

(** ** The CBOW kernel *)

Lemma veq_refl v : veq v v.
Proof. induction v; constructor; [reflexivity | assumption]. Qed.

Lemma vdiv_one v : veq (vdiv v (inject_Z 1)) v.
Proof.
  induction v as [|x v IH]; constructor; [|exact IH].
  change (inject_Z 1) with 1. field.
Qed.

Section CBOW.
Context {U : Utils}.

(** C4 (amended).  In [trainWordCBOW], when the sum has a summand, the
    hidden vector handed to the gradient updates is the sum (context rows,
    and the sentence vector if there is one) divided by a divisor, and the
    vector added to every context row and to the sentence vector is the
    error of the gradient updates divided by the same divisor.  With
    [no_average] the divisor is 1: the hidden vector is the sum as it is,
    and the error is added as it is, not divided by the number of summands.
    Without [no_average] the divisor is the number of summands: the hidden
    vector is the mean, and the error is divided by that number. *)
Theorem trainWordCBOW_divisor (m : MonolingualModel) (k : nat) (nodes : list HuffmanNode)
    (word_pos : Z) (sent_vec : option vec) (alpha : Q) (update : bool)
    (cur_node : HuffmanNode) :
  at_pos nodes word_pos = Ok cur_node ->
  let w := (1 + rand k (window_size (config m)))%Z in
  let sum := (cbow_sum m nodes cur_node word_pos w sent_vec).1 in
  let count := (cbow_sum m nodes cur_node word_pos w sent_vec).2 in
  count <> 0%Z ->
  exists hidden step error m1 k1,
    cbow_error m (S k) cur_node hidden alpha update = (error, m1, k1)
    /\ trainWordCBOW m k nodes word_pos sent_vec alpha update
       = Ok (if update then cbow_update_rows m1 nodes cur_node word_pos w step else m1,
             (fun sv => vadd sv step) <$> sent_vec, k1)
    /\ (no_average (config m) = true -> veq hidden sum /\ veq step error)
    /\ (no_average (config m) = false ->
          hidden = vdiv sum (inject_Z count) /\ step = vdiv error (inject_Z count)).
Proof.
  intros Hcur w sum count Hcount.
  unfold trainWordCBOW. rewrite Hcur. simpl.
  fold w. subst sum count.
  destruct (cbow_sum m nodes cur_node word_pos w sent_vec) as [sum count] eqn:Hsum.
  simpl in *.
  replace (count =? 0)%Z with false by (symmetry; apply Z.eqb_neq; exact Hcount).
  destruct (cbow_error m (S k) cur_node (vdiv sum (inject_Z (cbow_divisor m count)))
                       alpha update) as [[error m1] k1] eqn:Herr.
  exists (vdiv sum (inject_Z (cbow_divisor m count))),
         (vdiv error (inject_Z (cbow_divisor m count))), error, m1, k1.
  split; [exact Herr|]. split; [reflexivity|].
  unfold cbow_divisor. split; intros ->.
  - split; apply vdiv_one.
  - split; reflexivity.
Qed.

End CBOW.

Section CBOWExamples.
#[local] Existing Instance example_utils.

(** C4, counterexample.  In the sentence [a b c] with [no_average], the
    word [b] has the two context rows [[3]] and [[3]], of sum [[6]]; the
    error of the gradient update on the hidden vector [[6]] is [[-1/10]].
    After [trainWordCBOW] the rows of [a] and [c] are [3 - 1/10]: the whole
    error has been added, and not its half [3 - 1/20]. *)
Lemma trainWordCBOW_no_average_counterexample :
  no_average (config (model_abc 1 true)) = true
  /\ cbow_sum (model_abc 1 true) nodes_abc (example_leaf 1 "b" 3) 1 1 None = ([6], 2%Z)
  /\ (cbow_error (model_abc 1 true) 1 (example_leaf 1 "b" 3) [6] (1 # 10) true).1.1
     = [- (1 # 10)]
  /\ match trainWordCBOW (model_abc 1 true) 0 nodes_abc 1 None (1 # 10) true with
     | Ok (m', _, _) =>
         veq (row (input_weights m') 0) [3 - (1 # 10)]
         /\ veq (row (input_weights m') 2) [3 - (1 # 10)]
         /\ ~ veq (row (input_weights m') 0) [3 - (1 # 10) / 2]
     | _ => False
     end.
Proof.
  split; [reflexivity|]. split; [vm_compute; reflexivity|].
  split; [vm_compute; reflexivity|].
  vm_compute. split; [|split].
  - constructor; [reflexivity | constructor].
  - constructor; [reflexivity | constructor].
  - intros H. inversion H as [|? ? ? ? Hq]. discriminate Hq.
Qed.

End CBOWExamples.

(** ** Training progress *)

Lemma trainSentence_words_nonneg vocab sent : (0 <= trainSentence_words vocab sent)%Z.
Proof.
  unfold trainSentence_words.
  pose proof (List.filter_length_le is_UNK (getNodes vocab sent)).
  lia.
Qed.

(** The learning rate is never set below its floor. *)
Lemma decayed_alpha_floor r wp :
  learning_rate (run_config r) * (1 # 10000) <= decayed_alpha r wp.
Proof.
  unfold decayed_alpha.
  destruct (Qltb _ _) eqn:E; [lra|]. apply Qltb_ge in E. exact E.
Qed.

(** The learning rate computed from a greater [words_processed] is not
    greater. *)
Lemma decayed_alpha_antitone r wp wp' :
  0 <= learning_rate (run_config r) ->
  (0 < iterations (run_config r) * training_words r)%Z ->
  (wp <= wp')%Z ->
  decayed_alpha r wp' <= decayed_alpha r wp.
Proof.
  intros Hlr HD Hwp. unfold decayed_alpha.
  set (sa := learning_rate (run_config r)) in *.
  set (D := inject_Z (iterations (run_config r) * training_words r)).
  assert (0 < D) as HD' by (unfold D; change 0 with (inject_Z 0); rewrite <- Zlt_Qlt; exact HD).
  assert (inject_Z wp / D <= inject_Z wp' / D) as Hdiv.
  { apply Qmult_le_compat_r.
    - rewrite <- Zle_Qle. exact Hwp.
    - apply Qlt_le_weak, Qinv_lt_0_compat, HD'. }
  assert (sa * (1 - inject_Z wp' / D) <= sa * (1 - inject_Z wp / D)) as Hraw.
  { rewrite !(Qmult_comm sa). apply Qmult_le_compat_r; lra. }
  destruct (Qltb (sa * (1 - inject_Z wp' / D)) _) eqn:E';
    destruct (Qltb (sa * (1 - inject_Z wp / D)) _) eqn:E;
    try apply Qltb_lt in E'; try apply Qltb_lt in E;
    try apply Qltb_ge in E'; try apply Qltb_ge in E; lra.
Qed.

(** *** Accesses *)

Lemma fold_perform r l :
  forall st,
    (fold_left (perform r) l st).1 = stored l st.1
    /\ epoch (fold_left (perform r) l st).2 = epoch st.2
    /\ pending (fold_left (perform r) l st).2 = pending st.2
    /\ word_count (fold_left (perform r) l st).2 = word_count st.2
    /\ accesses (fold_left (perform r) l st).2 = accesses st.2.
Proof.
  induction l as [|a l IH]; intros st; [repeat split|].
  cbn [fold_left stored]. destruct (IH (perform r st a)) as (H1 & H2 & H3 & H4 & H5).
  rewrite H1, H2, H3, H4, H5. destruct a; repeat split.
Qed.

Lemma settle_spec r wp w :
  (settle r wp w).1 = stored (accesses w) wp
  /\ epoch (settle r wp w).2 = epoch w
  /\ pending (settle r wp w).2 = pending w
  /\ word_count (settle r wp w).2 = word_count w
  /\ accesses (settle r wp w).2 = [].
Proof. unfold settle. apply (fold_perform r (accesses w) (wp, with_accesses w [])). Qed.

(** The value left by accesses is the value before them or the value of one
    of their stores. *)
Lemma stored_cases l : forall wp, stored l wp = wp \/ In (Store (stored l wp)) l.
Proof.
  induction l as [|a l IH]; intros wp; [left; reflexivity|].
  cbn [stored fold_left].
  destruct a as [v|].
  - destruct (IH v) as [H|H]; [|right; right; exact H].
    right. left. f_equal. symmetry. exact H.
  - destruct (IH wp) as [H|H]; [left; exact H | right; right; exact H].
Qed.

Lemma access_step_cases r wp w wp' w' :
  access_step r wp w = Some (wp', w') ->
  exists a rest,
    accesses w = a :: rest /\ accesses w' = rest
    /\ epoch w' = epoch w /\ pending w' = pending w /\ word_count w' = word_count w
    /\ wp' = stored [a] wp
    /\ (alpha w' = alpha w \/ alpha w' = decayed_alpha r wp).
Proof.
  unfold access_step. destruct (accesses w) as [|a rest]; [discriminate|].
  intros [= H]. exists a, rest.
  destruct a; simpl in H; injection H as <- <-; simpl; repeat split; auto.
Qed.

(** What a turn of a worker does. *)
Lemma trainChunk_step_cases r chunk locked wp w wp' w' :
  trainChunk_step r chunk locked wp w = Some (wp', w') ->
  (epoch w < iterations (run_config r))%Z
  /\ wp' = stored (accesses w) wp
  /\ alpha w' = alpha (settle r wp w).2
  /\ ((exists sent rest,
         pending w = sent :: rest
         /\ (10000 <= word_count w + trainSentence_words (run_vocabulary r) sent)%Z
         /\ locked = false
         /\ epoch w' = epoch w /\ pending w' = rest /\ word_count w' = 0%Z
         /\ accesses w'
            = [Store (wp' + (word_count w + trainSentence_words (run_vocabulary r) sent));
               ReadAlpha])
      \/ (exists sent rest,
            pending w = sent :: rest
            /\ (word_count w + trainSentence_words (run_vocabulary r) sent < 10000)%Z
            /\ epoch w' = epoch w /\ pending w' = rest
            /\ word_count w' = (word_count w + trainSentence_words (run_vocabulary r) sent)%Z
            /\ accesses w' = [])
      \/ (pending w = []
          /\ epoch w' = (epoch w + 1)%Z /\ pending w' = chunk /\ word_count w' = 0%Z
          /\ accesses w' = [Store (wp' + word_count w)])).
Proof.
  unfold trainChunk_step.
  destruct (epoch w <? iterations (run_config r))%Z eqn:E; [|discriminate].
  apply Z.ltb_lt in E.
  destruct (settle_spec r wp w) as (H1 & H2 & H3 & H4 & _).
  destruct (settle r wp w) as [wp1 w1]. simpl in H1, H2, H3, H4. simpl snd.
  rewrite H2, H3, H4. subst wp1.
  destruct (pending w) as [|sent rest].
  - intros [= <- <-]. simpl. split; [exact E|]. split; [reflexivity|]. split; [reflexivity|].
    right. right. repeat split.
  - destruct (10000 <=? _)%Z eqn:Hflush.
    + apply Z.leb_le in Hflush. destruct locked; [discriminate|].
      intros [= <- <-]. simpl. split; [exact E|]. split; [reflexivity|]. split; [reflexivity|].
      left. exists sent, rest. repeat split. exact Hflush.
    + apply Z.leb_gt in Hflush.
      intros [= <- <-]. simpl. split; [exact E|]. split; [reflexivity|]. split; [reflexivity|].
      right. left. exists sent, rest. repeat split. exact Hflush.
Qed.

(** A worker that has epochs to make can make its turn unless another
    worker holds the mutex. *)
Lemma trainChunk_step_enabled r chunk wp w :
  (epoch w < iterations (run_config r))%Z ->
  exists st, trainChunk_step r chunk false wp w = Some st.
Proof.
  intros E. unfold trainChunk_step. apply Z.ltb_lt in E. rewrite E.
  destruct (settle r wp w) as [wp1 w1].
  destruct (pending w1); [eauto|]. destruct (10000 <=? _)%Z; eauto.
Qed.

(** *** Schedules *)

Lemma move_step_reachable r g mv g' :
  train_reachable r g -> move_step r g mv = Some g' -> train_reachable r g'.
Proof.
  intros Hg Hmv. destruct mv as [i|i]; simpl in Hmv.
  - destruct (workers g !! i) as [w|] eqn:Hw; [|discriminate].
    destruct (chunks r !! i) as [chunk|] eqn:Hc; [|discriminate]. simpl in Hmv.
    destruct (trainChunk_step r chunk _ _ w) as [[wp' w']|] eqn:Hs; [|discriminate].
    injection Hmv as <-. eapply train_reachable_step; [exact Hg|].
    eapply train_step_worker; eassumption.
  - destruct (workers g !! i) as [w|] eqn:Hw; [|discriminate]. simpl in Hmv.
    destruct (access_step r _ w) as [[wp' w']|] eqn:Hs; [|discriminate].
    injection Hmv as <-. eapply train_reachable_access; [exact Hg|].
    eapply train_access_worker; eassumption.
Qed.

(** The state after a schedule is a state of the run. *)
Lemma run_moves_reachable r moves :
  forall g g', train_reachable r g -> run_moves r g moves = Some g' -> train_reachable r g'.
Proof.
  unfold run_moves. induction moves as [|mv moves IH]; intros g g' Hg Hrun.
  - injection Hrun as <-. exact Hg.
  - cbn [fold_left] in Hrun. simpl mbind in Hrun.
    destruct (move_step r g mv) as [g1|] eqn:Hmv.
    + exact (IH g1 g' (move_step_reachable r g mv g1 Hg Hmv) Hrun).
    + exfalso. clear -Hrun. induction moves as [|mv' moves IH']; [discriminate|].
      apply IH'. exact Hrun.
Qed.

(** *** The floor of the learning rate *)

(** Whatever the order of the accesses, no worker has a learning rate
    below [starting_alpha * 0.0001]: a read of [words_processed] that
    comes after a lost update still goes through the test of the floor. *)
Lemma alpha_floor_reachable r g :
  0 <= learning_rate (run_config r) ->
  train_reachable r g ->
  forall i w, workers g !! i = Some w ->
    learning_rate (run_config r) * (1 # 10000) <= alpha w.
Proof.
  intros Hlr. set (floor := learning_rate (run_config r) * (1 # 10000)).
  assert (forall l st, floor <= alpha st.2 -> floor <= alpha (fold_left (perform r) l st).2)
    as Hfold.
  { induction l as [|a l IH]; intros st Hst; [exact Hst|].
    cbn [fold_left]. apply IH. destruct a; simpl; [exact Hst | apply decayed_alpha_floor]. }
  induction 1 as [|g g' _ IH Hstep|g g' _ IH Hacc]; intros j wj Hj.
  - simpl in Hj. apply list_lookup_fmap_Some in Hj as (chunk & -> & _). simpl.
    unfold floor. lra.
  - destruct Hstep as [g i chunk w w' wp' Hw Hchunk Hstep]. simpl in Hj.
    destruct (decide (i = j)) as [->|Hne].
    + rewrite list_lookup_insert_eq in Hj by (eapply lookup_lt_Some, Hw).
      injection Hj as <-.
      apply trainChunk_step_cases in Hstep as (_ & _ & -> & _).
      unfold settle. apply Hfold. simpl. exact (IH j w Hw).
    + rewrite list_lookup_insert_ne in Hj by exact Hne. exact (IH j wj Hj).
  - destruct Hacc as [g i w w' wp' Hw Hacc]. simpl in Hj.
    destruct (decide (i = j)) as [->|Hne].
    + rewrite list_lookup_insert_eq in Hj by (eapply lookup_lt_Some, Hw).
      injection Hj as <-.
      apply access_step_cases in Hacc as (a & rest & _ & _ & _ & _ & _ & _ & [->| ->]).
      * exact (IH j w Hw).
      * apply decayed_alpha_floor.
    + rewrite list_lookup_insert_ne in Hj by exact Hne. exact (IH j wj Hj).
Qed.

(** C7.  [words_processed += word_count] at the end of an epoch
    (monolingual.cpp, line 546) is outside the block of [print_mutex], on a
    plain [long long].  In the run [example_race] of two workers the second
    worker loads 0 for this statement and stores 3 after the first worker
    has stored 20000: the store takes [words_processed] from 20000 down to
    3, and the first worker, which is in its block and reads the counter
    next, raises its learning rate. *)
Theorem trainChunk_lost_update :
  exists g1 g2 g3 w2 w3,
    run_moves example_race (train_init example_race) race_schedule = Some g1
    /\ train_reachable example_race g1
    /\ train_access example_race g1 g2
    /\ words_processed g1 = 20000%Z /\ words_processed g2 = 3%Z
    /\ train_access example_race g2 g3
    /\ workers g2 !! 0%nat = Some w2 /\ workers g3 !! 0%nat = Some w3
    /\ alpha w2 < alpha w3.
Proof.
  destruct (run_moves example_race (train_init example_race) race_schedule) as [g1|] eqn:Hrun;
    [|vm_compute in Hrun; discriminate Hrun].
  pose proof (run_moves_reachable example_race race_schedule _ g1
                (train_reachable_init example_race) Hrun) as Hg1.
  vm_compute in Hrun. injection Hrun as Hrun. subst g1.
  eexists _, _, _, _, _. split; [reflexivity|]. split; [exact Hg1|].
  split.
  { eapply (train_access_worker example_race _ 1%nat); [reflexivity | vm_compute; reflexivity]. }
  split; [reflexivity|]. split; [reflexivity|]. split.
  { eapply (train_access_worker example_race _ 0%nat); [reflexivity | vm_compute; reflexivity]. }
  split; [reflexivity|]. split; [reflexivity|].
  vm_compute. reflexivity.
Qed.

(** ** The theorems on the example models *)

Lemma sign_le_1 q : sign q <= 1.
Proof. unfold sign. destruct (Qltb 0 q); [lra|]. destruct (Qltb q 0); lra. Qed.

Lemma model_abc_wf negative no_average :
  vocabulary_wf (vocabulary (model_abc negative no_average)).
Proof.
  intros k n H. simpl in H.
  apply lookup_insert_Some in H as [[<- <-]|[_ H]]; [split; reflexivity|].
  apply lookup_insert_Some in H as [[<- <-]|[_ H]]; [split; reflexivity|].
  apply lookup_insert_Some in H as [[<- <-]|[_ H]]; [split; reflexivity|].
  rewrite lookup_empty in H. discriminate.
Qed.

Section Examples.
#[local] Existing Instance example_utils.

(** C3, counterexample.  Without negative sampling, [wordVec] of the known
    word ["x"] for the policy 1 is the input weights of the word, not a
    failure. *)
Lemma wordVec_no_negative_counterexample :
  negative (config model_xz) = 0%Z
  /\ wordVec model_xz "x" 1 = Ok [1]
  /\ wordVec model_xz "x" 1 <> Throw InvalidInput.
Proof. split; [reflexivity|]. split; [vm_compute; reflexivity | discriminate]. Qed.

(** The policy 1 on [model_abc] with 5 negative samples. *)
Lemma wordVec_policies_witness :
  wordVec (model_abc 5 false) "a" 1 = Ok [3; 1] /\ length [3; 1] = 2%nat.
Proof.
  destruct (wordVec_policies (model_abc 5 false) "a" (example_leaf 0 "a" 5) 1) as [_ H];
    [vm_compute; reflexivity | left; reflexivity | reflexivity | reflexivity |].
  destruct (H eq_refl) as [H1 _]. exact (H1 eq_refl).
Defined.

(** The kernel on the word [b] of the sentence [a b c], with [no_average]. *)
Lemma trainWordCBOW_divisor_witness :
  exists hidden step error m1 k1,
    cbow_error (model_abc 1 true) 1 (example_leaf 1 "b" 3) hidden (1 # 10) true = (error, m1, k1)
    /\ trainWordCBOW (model_abc 1 true) 0 nodes_abc 1 None (1 # 10) true
       = Ok (cbow_update_rows m1 nodes_abc (example_leaf 1 "b" 3) 1 1 step, None, k1)
    /\ veq hidden [6] /\ veq step error.
Proof.
  destruct (trainWordCBOW_divisor (model_abc 1 true) 0 nodes_abc 1 None (1 # 10) true
              (example_leaf 1 "b" 3))
    as (hidden & step & error & m1 & k1 & Herr & Hrun & Hsum & _);
    [reflexivity | vm_compute; discriminate |].
  exists hidden, step, error, m1, k1.
  split; [exact Herr|]. split; [exact Hrun|]. exact (Hsum eq_refl).
Defined.

(** [softWER] on [model_abc], where the cosine is a sign. *)
Lemma softWER_is_soft_edit_distance_witness :
  (exists q, softWER (model_abc 0 false) "a b" "a b" 0 = Ok q /\ q == 0)
  /\ (exists q, softWER (model_abc 0 false) "a b" "a b c" 0 = Ok q /\ q == 1 # 3).
Proof.
  destruct (softWER_is_soft_edit_distance (U := example_utils)
              (fun u v => sign_le_1 (dot u v)) (model_abc 0 false) 0)
    as (_ & Hsame & Habc).
  split.
  - apply Hsame; [discriminate|].
    intros w [<-|[<-|[]]]; vm_compute; eauto.
  - apply Habc; vm_compute; eauto.
Defined.

(** A reference of two spaces. *)
Lemma softWER_empty_reference_witness :
  softWER (model_abc 0 false) "a b" "  " 0 = Undefined.
Proof.
  apply (softWER_empty_reference (model_abc 0 false) "a b" "  " 0).
  intros c [<-|[<-|[]]]; reflexivity.
Defined.

(** The tree of the vocabulary [{a, b, c}]. *)
Lemma createBinaryTree_codes_follow_paths_witness :
  exists root m',
    createBinaryTree_heap (vocabulary (model_abc 0 false)) = [root]
    /\ createBinaryTree (model_abc 0 false) = Ok m'
    /\ (forall w, is_Some (vocabulary m' !! w) <-> is_Some (vocabulary (model_abc 0 false) !! w))
    /\ forall w n,
         vocabulary m' !! w = Some n ->
         length (code n) = length (parents n)
         /\ exists leaf,
              walk root (code n) = Some (parents n, leaf)
              /\ is_leaf leaf = true /\ word leaf = w.
Proof.
  apply (createBinaryTree_codes_follow_paths (model_abc 0 false)).
  - apply model_abc_wf.
  - intros H. apply (f_equal (fun v => v !! "a")) in H. vm_compute in H. discriminate H.
Defined.

(** Two threads on four source words, one of them unknown. *)
Lemma dictionaryInduction_threads_witness :
  dictionaryInduction (with_threads (example_bilingual 1) 2) ["a"; "b"; "q"; "c"] ["x"; "z"] 0
  = dictionaryInduction (with_threads (example_bilingual 1) 1) ["a"; "b"; "q"; "c"] ["x"; "z"] 0.
Proof. apply dictionaryInduction_threads. lia. Defined.

End Examples.

(** * Further properties *)

(** ** similarityNgrams on sequences of any lengths *)

Section MoreQueryFacts.
Context {U : Utils}.

Lemma for_loop_Undefined {A} (body : A -> nat -> outcome A) len :
  forall lo, fold_left (fun acc i => a ← acc; body a i) (seq lo len) Undefined = Undefined.
Proof. induction len as [|len IH]; intros lo; simpl; [reflexivity | apply IH]. Qed.

Lemma ngrams_loop_general m policy (pre1 pre2 words1 words2 : list string) res n :
  length pre1 = length pre2 ->
  for_loop (length pre1) (length words1)
           (ngrams_step m (pre1 ++ words1) (pre2 ++ words2) policy) (res, n)
  = if (length words1 <=? length words2)%nat
    then Ok (pairs_sum m policy words1 words2 res, (n + Z.of_nat (length words1))%Z)
    else Undefined.
Proof.
  revert pre1 pre2 words2 res n.
  induction words1 as [|w1 words1 IH]; intros pre1 pre2 words2 res n Hpre.
  - simpl. unfold for_loop. simpl. do 2 f_equal. lia.
  - destruct words2 as [|w2 words2].
    + simpl length. rewrite for_loop_S.
      assert (ngrams_step m (pre1 ++ w1 :: words1) (pre2 ++ []) policy (res, n) (length pre1)
              = Undefined) as ->.
      { unfold ngrams_step, at_index.
        rewrite (list_lookup_middle pre1 words1 w1 (length pre1) eq_refl).
        rewrite app_nil_r, (lookup_ge_None_2 pre2) by lia. reflexivity. }
      reflexivity.
    + simpl length. rewrite for_loop_S.
      rewrite ngrams_step_middle by exact Hpre.
      simpl.
      replace (pre1 ++ w1 :: words1)%list with ((pre1 ++ [w1]) ++ words1)%list
        by (rewrite <- app_assoc; reflexivity).
      replace (pre2 ++ w2 :: words2)%list with ((pre2 ++ [w2]) ++ words2)%list
        by (rewrite <- app_assoc; reflexivity).
      replace (S (length pre1)) with (length (pre1 ++ [w1])%list)
        by (rewrite length_app; simpl; lia).
      rewrite IH by (rewrite !length_app; simpl; lia).
      destruct (length words1 <=? length words2)%nat; [|reflexivity].
      do 2 f_equal. lia.
Qed.

(** X1.  When the first sequence has at most as many tokens as the second,
    [similarityNgrams] returns the sum of the similarities of the pairs of
    the first sequence, divided by their number: a pair with an unknown word
    counts with the similarity 0, the tokens of the second sequence beyond
    the first are not looked at, and [AllOOV] is thrown only when the first
    sequence has no token.  When the first sequence has more tokens, the
    loop reads the second one out of range. *)
Theorem similarityNgrams_pairs (m : MonolingualModel) (seq1 seq2 : string) (policy : Z) :
  ((length (split seq1) <= length (split seq2))%nat ->
     similarityNgrams m seq1 seq2 policy =
       if (length (split seq1) =? 0)%nat then Throw AllOOV
       else Ok (pairs_sum m policy (split seq1) (split seq2) 0
                / inject_Z (Z.of_nat (length (split seq1)))))
  /\ ((length (split seq2) < length (split seq1))%nat ->
        similarityNgrams m seq1 seq2 policy = Undefined).
Proof.
  pose proof (ngrams_loop_general m policy [] [] (split seq1) (split seq2) 0 0%Z eq_refl) as H.
  simpl in H. unfold similarityNgrams. rewrite Nat.eqb_refl. simpl negb. cbv iota.
  rewrite H. split; intros Hlen.
  - replace (length (split seq1) <=? length (split seq2))%nat with true
      by (symmetry; apply Nat.leb_le; exact Hlen).
    simpl. destruct (length (split seq1)) as [|k]; reflexivity.
  - replace (length (split seq1) <=? length (split seq2))%nat with false
      by (symmetry; apply Nat.leb_gt; exact Hlen).
    reflexivity.
Qed.

(** ** distance *)

(** X2.  With a cosine between -1 and 1, [distance] lies between 0 and 1; it
    is 0 for a known word against itself and 1/2 as soon as one of the words
    is unknown. *)
Theorem distance_range (m : MonolingualModel) (word1 word2 : string) (policy : Z) :
  (forall u v, - (1) <= cosineSimilarity u v <= 1) ->
  0 <= distance m word1 word2 policy <= 1
  /\ (is_Some (vocabulary m !! word1) -> distance m word1 word1 policy == 0)
  /\ (vocabulary m !! word1 = None \/ vocabulary m !! word2 = None ->
        distance m word1 word2 policy == 1 # 2).
Proof.
  intros Hcos. split; [|split].
  - assert (- (1) <= similarity m word1 word2 policy <= 1) as Hs.
    { unfold similarity.
      destruct (vocabulary m !! word1); [|lra].
      destruct (vocabulary m !! word2); [|lra].
      destruct (index h =? index h0)%Z; [lra | apply Hcos]. }
    unfold distance. split.
    + apply Qle_shift_div_l; lra.
    + apply Qle_shift_div_r; lra.
  - apply distance_same.
  - intros Hnone. unfold distance, similarity.
    destruct Hnone as [-> | Hnone]; [reflexivity|].
    rewrite Hnone. destruct (vocabulary m !! word1); reflexivity.
Qed.

(** X3.  [BilingualModel::distance] is 1 minus the cosine, not halved: it
    lies between 0 and 2 for a cosine between -1 and 1, and it is 1 as soon
    as one of the words is unknown in its model. *)
Theorem bilingual_distance_range (b : BilingualModel) (src_word trg_word : string)
    (policy : Z) :
  (forall u v, - (1) <= cosineSimilarity u v <= 1) ->
  0 <= bilingual_distance b src_word trg_word policy <= 2
  /\ (vocabulary (src_model b) !! src_word = None
      \/ vocabulary (trg_model b) !! trg_word = None ->
        bilingual_distance b src_word trg_word policy == 1).
Proof.
  intros Hcos. unfold bilingual_distance, bilingual_similarity. split.
  - destruct (vocabulary (src_model b) !! src_word); [|lra].
    destruct (vocabulary (trg_model b) !! trg_word); [|lra].
    match goal with |- context [cosineSimilarity ?u ?v] => specialize (Hcos u v) end. lra.
  - intros [-> | Hnone]; [reflexivity|].
    rewrite Hnone. destruct (vocabulary (src_model b) !! src_word); reflexivity.
Qed.

End MoreQueryFacts.

(** ** closest and its variants *)

Lemma StronglySorted_app_inv {A} (R : A -> A -> Prop) (l1 l2 : list A) :
  StronglySorted R (l1 ++ l2) -> forall p q, In p l1 -> In q l2 -> R p q.
Proof.
  induction l1 as [|x l1 IH]; intros Hs p q Hp Hq; [contradiction|].
  simpl in Hs. apply StronglySorted_inv in Hs as [Hs Hx].
  destruct Hp as [<-|Hp].
  - rewrite Forall_forall in Hx. apply Hx, list_elem_of_In, in_or_app. right. exact Hq.
  - eapply IH; eassumption.
Qed.

Lemma comp_sorted (l : list (string * Q)) : StronglySorted by_similarity (sort_by comp l).
Proof.
  apply sort_by_sorted.
  - unfold by_similarity. intros x y z Hxy Hyz. lra.
  - unfold comp, by_similarity. intros x y H. apply Qltb_lt in H. lra.
  - unfold comp, by_similarity. intros x y H. apply Qltb_ge in H. lra.
Qed.

Section MoreClosest.
Context {U : Utils}.

(** X4.  For a known word and [0 <= n <= |vocabulary| - 1], [closest]
    returns [n] of the other entries of the vocabulary, sorted by similarity
    descending, never the word itself; the entries left out are not more
    similar than any entry returned. *)
Theorem closest_n_best (m : MonolingualModel) (w : string) (node : HuffmanNode)
    (n : Z) (policy : Z) :
  vocabulary_wf (vocabulary m) ->
  vocabulary_indices (vocabulary m) ->
  vocabulary m !! w = Some node ->
  (0 <= n <= Z.of_nat (size (vocabulary m)) - 1)%Z ->
  exists res rest,
    closest m w n policy = Ok res
    /\ length res = Z.to_nat n
    /\ StronglySorted by_similarity res
    /\ (forall p, In p res -> p.1 <> w)
    /\ (res ++ rest)%list
       ≡ₚ closest_candidates m (index node) (wordVec_index m (index node) policy) policy
    /\ (forall p q, In p res -> In q rest -> q.2 <= p.2).
Proof.
  intros Hwf Hidx Hw Hn.
  pose proof (closest_candidates_length m w node (wordVec_index m (index node) policy)
                policy Hidx Hw) as Hlen.
  assert (0 < size (vocabulary m))%nat as Hsize.
  { destruct (size (vocabulary m)) eqn:E; [|lia].
    apply map_size_empty_iff in E. rewrite E, lookup_empty in Hw. discriminate. }
  unfold closest, partial_sort. rewrite Hw.
  set (cands := closest_candidates m (index node) (wordVec_index m (index node) policy) policy)
    in *.
  replace (n <? 0)%Z with false by (symmetry; lia).
  replace (Z.of_nat (length cands) <? n)%Z with false by (symmetry; lia).
  simpl.
  exists (take (Z.to_nat n) (sort_by comp cands)), (drop (Z.to_nat n) (sort_by comp cands)).
  pose proof (comp_sorted cands) as Hsorted.
  split.
  { f_equal. destruct (n <? Z.of_nat (length (sort_by comp cands)))%Z eqn:E; [reflexivity|].
    rewrite sort_by_length in E. symmetry. apply take_ge. rewrite sort_by_length. lia. }
  split; [rewrite length_take, sort_by_length; lia|].
  split; [apply StronglySorted_take, Hsorted|].
  split.
  { intros p Hp. apply In_take in Hp.
    apply (Permutation_in _ (sort_by_perm comp cands)) in Hp.
    unfold cands in Hp. rewrite closest_candidates_filter in Hp.
    apply in_map_iff in Hp as ([k nd] & <- & Hin).
    apply filter_In in Hin as [Hin Hne]. simpl in *.
    apply list_elem_of_In, elem_of_map_to_list in Hin.
    destruct (Hwf k nd Hin) as [_ Hk]. intros Heq.
    rewrite Hk in Heq. rewrite Heq, Hw in Hin. injection Hin as <-.
    rewrite Z.eqb_refl in Hne. discriminate. }
  split; [rewrite take_drop; apply sort_by_perm|].
  intros p q Hp Hq.
  rewrite <- (take_drop (Z.to_nat n) (sort_by comp cands)) in Hsorted.
  apply (StronglySorted_app_inv _ _ _ Hsorted p q Hp Hq).
Qed.

(** X5.  For a known word, [closest] has no value for a negative [n] and
    for [n] above [|vocabulary| - 1], the number of the other entries. *)
Theorem closest_undefined (m : MonolingualModel) (w : string) (node : HuffmanNode)
    (n : Z) (policy : Z) :
  vocabulary_indices (vocabulary m) ->
  vocabulary m !! w = Some node ->
  (n < 0 \/ Z.of_nat (size (vocabulary m)) - 1 < n)%Z ->
  closest m w n policy = Undefined.
Proof.
  intros Hidx Hw Hn.
  pose proof (closest_candidates_length m w node (wordVec_index m (index node) policy)
                policy Hidx Hw) as Hlen.
  assert (0 < size (vocabulary m))%nat as Hsize.
  { destruct (size (vocabulary m)) eqn:E; [|lia].
    apply map_size_empty_iff in E. rewrite E, lookup_empty in Hw. discriminate. }
  unfold closest, partial_sort. rewrite Hw, Hlen.
  destruct (n <? 0)%Z eqn:E; [reflexivity|]. apply Z.ltb_ge in E.
  replace (Z.of_nat (pred (size (vocabulary m))) <? n)%Z with true; [reflexivity|].
  symmetry. apply Z.ltb_lt. rewrite Nat2Z.inj_pred by lia. lia.
Qed.

Lemma closest_among_candidates_spec m v1 words policy :
  forall p,
    In p (closest_among_candidates m v1 words policy)
    <-> exists w' node',
          In w' words /\ vocabulary m !! w' = Some node'
          /\ p = (word node', cosineSimilarity v1 (wordVec_index m (index node') policy)).
Proof.
  unfold closest_among_candidates.
  enough (forall acc p,
    In p (foldl (fun res w' =>
                   match vocabulary m !! w' with
                   | Some node' =>
                       (res ++ [(word node',
                                 cosineSimilarity v1 (wordVec_index m (index node') policy))])%list
                   | None => res
                   end) acc words)
    <-> In p acc \/ exists w' node',
          In w' words /\ vocabulary m !! w' = Some node'
          /\ p = (word node', cosineSimilarity v1 (wordVec_index m (index node') policy))) as H.
  { intros p. rewrite H. simpl. tauto. }
  induction words as [|w0 words IH]; intros acc p; simpl.
  - split; [tauto|]. intros [H|(w' & _ & [] & _)]. exact H.
  - rewrite IH. destruct (vocabulary m !! w0) as [node0|] eqn:E.
    + rewrite in_app_iff. simpl. split.
      * intros [[H|[<-|[]]]|(w' & node' & Hin & Hl & ->)]; eauto 8.
      * intros [H|(w' & node' & [<-|Hin] & Hl & ->)]; eauto 8.
        rewrite E in Hl. injection Hl as <-. tauto.
    + split.
      * intros [H|(w' & node' & Hin & Hl & ->)]; eauto 8.
      * intros [H|(w' & node' & [<-|Hin] & Hl & ->)]; eauto 8. congruence.
Qed.

Lemma closest_among_candidates_length m v1 words policy :
  length (closest_among_candidates m v1 words policy) = length (known_words m words).
Proof.
  unfold closest_among_candidates, known_words.
  enough (forall acc : list (string * Q),
    length (foldl (fun res w' =>
                     match vocabulary m !! w' with
                     | Some node' =>
                         (res ++ [(word node',
                                   cosineSimilarity
                                     v1 (wordVec_index m (index node') policy))])%list
                     | None => res
                     end) acc words)
    = (length acc
       + length (List.filter (fun w' => bool_decide (is_Some (vocabulary m !! w'))) words))%nat)
    as H by apply (H []).
  induction words as [|w0 words IH]; intros acc; simpl; [lia|].
  rewrite IH. destruct (vocabulary m !! w0) as [node0|] eqn:E.
  - rewrite bool_decide_eq_true_2 by eauto. rewrite length_app. simpl. lia.
  - rewrite bool_decide_eq_false_2 by (intros [? ?]; congruence). reflexivity.
Qed.

(** X6.  [closest(word, words)] throws [OOV] for an unknown word.  For a
    known word it has a value for every list: one result for each
    occurrence in the list of a word that the vocabulary knows, the query
    word itself included, the unknown words being dropped; the results are
    sorted by similarity descending. *)
Theorem closest_among_sorted (m : MonolingualModel) (w : string) (words : list string)
    (policy : Z) :
  (vocabulary m !! w = None -> closest_among m w words policy = Throw OOV)
  /\ (forall node,
        vocabulary m !! w = Some node ->
        exists res,
          closest_among m w words policy = Ok res
          /\ length res = length (known_words m words)
          /\ StronglySorted by_similarity res
          /\ forall p,
               In p res
               <-> exists w' node',
                     In w' words /\ vocabulary m !! w' = Some node'
                     /\ p = (word node',
                             cosineSimilarity (wordVec_index m (index node) policy)
                                              (wordVec_index m (index node') policy))).
Proof.
  unfold closest_among. split.
  - intros ->. reflexivity.
  - intros node ->. eexists. split; [reflexivity|].
    split; [rewrite sort_by_length; apply closest_among_candidates_length|].
    split; [apply comp_sorted|].
    intros p. rewrite <- closest_among_candidates_spec. split.
    + apply Permutation_in, sort_by_perm.
    + apply Permutation_in. symmetry. apply sort_by_perm.
Qed.

Lemma closest_vec_candidates_length m v policy :
  length (closest_vec_candidates m v policy) = size (vocabulary m).
Proof.
  unfold closest_vec_candidates. rewrite <- length_map_to_list.
  enough (forall l (acc : list (string * Q)),
    length (foldl (fun res (it : string * HuffmanNode) =>
                     (res ++ [(word it.2,
                               cosineSimilarity v (wordVec_index m (index it.2) policy))])%list)
                  acc l)
    = (length acc + length l)%nat) as H by apply (H _ []).
  induction l as [|it l IH]; intros acc; simpl; [lia|].
  rewrite IH, length_app. simpl. lia.
Qed.

(** The candidates of [closest(v, n, policy)]: every entry of the
    vocabulary with the cosine of its vector to [v]. *)
Lemma closest_vec_candidates_map m v policy :
  closest_vec_candidates m v policy
  = List.map (fun it : string * HuffmanNode =>
                (word it.2, cosineSimilarity v (wordVec_index m (index it.2) policy)))
             (map_to_list (vocabulary m)).
Proof.
  unfold closest_vec_candidates.
  enough (forall l (acc : list (string * Q)),
    foldl (fun res (it : string * HuffmanNode) =>
             (res ++ [(word it.2,
                       cosineSimilarity v (wordVec_index m (index it.2) policy))])%list)
          acc l
    = (acc ++ List.map (fun it : string * HuffmanNode =>
                          (word it.2,
                           cosineSimilarity v (wordVec_index m (index it.2) policy))) l)%list)
    as H by apply (H _ []).
  induction l as [|it l IH]; intros acc; simpl; [rewrite app_nil_r; reflexivity|].
  rewrite IH, <- app_assoc. reflexivity.
Qed.

(** X7.  [trg_closest] throws [OOV] when the source model does not know the
    word.  Otherwise it ranks all the entries of the target vocabulary by
    the cosine of their vectors, in the target model, to the vector of the
    word in the source model: for [0 <= n <= |target vocabulary|] it
    returns [n] results sorted by similarity descending; the results and
    the entries left out are, one for one, the words of the entries of the
    target vocabulary with these cosines, and no entry left out is more
    similar than a result.  For a negative [n] or an [n] above the size of
    the target vocabulary it has no value. *)
Theorem trg_closest_range (b : BilingualModel) (src_word : string) (n : Z) (policy : Z) :
  (vocabulary (src_model b) !! src_word = None ->
     trg_closest b src_word n policy = Throw OOV)
  /\ (forall node,
        vocabulary (src_model b) !! src_word = Some node ->
        (0 <= n <= Z.of_nat (size (vocabulary (trg_model b))))%Z ->
        exists res rest,
          trg_closest b src_word n policy = Ok res
          /\ length res = Z.to_nat n
          /\ StronglySorted by_similarity res
          /\ (res ++ rest)%list
             ≡ₚ List.map
                  (fun it : string * HuffmanNode =>
                     (word it.2,
                      cosineSimilarity (wordVec_index (src_model b) (index node) policy)
                                       (wordVec_index (trg_model b) (index it.2) policy)))
                  (map_to_list (vocabulary (trg_model b)))
          /\ (forall p,
                In p (res ++ rest)%list
                <-> exists w' node',
                      vocabulary (trg_model b) !! w' = Some node'
                      /\ p = (word node',
                              cosineSimilarity
                                (wordVec_index (src_model b) (index node) policy)
                                (wordVec_index (trg_model b) (index node') policy)))
          /\ (forall p q, In p res -> In q rest -> q.2 <= p.2))
  /\ (is_Some (vocabulary (src_model b) !! src_word) ->
      (n < 0 \/ Z.of_nat (size (vocabulary (trg_model b))) < n)%Z ->
      trg_closest b src_word n policy = Undefined).
Proof.
  unfold trg_closest. split; [intros ->; reflexivity|]. split.
  - intros node -> Hn. unfold closest_vec, partial_sort.
    set (v := wordVec_index (src_model b) (index node) policy).
    pose proof (closest_vec_candidates_length (trg_model b) v policy) as Hlen.
    pose proof (closest_vec_candidates_map (trg_model b) v policy) as Hmap.
    set (cands := closest_vec_candidates (trg_model b) v policy) in *.
    rewrite Hlen.
    replace (n <? 0)%Z with false by (symmetry; lia).
    replace (Z.of_nat (size (vocabulary (trg_model b))) <? n)%Z with false by (symmetry; lia).
    cbn [orb mbind outcome_bind].
    pose proof (comp_sorted cands) as Hsorted.
    pose proof (sort_by_perm comp cands) as Hperm.
    exists (take (Z.to_nat n) (sort_by comp cands)), (drop (Z.to_nat n) (sort_by comp cands)).
    split.
    { f_equal. destruct (n <? Z.of_nat (length (sort_by comp cands)))%Z eqn:E; [reflexivity|].
      apply Z.ltb_ge in E. rewrite sort_by_length, Hlen in E.
      symmetry. apply take_ge. rewrite sort_by_length, Hlen. lia. }
    split; [rewrite length_take, sort_by_length, Hlen; lia|].
    split; [apply StronglySorted_take, Hsorted|].
    rewrite take_drop.
    split; [rewrite <- Hmap; exact Hperm|].
    split.
    + intros p. split.
      * intros Hp. apply (Permutation_in _ Hperm) in Hp. rewrite Hmap in Hp.
        apply in_map_iff in Hp as ([w' node'] & <- & Hin).
        apply list_elem_of_In, elem_of_map_to_list in Hin. exists w', node'.
        split; [exact Hin | reflexivity].
      * intros (w' & node' & Hw' & ->). apply (Permutation_in _ (Permutation_sym Hperm)).
        rewrite Hmap. apply in_map_iff. exists (w', node'). split; [reflexivity|].
        apply list_elem_of_In, elem_of_map_to_list. exact Hw'.
    + intros p q Hp Hq.
      rewrite <- (take_drop (Z.to_nat n) (sort_by comp cands)) in Hsorted.
      apply (StronglySorted_app_inv _ _ _ Hsorted p q Hp Hq).
  - intros [node ->] Hn. unfold closest_vec, partial_sort.
    rewrite closest_vec_candidates_length.
    destruct (n <? 0)%Z eqn:E; [reflexivity|]. apply Z.ltb_ge in E.
    replace (Z.of_nat (size (vocabulary (trg_model b))) <? n)%Z with true by (symmetry; lia).
    reflexivity.
Qed.

End MoreClosest.

(** ** similaritySentence *)

Lemma dot_zeros_l d v : dot (zeros d) v == 0.
Proof.
  revert v. induction d as [|d IH]; intros v; simpl; [reflexivity|].
  destruct v as [|y v]; [reflexivity|]. rewrite IH. ring.
Qed.

Lemma dot_zeros_r d v : dot v (zeros d) == 0.
Proof.
  revert d. induction v as [|x v IH]; intros d; simpl; [reflexivity|].
  destruct d as [|d]; simpl; [reflexivity|]. rewrite IH. ring.
Qed.

Section MoreSentence.
Context {U : Utils}.

Lemma sentence_sum_known m words policy v :
  sentence_sum m words policy v = Ok (known_sum m words policy v).
Proof.
  unfold sentence_sum, known_sum. revert v.
  induction words as [|w words IH]; intros v; simpl; [reflexivity|].
  unfold wordVec at 2. destruct (vocabulary m !! w); simpl; apply IH.
Qed.

Lemma known_sum_known_words m words policy v :
  known_sum m words policy v = known_sum m (known_words m words) policy v.
Proof.
  unfold known_sum, known_words. revert v.
  induction words as [|w words IH]; intros v; simpl; [reflexivity|].
  destruct (vocabulary m !! w) as [node|] eqn:E.
  - rewrite bool_decide_eq_true_2 by eauto. simpl. rewrite E. apply IH.
  - rewrite bool_decide_eq_false_2 by (intros [? ?]; congruence). apply IH.
Qed.

(** X8.  [similaritySentence] never fails: it is the cosine formula on the
    two sums of the vectors of the known words, the unknown words being
    skipped, and 0 when the product of the norms is 0.  When one of the
    sentences has no known word, the empty sentence among them, the result
    is 0. *)
Theorem similaritySentence_known_words (m : MonolingualModel) (seq1 seq2 : string)
    (policy : Z) :
  let d := Z.to_nat (dimension (config m)) in
  let vec1 := known_sum m (known_words m (split seq1)) policy (zeros d) in
  let vec2 := known_sum m (known_words m (split seq2)) policy (zeros d) in
  similaritySentence m seq1 seq2 policy
  = Ok (if Qeq_bool (norm vec1 * norm vec2) 0 then 0
        else dot vec1 vec2 / (norm vec1 * norm vec2))
  /\ (known_words m (split seq1) = [] \/ known_words m (split seq2) = [] ->
      exists q, similaritySentence m seq1 seq2 policy = Ok q /\ q == 0).
Proof.
  intros d vec1 vec2.
  assert (similaritySentence m seq1 seq2 policy
          = Ok (if Qeq_bool (norm vec1 * norm vec2) 0 then 0
                else dot vec1 vec2 / (norm vec1 * norm vec2))) as Heq.
  { unfold similaritySentence. rewrite !sentence_sum_known.
    subst vec1 vec2 d. rewrite <- !known_sum_known_words.
    cbn [mbind outcome_bind]. destruct (Qeq_bool _ 0); reflexivity. }
  split; [exact Heq|].
  intros Hnone. rewrite Heq. eexists. split; [reflexivity|].
  destruct (Qeq_bool _ 0); [reflexivity|].
  assert (dot vec1 vec2 == 0) as ->.
  { unfold vec1, vec2. destruct Hnone as [-> | ->]; simpl.
    - apply dot_zeros_l.
    - apply dot_zeros_r. }
  unfold Qdiv. ring.
Qed.

(** ** similaritySentenceSyntax *)

Variable pow : Q -> Q -> Q.

(** A turn of the loop either goes on or lets [std::out_of_range] pass; it
    lets it pass when the word is known and the tag is not in the table. *)
Lemma syntax_term_cases tag_first m w tag idf alpha policy :
  (exists t, syntax_term pow tag_first m w tag idf alpha policy = Returns t
             /\ is_Some (syntax_weights_at tag))
  \/ (exists e, syntax_term pow tag_first m w tag idf alpha policy = Raises (runtime_error e))
  \/ (syntax_term pow tag_first m w tag idf alpha policy = Raises out_of_range
      /\ syntax_weights_at tag = None).
Proof.
  unfold syntax_term, wordVec.
  destruct (vocabulary m !! w), (syntax_weights_at tag), tag_first; simpl; eauto 6.
Qed.

Lemma syntax_term_unknown_tag tag_first m w tag idf alpha policy :
  is_Some (vocabulary m !! w) -> syntax_weights_at tag = None ->
  syntax_term pow tag_first m w tag idf alpha policy = Raises out_of_range.
Proof.
  intros [node Hw] Htag. unfold syntax_term, wordVec. rewrite Hw, Htag.
  destruct tag_first; reflexivity.
Qed.

Lemma syntax_loop_Raises tag_first m words tags idf alpha policy x l :
  fold_left (fun acc i =>
               result_bind acc (fun v =>
                 catch_runtime_error
                   (result_bind
                      (syntax_term pow tag_first m (nth i words EmptyString)
                                   (nth i tags EmptyString) (nth i idf 0) alpha policy)
                      (fun t => Returns (vadd v t)))
                   (Returns v)))
            l (Raises x)
  = Raises x.
Proof. induction l as [|i l IH]; simpl; [reflexivity | exact IH]. Qed.

Lemma syntax_loop_cases tag_first m words tags idf alpha policy l :
  forall v,
    let loop :=
      fold_left (fun acc i =>
                   result_bind acc (fun v =>
                     catch_runtime_error
                       (result_bind
                          (syntax_term pow tag_first m (nth i words EmptyString)
                                       (nth i tags EmptyString) (nth i idf 0) alpha policy)
                          (fun t => Returns (vadd v t)))
                       (Returns v)))
                l (Returns v) in
    ((forall i, In i l -> is_Some (syntax_weights_at (nth i tags EmptyString))) ->
       exists v', loop = Returns v')
    /\ ((exists i, In i l /\ is_Some (vocabulary m !! nth i words EmptyString)
                   /\ syntax_weights_at (nth i tags EmptyString) = None) ->
          loop = Raises out_of_range).
Proof.
  induction l as [|j l IH]; intros v; simpl.
  - split; [eauto|]. intros (i & [] & _).
  - destruct (syntax_term_cases tag_first m (nth j words EmptyString) (nth j tags EmptyString)
                (nth j idf 0) alpha policy) as [(t & Ht & Htag)|[(e & He)|[He Htag]]];
      [rewrite Ht | rewrite He | rewrite He]; simpl.
    + destruct (IH (vadd v t)) as [IH1 IH2]. split.
      * intros Hall. apply IH1. intros i Hi. apply Hall. right. exact Hi.
      * intros (i & [<-|Hi] & Hw & Hnone).
        -- rewrite Hnone in Htag. destruct Htag; discriminate.
        -- apply IH2. eauto.
    + destruct (IH v) as [IH1 IH2]. split.
      * intros Hall. apply IH1. intros i Hi. apply Hall. right. exact Hi.
      * intros (i & [<-|Hi] & Hw & Hnone).
        -- rewrite syntax_term_unknown_tag in He by assumption. discriminate He.
        -- apply IH2. eauto.
    + rewrite syntax_loop_Raises. split.
      * intros Hall. destruct (Hall j (or_introl eq_refl)) as [? Hs]. congruence.
      * reflexivity.
Qed.

(** X9.  In [similaritySentenceSyntax] a tag that is not in [syntax_weights]
    is not skipped: when, at a position that a loop reaches, the word is
    known and the tag is not in the table, the call ends with
    [std::out_of_range], which the [catch] of [runtime_error] does not
    stop, in whichever order the operands are evaluated.  When all the tags
    read are in the table the call returns a value, whatever words are
    unknown. *)
Theorem similaritySentenceSyntax_unknown_tag (tag_first1 tag_first2 : bool)
    (m : MonolingualModel) (seq1 seq2 tags1 tags2 : string) (idf1 idf2 : list Q)
    (alpha : Q) (policy : Z) :
  ((exists i, unknown_tag_at m (split seq1) (split tags1) idf1 i)
   \/ (exists i, unknown_tag_at m (split seq2) (split tags2) idf2 i) ->
     similaritySentenceSyntax pow tag_first1 tag_first2 m seq1 seq2 tags1 tags2
                              idf1 idf2 alpha policy
     = Raises out_of_range)
  /\ (tags_known (split seq1) (split tags1) idf1 ->
      tags_known (split seq2) (split tags2) idf2 ->
      exists q,
        similaritySentenceSyntax pow tag_first1 tag_first2 m seq1 seq2 tags1 tags2
                                 idf1 idf2 alpha policy
        = Returns q).
Proof.
  unfold similaritySentenceSyntax, syntax_sum, unknown_tag_at, tags_known.
  set (z := zeros (Z.to_nat (dimension (config m)))).
  set (n1 := Nat.min (Nat.min (length (split seq1)) (length (split tags1))) (length idf1)).
  set (n2 := Nat.min (Nat.min (length (split seq2)) (length (split tags2))) (length idf2)).
  destruct (syntax_loop_cases tag_first1 m (split seq1) (split tags1) idf1 alpha policy
              (seq 0 n1) z) as [Hok1 Hbad1].
  split.
  - intros [(i & Hi & Hw & Htag)|(i & Hi & Hw & Htag)].
    + rewrite Hbad1; [reflexivity|]. exists i. rewrite in_seq. split; [lia | tauto].
    + match goal with
      | |- result_bind ?loop1 _ = _ => destruct loop1 as [vec1|x|] eqn:E1
      end; simpl.
      * destruct (syntax_loop_cases tag_first2 m (split seq2) (split tags2) idf2 alpha policy
                    (seq 0 n2) z) as [_ Hbad2].
        rewrite Hbad2; [reflexivity|]. exists i. rewrite in_seq. split; [lia | tauto].
      * destruct x as [e|]; [|reflexivity]. exfalso.
        assert (forall l v e,
          fold_left (fun acc i =>
                       result_bind acc (fun v =>
                         catch_runtime_error
                           (result_bind
                              (syntax_term pow tag_first1 m (nth i (split seq1) EmptyString)
                                 (nth i (split tags1) EmptyString) (nth i idf1 0) alpha policy)
                              (fun t => Returns (vadd v t)))
                           (Returns v)))
                    l (Returns v) <> Raises (runtime_error e)) as Hnever.
        { induction l as [|j l IHl]; intros v e'; simpl; [discriminate|].
          destruct (syntax_term_cases tag_first1 m (nth j (split seq1) EmptyString)
                      (nth j (split tags1) EmptyString) (nth j idf1 0) alpha policy)
            as [(t & -> & _)|[(e0 & ->)|[-> _]]]; simpl; try apply IHl.
          rewrite syntax_loop_Raises. discriminate. }
        eapply Hnever, E1.
      * exfalso.
        assert (forall l v,
          fold_left (fun acc i =>
                       result_bind acc (fun v =>
                         catch_runtime_error
                           (result_bind
                              (syntax_term pow tag_first1 m (nth i (split seq1) EmptyString)
                                 (nth i (split tags1) EmptyString) (nth i idf1 0) alpha policy)
                              (fun t => Returns (vadd v t)))
                           (Returns v)))
                    l (Returns v) <> NoResult) as Hnever.
        { induction l as [|j l IHl]; intros v; simpl; [discriminate|].
          destruct (syntax_term_cases tag_first1 m (nth j (split seq1) EmptyString)
                      (nth j (split tags1) EmptyString) (nth j idf1 0) alpha policy)
            as [(t & -> & _)|[(e0 & ->)|[-> _]]]; simpl; try apply IHl.
          rewrite syntax_loop_Raises. discriminate. }
        eapply Hnever, E1.
  - intros Htags1 Htags2.
    destruct Hok1 as [vec1 ->].
    { intros i Hi. apply Htags1. apply in_seq in Hi. lia. }
    destruct (syntax_loop_cases tag_first2 m (split seq2) (split tags2) idf2 alpha policy
                (seq 0 n2) z) as [Hok2 _].
    destruct Hok2 as [vec2 ->].
    { intros i Hi. apply Htags2. apply in_seq in Hi. lia. }
    simpl. destruct (Qeq_bool _ 0); eauto.
Qed.

End MoreSentence.

(** ** The vocabulary that readVocab builds *)

Lemma fold_addWordToVocab_snoc words w vocab :
  fold_left addWordToVocab (words ++ [w]) vocab
  = addWordToVocab (fold_left addWordToVocab words vocab) w.
Proof. rewrite fold_left_app. reflexivity. Qed.

Lemma index_with_count n c : index (with_count n c) = index n.
Proof. destruct n; reflexivity. Qed.

Lemma index_with_index n i : index (with_index n i) = i.
Proof. destruct n; reflexivity. Qed.

Lemma count_with_index n i : count (with_index n i) = count n.
Proof. destruct n; reflexivity. Qed.

(** The vocabulary after [addWordToVocab] on the words of a file. *)
Lemma addWordToVocab_fold_spec (words : list string) :
  let vocab := fold_left addWordToVocab words ∅ in
  (forall w, vocab !! w = None <-> count_occ string_dec words w = 0%nat)
  /\ (forall w node,
        vocab !! w = Some node ->
        is_leaf node = true /\ word node = w
        /\ count node = Z.of_nat (count_occ string_dec words w)
        /\ (0 <= index node < Z.of_nat (size vocab))%Z)
  /\ vocabulary_indices vocab.
Proof.
  induction words as [|x words IH] using rev_ind.
  - simpl. split; [|split].
    + intros w. rewrite lookup_empty. tauto.
    + intros w node H. rewrite lookup_empty in H. discriminate.
    + intros k1 k2 n1 n2 H. rewrite lookup_empty in H. discriminate.
  - cbv zeta in *. rewrite fold_addWordToVocab_snoc.
    set (vocab := fold_left addWordToVocab words ∅) in *.
    destruct IH as (Hnone & Hsome & Hidx).
    unfold addWordToVocab.
    destruct (vocab !! x) as [nx|] eqn:Hx.
    + destruct (Hsome x nx Hx) as (Hleaf & Hword & Hcount & Hrange).
      assert (size (<[x := with_count nx (count nx + 1)%Z]> vocab) = size vocab) as Hsize.
      { rewrite <- (insert_id vocab x nx Hx) at 2.
        rewrite <- (insert_delete_eq vocab), <- (insert_delete_eq vocab x nx).
        rewrite !map_size_insert_None by apply lookup_delete_eq. reflexivity. }
      split; [|split].
      * intros w. rewrite count_occ_app. simpl.
        destruct (decide (x = w)) as [->|Hne].
        -- rewrite lookup_insert_eq. destruct (string_dec w w); [|congruence].
           split; [discriminate | lia].
        -- rewrite lookup_insert_ne by exact Hne.
           destruct (string_dec x w); [congruence|]. rewrite Hnone. lia.
      * intros w node. rewrite count_occ_app, Hsize. simpl.
        destruct (decide (x = w)) as [->|Hne].
        -- rewrite lookup_insert_eq. intros [= <-].
           destruct (string_dec w w); [|congruence].
           destruct nx; [|discriminate]. simpl in *. repeat split; try assumption; lia.
        -- rewrite lookup_insert_ne by exact Hne. intros H.
           destruct (string_dec x w); [congruence|].
           destruct (Hsome w node H) as (? & ? & ? & ?). repeat split; try assumption; lia.
      * intros k1 k2 n1 n2 H1 H2 Heq.
        assert (forall k n, <[x := with_count nx (count nx + 1)%Z]> vocab !! k = Some n ->
                  exists n0, vocab !! k = Some n0 /\ index n0 = index n) as Hback.
        { intros k n. destruct (decide (x = k)) as [->|Hne].
          - rewrite lookup_insert_eq. intros [= <-]. exists nx.
            split; [exact Hx | symmetry; apply index_with_count].
          - rewrite lookup_insert_ne by exact Hne. eauto. }
        destruct (Hback k1 n1 H1) as (m1 & Hm1 & E1).
        destruct (Hback k2 n2 H2) as (m2 & Hm2 & E2).
        eapply Hidx; [exact Hm1 | exact Hm2 | congruence].
    + assert (size (<[x := LeafNode (Z.of_nat (size vocab)) x 1 [] []]> vocab)
              = S (size vocab)) as Hsize by (apply map_size_insert_None, Hx).
      split; [|split].
      * intros w. rewrite count_occ_app. simpl.
        destruct (decide (x = w)) as [->|Hne].
        -- rewrite lookup_insert_eq. destruct (string_dec w w); [|congruence].
           split; [discriminate | lia].
        -- rewrite lookup_insert_ne by exact Hne.
           destruct (string_dec x w); [congruence|]. rewrite Hnone. lia.
      * intros w node. rewrite count_occ_app, Hsize. simpl.
        destruct (decide (x = w)) as [->|Hne].
        -- rewrite lookup_insert_eq. intros [= <-].
           destruct (string_dec w w); [|congruence].
           apply Hnone in Hx. simpl. repeat split; lia.
        -- rewrite lookup_insert_ne by exact Hne. intros H.
           destruct (string_dec x w); [congruence|].
           destruct (Hsome w node H) as (? & ? & ? & ?). repeat split; try assumption; lia.
      * intros k1 k2 n1 n2.
        destruct (decide (x = k1)) as [<-|Hne1], (decide (x = k2)) as [<-|Hne2];
          try reflexivity.
        -- rewrite lookup_insert_eq, lookup_insert_ne by exact Hne2.
           intros [= <-] H2 Heq. simpl in Heq.
           destruct (Hsome k2 n2 H2) as (_ & _ & _ & Hr). lia.
        -- rewrite lookup_insert_eq, lookup_insert_ne by exact Hne1.
           intros H1 [= <-] Heq. simpl in Heq.
           destruct (Hsome k1 n1 H1) as (_ & _ & _ & Hr). lia.
        -- rewrite !lookup_insert_ne by assumption. apply Hidx.
Qed.

(** The entries that the loop of [reduceVocab] keeps get the consecutive
    indices from [i] on. *)
Lemma reduceVocab_entries_lookup min_count entries :
  forall i j k n,
    reduceVocab_entries min_count i entries !! j = Some (k, n) ->
    index n = (i + Z.of_nat j)%Z.
Proof.
  induction entries as [|it entries IH]; intros i j k n H; simpl in H; [discriminate|].
  destruct (count it.2 <? min_count)%Z; [eapply IH, H|].
  destruct j as [|j]; simpl in H.
  - injection H as <- <-. rewrite index_with_index. lia.
  - apply IH in H. lia.
Qed.

Lemma reduceVocab_entries_kept min_count entries :
  forall i k n,
    In (k, n) entries -> (min_count <= count n)%Z ->
    exists n', In (k, n') (reduceVocab_entries min_count i entries).
Proof.
  induction entries as [|it entries IH]; intros i k n Hin Hc; simpl in *; [contradiction|].
  destruct Hin as [->|Hin]; simpl.
  - replace (count n <? min_count)%Z with false by (symmetry; lia).
    eexists. left. reflexivity.
  - destruct (count it.2 <? min_count)%Z.
    + eapply IH; eassumption.
    + destruct (IH (i + 1)%Z k n Hin Hc) as [n' Hn']. exists n'. right. exact Hn'.
Qed.

Lemma reduceVocab_entries_source min_count entries :
  forall i k n',
    In (k, n') (reduceVocab_entries min_count i entries) ->
    exists n, In (k, n) entries /\ (min_count <= count n)%Z /\ n' = with_index n (index n').
Proof.
  induction entries as [|it entries IH]; intros i k n' Hin; simpl in *; [contradiction|].
  destruct (count it.2 <? min_count)%Z eqn:E.
  - destruct (IH i k n' Hin) as (n & ? & ? & ?). eauto.
  - destruct Hin as [[= <- <-]|Hin].
    + exists it.2. destruct it as [k0 n0]. simpl in *.
      split; [left; reflexivity|]. split; [lia|]. rewrite index_with_index. reflexivity.
    + destruct (IH (i + 1)%Z k n' Hin) as (n & ? & ? & ?). eauto.
Qed.

(** What [reduceVocab] keeps, and the indices it gives. *)
Lemma reduceVocab_spec (min_count : Z) (vocab : gmap string HuffmanNode) :
  let vocab' := reduceVocab min_count vocab in
  (forall k n',
      vocab' !! k = Some n' ->
      exists n, vocab !! k = Some n /\ (min_count <= count n)%Z
                /\ n' = with_index n (index n')
                /\ (0 <= index n' < Z.of_nat (size vocab'))%Z)
  /\ (forall k n, vocab !! k = Some n -> (min_count <= count n)%Z -> is_Some (vocab' !! k))
  /\ (forall i, (0 <= i < Z.of_nat (size vocab'))%Z ->
                exists k n', vocab' !! k = Some n' /\ index n' = i)
  /\ vocabulary_indices vocab'.
Proof.
  intros vocab'. unfold vocab', reduceVocab.
  set (out := reduceVocab_entries min_count 0%Z (map_to_list vocab)).
  pose proof (reduceVocab_entries_keys min_count (map_to_list vocab) 0%Z
                (NoDup_fst_map_to_list vocab)) as Hnd. fold out in Hnd.
  assert (size (list_to_map out : gmap string HuffmanNode) = length out) as Hsize.
  { rewrite <- length_map_to_list.
    rewrite (Permutation_length (map_to_list_to_map out Hnd)). reflexivity. }
  split; [|split; [|split]].
  - intros k n' H. apply elem_of_list_to_map in H; [|exact Hnd].
    pose proof H as Hj. apply list_elem_of_lookup in Hj as [j Hj].
    pose proof (reduceVocab_entries_lookup _ _ _ _ _ _ Hj) as Hidx.
    apply lookup_lt_Some in Hj.
    apply list_elem_of_In, reduceVocab_entries_source in H as (n & Hin & Hc & Hn).
    exists n. apply list_elem_of_In, elem_of_map_to_list in Hin.
    rewrite Hsize. repeat split; try assumption; lia.
  - intros k n Hk Hc. apply elem_of_map_to_list, list_elem_of_In in Hk.
    destruct (reduceVocab_entries_kept min_count _ 0%Z k n Hk Hc) as [n' Hn'].
    exists n'. apply elem_of_list_to_map; [exact Hnd | apply list_elem_of_In, Hn'].
  - intros i Hi. rewrite Hsize in Hi.
    destruct (lookup_lt_is_Some_2 out (Z.to_nat i) ltac:(lia)) as [[k n'] Hj].
    exists k, n'. split.
    + apply elem_of_list_to_map; [exact Hnd|]. eapply list_elem_of_lookup_2, Hj.
    + rewrite (reduceVocab_entries_lookup _ _ _ _ _ _ Hj). lia.
  - intros k1 k2 n1 n2 H1 H2 Heq.
    apply elem_of_list_to_map in H1; [|exact Hnd].
    apply elem_of_list_to_map in H2; [|exact Hnd].
    eapply (reduceVocab_entries_indices min_count (map_to_list vocab) 0%Z);
      [apply NoDup_fst_map_to_list | apply list_elem_of_In, H1
      | apply list_elem_of_In, H2 | exact Heq].
Qed.

(** X10.  After [addWordToVocab] has been called on the words of a file in
    turn, from the empty vocabulary, a word is in the vocabulary when it
    occurs in the file; its entry is a leaf with the word and the number of
    its occurrences as count; the indices of the entries are all different
    and lie in [0, size). *)
Theorem addWordToVocab_counts (words : list string) :
  let vocab := fold_left addWordToVocab words ∅ in
  (forall w, vocab !! w = None <-> count_occ string_dec words w = 0%nat)
  /\ (forall w node,
        vocab !! w = Some node ->
        is_leaf node = true /\ word node = w
        /\ count node = Z.of_nat (count_occ string_dec words w)
        /\ (0 <= index node < Z.of_nat (size vocab))%Z)
  /\ vocabulary_indices vocab.
Proof. apply addWordToVocab_fold_spec. Qed.

(** X11.  [reduceVocab] keeps the entries of count at least [min_count] and
    no other; it changes nothing but their indices, which it makes the
    integers from 0 to the new size less 1, each once. *)
Theorem reduceVocab_contiguous (min_count : Z) (vocab : gmap string HuffmanNode) :
  let vocab' := reduceVocab min_count vocab in
  (forall k n',
      vocab' !! k = Some n' ->
      exists n, vocab !! k = Some n /\ (min_count <= count n)%Z
                /\ n' = with_index n (index n')
                /\ (0 <= index n' < Z.of_nat (size vocab'))%Z)
  /\ (forall k n, vocab !! k = Some n -> (min_count <= count n)%Z -> is_Some (vocab' !! k))
  /\ (forall i, (0 <= i < Z.of_nat (size vocab'))%Z ->
                exists k n', vocab' !! k = Some n' /\ index n' = i)
  /\ vocabulary_indices vocab'.
Proof. apply reduceVocab_spec. Qed.

(** The vocabulary after the loop of [readVocab] and [reduceVocab]. *)
Lemma readVocab_words_entries (min_count : Z) (words : list string) :
  let vocab := readVocab_words min_count words in
  (forall w,
      is_Some (vocab !! w)
      <-> (0 < count_occ string_dec words w)%nat
          /\ (min_count <= Z.of_nat (count_occ string_dec words w))%Z)
  /\ (forall w node,
        vocab !! w = Some node ->
        is_leaf node = true /\ word node = w
        /\ count node = Z.of_nat (count_occ string_dec words w)
        /\ (0 <= index node < Z.of_nat (size vocab))%Z)
  /\ (forall i, (0 <= i < Z.of_nat (size vocab))%Z ->
                exists w node, vocab !! w = Some node /\ index node = i)
  /\ vocabulary_indices vocab.
Proof.
  intros vocab. unfold vocab, readVocab_words.
  destruct (addWordToVocab_fold_spec words) as (Hnone & Hsome & _).
  destruct (reduceVocab_spec min_count (fold_left addWordToVocab words ∅))
    as (Hkept & Hkeeps & Hsurj & Hidx).
  cbv zeta in *.
  set (vocab0 := fold_left addWordToVocab words ∅) in *.
  split; [|split; [|split]].
  - intros w. split.
    + intros [n' Hn']. destruct (Hkept w n' Hn') as (n & Hn & Hc & _).
      destruct (Hsome w n Hn) as (_ & _ & Hcount & _).
      assert (count_occ string_dec words w <> 0%nat) as Hocc.
      { intros H0. apply Hnone in H0. congruence. }
      split; lia.
    + intros [Hocc Hmin].
      destruct (vocab0 !! w) as [n|] eqn:Hn; [|apply Hnone in Hn; lia].
      destruct (Hsome w n Hn) as (_ & _ & Hcount & _).
      apply (Hkeeps w n Hn). lia.
  - intros w n' Hn'. destruct (Hkept w n' Hn') as (n & Hn & Hc & Heq & Hrange).
    destruct (Hsome w n Hn) as (Hleaf & Hword & Hcount & _).
    rewrite Heq. destruct n; [|discriminate]. simpl in *.
    repeat split; try assumption.
    + rewrite Heq in Hrange. simpl in Hrange. lia.
    + rewrite Heq in Hrange. simpl in Hrange. lia.
  - exact Hsurj.
  - exact Hidx.
Qed.

(** X27.  The vocabulary that [readVocab] builds from the words of a file,
    before the tree and the table: a word is in it when it occurs in the
    file, at least [min_count] times; its entry is a leaf with the word and
    the number of its occurrences; and the indices of the entries are the
    integers from 0 to the size of the vocabulary less 1, each once. *)
Theorem readVocab_words_spec (min_count : Z) (words : list string) :
  let vocab := readVocab_words min_count words in
  (forall w,
      is_Some (vocab !! w)
      <-> (0 < count_occ string_dec words w)%nat
          /\ (min_count <= Z.of_nat (count_occ string_dec words w))%Z)
  /\ (forall w node,
        vocab !! w = Some node ->
        is_leaf node = true /\ word node = w
        /\ count node = Z.of_nat (count_occ string_dec words w)
        /\ (0 <= index node < Z.of_nat (size vocab))%Z)
  /\ (forall i, (0 <= i < Z.of_nat (size vocab))%Z ->
                exists w node, vocab !! w = Some node /\ index node = i)
  /\ vocabulary_indices vocab.
Proof. apply readVocab_words_entries. Qed.

(** ** The Huffman tree: internal nodes, prefix codes, entries kept *)

Lemma forest_internal_app h1 h2 :
  forest_internal (h1 ++ h2) = (forest_internal h1 ++ forest_internal h2)%list.
Proof. unfold forest_internal. rewrite List.map_app, concat_app. reflexivity. Qed.

Lemma concat_map_perm {A B} (f : A -> list B) h1 h2 :
  h1 ≡ₚ h2 -> concat (List.map f h1) ≡ₚ concat (List.map f h2).
Proof.
  induction 1; simpl.
  - reflexivity.
  - apply Permutation_app_head. assumption.
  - rewrite !app_assoc. apply Permutation_app_tail, Permutation_app_comm.
  - etransitivity; eassumption.
Qed.

Lemma Zseq_S lo len : Zseq lo (S len) = lo :: Zseq (lo + 1) len.
Proof.
  unfold Zseq. simpl. f_equal; [lia|].
  rewrite <- seq_shift, List.map_map. apply List.map_ext. intros k. lia.
Qed.

Lemma Zseq_In lo len x : In x (Zseq lo len) <-> (lo <= x < lo + Z.of_nat len)%Z.
Proof.
  unfold Zseq. rewrite in_map_iff. split.
  - intros (k & <- & Hk). apply in_seq in Hk. lia.
  - intros H. exists (Z.to_nat (x - lo)). split; [lia|]. apply in_seq. lia.
Qed.

(** The loop of [createBinaryTree] adds one internal node a turn, of indices
    [i], [i + 1], ...: one less than the heap has nodes. *)
Lemma createBinaryTree_loop_internal fuel :
  forall i heap,
    (1 <= length heap <= S fuel)%nat ->
    forest_internal (createBinaryTree_loop fuel i heap)
    ≡ₚ (forest_internal heap ++ Zseq i (Nat.pred (length heap)))%list.
Proof.
  induction fuel as [|fuel IH]; intros i heap Hlen; simpl.
  - destruct heap as [|x [|y heap]]; simpl in *; try lia.
    unfold Zseq. simpl. rewrite app_nil_r. reflexivity.
  - destruct (1 <? length heap)%nat eqn:E.
    + apply Nat.ltb_lt in E.
      destruct (pop_back heap) as [[left_node heap1]|] eqn:E1.
      * apply pop_back_Some in E1. subst heap. rewrite length_app in *. simpl in *.
        destruct (pop_back heap1) as [[right_node heap2]|] eqn:E2.
        -- apply pop_back_Some in E2. subst heap1. rewrite length_app in *. simpl in *.
           rewrite IH by (rewrite (Permutation_length (insert_by_perm _ _ _)); simpl; lia).
           rewrite (Permutation_length (insert_by_perm _ _ _)). simpl.
           unfold forest_internal at 1.
           rewrite (concat_map_perm internal_indices _ _ (insert_by_perm _ _ _)).
           fold (forest_internal (ParentNode i (count left_node + count right_node)
                                    left_node right_node :: heap2)).
           replace (Nat.pred (length heap2 + 1 + 1)) with (S (length heap2)) by lia.
           rewrite Zseq_S, !forest_internal_app. unfold forest_internal. simpl.
           rewrite !app_nil_r.
           set (L := internal_indices left_node). set (R := internal_indices right_node).
           set (F := concat (List.map internal_indices heap2)).
           set (Z' := Zseq (i + 1) (length heap2)).
           rewrite <- Permutation_middle. constructor.
           apply Permutation_app_tail. rewrite <- (app_assoc F R L).
           rewrite (Permutation_app_comm L R). apply Permutation_app_comm.
        -- apply pop_back_None in E2. subst heap1. simpl in *. lia.
      * apply pop_back_None in E1. subst heap. simpl in *. lia.
    + apply Nat.ltb_ge in E. destruct heap as [|x [|y heap]]; simpl in *; try lia.
      unfold Zseq. simpl. rewrite app_nil_r. reflexivity.
Qed.

Lemma internal_of_vocabulary (vocab : gmap string HuffmanNode) :
  vocabulary_wf vocab -> forest_internal (map_to_list vocab).*2 = [].
Proof.
  intros Hwf.
  assert (forall it, In it (map_to_list vocab) -> internal_indices it.2 = []) as H.
  { intros [k n] Hin. apply list_elem_of_In, elem_of_map_to_list in Hin.
    destruct (Hwf k n Hin) as [Hleaf _]. destruct n; [reflexivity | discriminate]. }
  unfold forest_internal. induction (map_to_list vocab) as [|it l IH]; simpl; [reflexivity|].
  rewrite H by (left; reflexivity). simpl. apply IH.
  intros it' Hin. apply H. right. exact Hin.
Qed.

(** The internal nodes of the tree of [createBinaryTree] have the indices
    0 to [size - 2]. *)
Lemma createBinaryTree_heap_internal (vocab : gmap string HuffmanNode) root :
  vocabulary_wf vocab ->
  createBinaryTree_heap vocab = [root] ->
  internal_indices root ≡ₚ Zseq 0 (Nat.pred (size vocab)).
Proof.
  intros Hwf Hroot. unfold createBinaryTree_heap in Hroot.
  set (heap := sort_by HuffmanNode_comp (map_to_list vocab).*2) in *.
  assert (length heap = size vocab) as Hlen.
  { unfold heap. rewrite sort_by_length, length_fmap. apply length_map_to_list. }
  destruct (decide (length heap = 0%nat)) as [H0|H0].
  { destruct heap; [|discriminate]. simpl in Hroot. discriminate. }
  pose proof (createBinaryTree_loop_internal (length heap) 0%Z heap ltac:(lia)) as H.
  rewrite Hroot in H. unfold forest_internal at 1 in H. simpl in H. rewrite app_nil_r in H.
  rewrite H, Hlen. unfold heap, forest_internal.
  rewrite (concat_map_perm internal_indices _ _ (sort_by_perm _ _)).
  fold (forest_internal (map_to_list vocab).*2).
  rewrite internal_of_vocabulary by exact Hwf. reflexivity.
Qed.

Lemma walk_internal t :
  forall bits idxs n,
    walk t bits = Some (idxs, n) ->
    Forall (fun p => In p (internal_indices t)) idxs
    /\ Forall (fun b => b = 0%Z \/ b = 1%Z) bits.
Proof.
  induction t as [i w0 cnt c0 p0 | i cnt l IHl r IHr]; intros bits idxs n H;
    destruct bits as [|b bits]; simpl in H; try discriminate.
  - injection H as <- <-. split; constructor.
  - injection H as <- <-. split; constructor.
  - destruct (b =? 0)%Z eqn:E0; [|destruct (b =? 1)%Z eqn:E1; [|discriminate]].
    + destruct (walk l bits) as [[p n']|] eqn:Hw; [|discriminate]. simpl in H.
      injection H as <- <-. destruct (IHl _ _ _ Hw) as [Hp Hb]. split.
      * constructor; [left; reflexivity|].
        eapply List.Forall_impl; [|exact Hp]. intros a Ha. simpl. right.
        apply in_app_iff. left. exact Ha.
      * constructor; [left; lia | exact Hb].
    + destruct (walk r bits) as [[p n']|] eqn:Hw; [|discriminate]. simpl in H.
      injection H as <- <-. destruct (IHr _ _ _ Hw) as [Hp Hb]. split.
      * constructor; [left; reflexivity|].
        eapply List.Forall_impl; [|exact Hp]. intros a Ha. simpl. right.
        apply in_app_iff. right. exact Ha.
      * constructor; [right; lia | exact Hb].
Qed.

(** A descent along [bits1 ++ bits2] is a descent along [bits1] followed by
    one along [bits2]. *)
Lemma walk_app t :
  forall bits1 bits2 idxs n,
    walk t (bits1 ++ bits2) = Some (idxs, n) ->
    exists idxs1 n1 idxs2,
      walk t bits1 = Some (idxs1, n1) /\ walk n1 bits2 = Some (idxs2, n).
Proof.
  induction t as [i w0 cnt c0 p0 | i cnt l IHl r IHr]; intros bits1 bits2 idxs n H;
    destruct bits1 as [|b bits1]; simpl in H |- *.
  - eauto.
  - discriminate.
  - eauto.
  - destruct (b =? 0)%Z; [|destruct (b =? 1)%Z; [|discriminate]].
    + destruct (walk l (bits1 ++ bits2)) as [[p n']|] eqn:Hw; [|discriminate].
      simpl in H. injection H as <- <-.
      destruct (IHl _ _ _ _ Hw) as (idxs1 & n1 & idxs2 & H1 & H2).
      rewrite H1. simpl. eauto.
    + destruct (walk r (bits1 ++ bits2)) as [[p n']|] eqn:Hw; [|discriminate].
      simpl in H. injection H as <- <-.
      destruct (IHr _ _ _ _ Hw) as (idxs1 & n1 & idxs2 & H1 & H2).
      rewrite H1. simpl. eauto.
Qed.

Lemma walk_leaf n bits idxs n' :
  is_leaf n = true -> walk n bits = Some (idxs, n') -> bits = [] /\ n' = n.
Proof.
  intros Hleaf H. destruct n; [|discriminate].
  destruct bits; simpl in H; [|discriminate]. injection H as _ <-. split; reflexivity.
Qed.

(** What [createBinaryTree] leaves in the vocabulary, from the helper
    lemmas on the heap and on [assignCodes]. *)
Lemma createBinaryTree_entries (m : MonolingualModel) :
  vocabulary_wf (vocabulary m) ->
  vocabulary m <> ∅ ->
  exists root m',
    createBinaryTree_heap (vocabulary m) = [root]
    /\ createBinaryTree m = Ok m'
    /\ forall w n,
         vocabulary m' !! w = Some n ->
         length (code n) = length (parents n)
         /\ exists leaf,
              walk root (code n) = Some (parents n, leaf)
              /\ is_leaf leaf = true /\ word leaf = w.
Proof.
  intros Hwf Hne.
  destruct (createBinaryTree_heap_root (vocabulary m) Hwf Hne) as (root & Hroot & Hnd & Hin).
  exists root. unfold createBinaryTree. rewrite Hroot.
  eexists. split; [reflexivity|]. split; [reflexivity|]. simpl.
  intros w n Hn.
  assert (In w (leaves root)) as Hw.
  { destruct (decide (w ∈ leaves root)) as [H|H]; [apply list_elem_of_In, H|].
    rewrite assignCodes_other in Hn by (rewrite <- list_elem_of_In; exact H).
    apply Hin. eauto. }
  destruct (assignCodes_leaf root [] [] (vocabulary m) w Hnd Hw)
    as (n' & bits & idxs & leaf & Hn' & Hc & Hp & Hlen & Hwalk & Hleaf & Hword).
  rewrite Hn in Hn'. injection Hn' as <-. simpl in Hc, Hp. subst bits idxs.
  split; [exact Hlen|]. exists leaf. repeat split; assumption.
Qed.

(** The parents and the codes that [createBinaryTree] assigns. *)
Lemma createBinaryTree_parents_spec (m : MonolingualModel) :
  vocabulary_wf (vocabulary m) ->
  vocabulary m <> ∅ ->
  exists m',
    createBinaryTree m = Ok m'
    /\ forall w n,
         vocabulary m' !! w = Some n ->
         length (code n) = length (parents n)
         /\ Forall (fun p => (0 <= p < Z.of_nat (size (vocabulary m)) - 1)%Z) (parents n)
         /\ Forall (fun b => b = 0%Z \/ b = 1%Z) (code n).
Proof.
  intros Hwf Hne.
  destruct (createBinaryTree_entries m Hwf Hne) as (root & m' & Hroot & Hm' & Hent).
  exists m'. split; [exact Hm'|]. intros w n Hn.
  destruct (Hent w n Hn) as (Hlen & leaf & Hwalk & _).
  destruct (walk_internal _ _ _ _ Hwalk) as [Hp Hb]. split; [exact Hlen|]. split; [|exact Hb].
  eapply List.Forall_impl; [|exact Hp]. intros p Hin. simpl in Hin.
  apply list_elem_of_In in Hin.
  rewrite (createBinaryTree_heap_internal _ _ Hwf Hroot) in Hin.
  apply list_elem_of_In, Zseq_In in Hin.
  assert (0 < size (vocabulary m))%nat.
  { destruct (size (vocabulary m)) eqn:E; [|lia]. apply map_size_empty_iff in E. contradiction. }
  lia.
Qed.

(** X12.  After [createBinaryTree] on a vocabulary of [V] entries, every
    parent of every entry is one of the indices 0 to [V - 2] of the internal
    nodes, so it is the index of a row of [output_weights_hs], which has [V]
    rows; every bit of a code is 0 or 1. *)
Theorem createBinaryTree_parents_in_range (m : MonolingualModel) :
  vocabulary_wf (vocabulary m) ->
  vocabulary m <> ∅ ->
  exists m',
    createBinaryTree m = Ok m'
    /\ forall w n,
         vocabulary m' !! w = Some n ->
         Forall (fun p => (0 <= p < Z.of_nat (size (vocabulary m)) - 1)%Z) (parents n)
         /\ Forall (fun b => b = 0%Z \/ b = 1%Z) (code n).
Proof.
  intros Hwf Hne.
  destruct (createBinaryTree_parents_spec m Hwf Hne) as (m' & Hm' & H).
  exists m'. split; [exact Hm'|]. intros w n Hn. apply (H w n Hn).
Qed.

(** X13.  The codes that [createBinaryTree] assigns are prefix-free: when
    the code of an entry begins with the code of another entry, the two are
    the entry of the same word. *)
Theorem createBinaryTree_prefix_free (m : MonolingualModel) :
  vocabulary_wf (vocabulary m) ->
  vocabulary m <> ∅ ->
  exists m',
    createBinaryTree m = Ok m'
    /\ forall w1 w2 n1 n2 rest,
         vocabulary m' !! w1 = Some n1 ->
         vocabulary m' !! w2 = Some n2 ->
         code n2 = (code n1 ++ rest)%list ->
         w1 = w2.
Proof.
  intros Hwf Hne.
  destruct (createBinaryTree_entries m Hwf Hne) as (root & m' & Hroot & Hm' & Hent).
  exists m'. split; [exact Hm'|]. intros w1 w2 n1 n2 rest H1 H2 Hcode.
  destruct (Hent w1 n1 H1) as (_ & leaf1 & Hwalk1 & Hleaf1 & Hword1).
  destruct (Hent w2 n2 H2) as (_ & leaf2 & Hwalk2 & Hleaf2 & Hword2).
  rewrite Hcode in Hwalk2.
  destruct (walk_app _ _ _ _ _ Hwalk2) as (idxs1 & mid & idxs2 & Ha & Hb).
  rewrite Hwalk1 in Ha. injection Ha as <- <-.
  destruct (walk_leaf _ _ _ _ Hleaf1 Hb) as [_ ->]. congruence.
Qed.

Lemma leaves_leaf_nodes t : leaves t = List.map word (leaf_nodes t).
Proof.
  induction t as [i w0 cnt c0 p0 | i cnt l IHl r IHr]; simpl; [reflexivity|].
  rewrite List.map_app, IHl, IHr. reflexivity.
Qed.

Lemma createBinaryTree_loop_leaf_nodes fuel :
  forall i heap,
    concat (List.map leaf_nodes (createBinaryTree_loop fuel i heap))
    ≡ₚ concat (List.map leaf_nodes heap).
Proof.
  induction fuel as [|fuel IH]; intros i heap; simpl; [reflexivity|].
  destruct (1 <? length heap)%nat; [|reflexivity].
  destruct (pop_back heap) as [[left_node heap1]|] eqn:E1; [|reflexivity].
  destruct (pop_back heap1) as [[right_node heap2]|] eqn:E2; [|reflexivity].
  apply pop_back_Some in E1, E2. subst heap heap1.
  rewrite IH, (concat_map_perm leaf_nodes _ _ (insert_by_perm _ _ _)).
  rewrite !List.map_app, !concat_app. simpl. rewrite !app_nil_r.
  rewrite (Permutation_app_comm (leaf_nodes left_node) (leaf_nodes right_node)).
  rewrite <- (app_assoc (concat _)). apply Permutation_app_comm.
Qed.

Lemma leaf_nodes_of_vocabulary (vocab : gmap string HuffmanNode) :
  vocabulary_wf vocab ->
  concat (List.map leaf_nodes (map_to_list vocab).*2) = (map_to_list vocab).*2.
Proof.
  intros Hwf.
  assert (forall it, In it (map_to_list vocab) -> leaf_nodes it.2 = [it.2]) as H.
  { intros [k n] Hin. apply list_elem_of_In, elem_of_map_to_list in Hin.
    destruct (Hwf k n Hin) as [Hleaf _]. destruct n; [reflexivity | discriminate]. }
  induction (map_to_list vocab) as [|it l IH]; simpl; [reflexivity|].
  rewrite H by (left; reflexivity). simpl. f_equal. apply IH.
  intros it' Hin. apply H. right. exact Hin.
Qed.

(** [assignCodes] rewrites the entry of a leaf of the tree with the index,
    the word and the count of the leaf. *)
Lemma assignCodes_leaf_node t :
  forall c p (vocab : gmap string HuffmanNode) leaf,
    NoDup (leaves t) -> In leaf (leaf_nodes t) ->
    exists n,
      assignCodes t c p vocab !! word leaf = Some n
      /\ is_leaf n = true /\ index n = index leaf /\ word n = word leaf
      /\ count n = count leaf.
Proof.
  induction t as [i w0 cnt c0 p0 | i cnt l IHl r IHr]; intros c p vocab leaf Hnd Hin;
    simpl in *.
  - destruct Hin as [<-|[]]. simpl. rewrite lookup_insert_eq. eexists.
    split; [reflexivity|]. repeat split.
  - apply NoDup_app in Hnd as (Hl & Hlr & Hr).
    apply in_app_iff in Hin as [Hin|Hin].
    + rewrite assignCodes_other.
      * apply IHl; assumption.
      * intros Hw. apply (Hlr (word leaf)); [|apply list_elem_of_In, Hw].
        rewrite leaves_leaf_nodes. apply list_elem_of_In, in_map, Hin.
    + apply IHr; assumption.
Qed.

(** The entries of the vocabulary after [createBinaryTree] are those
    before it, with their indices, words and counts. *)
Lemma createBinaryTree_entries_kept (m : MonolingualModel) :
  vocabulary_wf (vocabulary m) ->
  vocabulary m <> ∅ ->
  exists m',
    createBinaryTree m = Ok m'
    /\ size (vocabulary m') = size (vocabulary m)
    /\ (forall w n,
          vocabulary m !! w = Some n ->
          exists n',
            vocabulary m' !! w = Some n'
            /\ is_leaf n' = true /\ index n' = index n /\ word n' = w
            /\ count n' = count n)
    /\ (forall w n',
          vocabulary m' !! w = Some n' ->
          exists n,
            vocabulary m !! w = Some n /\ index n' = index n /\ count n' = count n).
Proof.
  intros Hwf Hne.
  destruct (createBinaryTree_heap_root (vocabulary m) Hwf Hne) as (root & Hroot & Hnd & Hin).
  assert (leaf_nodes root ≡ₚ (map_to_list (vocabulary m)).*2) as Hleafs.
  { pose proof (createBinaryTree_loop_leaf_nodes
                  (length (sort_by HuffmanNode_comp (map_to_list (vocabulary m)).*2)) 0%Z
                  (sort_by HuffmanNode_comp (map_to_list (vocabulary m)).*2)) as H.
    unfold createBinaryTree_heap in Hroot. cbv zeta in Hroot. rewrite Hroot in H.
    simpl in H. rewrite app_nil_r in H. rewrite H.
    rewrite (concat_map_perm leaf_nodes _ _ (sort_by_perm _ _)).
    rewrite leaf_nodes_of_vocabulary by exact Hwf. reflexivity. }
  assert (forall w n, vocabulary m !! w = Some n ->
            exists n', assignCodes root [] [] (vocabulary m) !! w = Some n'
              /\ is_leaf n' = true /\ index n' = index n /\ word n' = w
              /\ count n' = count n) as Hent.
  { intros w n Hn. destruct (Hwf w n Hn) as [_ Hword].
    assert (In n (leaf_nodes root)) as Hl.
    { apply list_elem_of_In. rewrite Hleafs. apply list_elem_of_fmap.
      exists (w, n). split; [reflexivity | apply elem_of_map_to_list, Hn]. }
    destruct (assignCodes_leaf_node root [] [] (vocabulary m) n Hnd Hl)
      as (n' & Hn' & Hleaf & Hi & Hw & Hc).
    rewrite Hword in Hn', Hw. eauto 6. }
  assert (forall w, is_Some (assignCodes root [] [] (vocabulary m) !! w)
                    -> is_Some (vocabulary m !! w)) as Hback.
  { intros w [n' Hn']. destruct (decide (w ∈ leaves root)) as [H|H].
    - apply Hin, list_elem_of_In, H.
    - rewrite assignCodes_other in Hn' by (rewrite <- list_elem_of_In; exact H). eauto. }
  unfold createBinaryTree. rewrite Hroot. eexists. split; [reflexivity|]. simpl.
  split; [|split; [exact Hent|]].
  - rewrite <- !size_dom. f_equal. apply set_eq. intros w. rewrite !elem_of_dom.
    split; [apply Hback|].
    intros [n Hn]. destruct (Hent w n Hn) as (n' & Hn' & _). eauto.
  - intros w n' Hn'. destruct (Hback w ltac:(eauto)) as [n Hn].
    destruct (Hent w n Hn) as (n'' & Hn'' & _ & Hi & _ & Hc).
    rewrite Hn' in Hn''. injection Hn'' as <-. eauto.
Qed.

(** X14.  [createBinaryTree] keeps every entry of the vocabulary, with its
    index, its word and its count: it writes the code and the parents only,
    and it adds no entry. *)
Theorem createBinaryTree_keeps_entries (m : MonolingualModel) :
  vocabulary_wf (vocabulary m) ->
  vocabulary m <> ∅ ->
  exists m',
    createBinaryTree m = Ok m'
    /\ size (vocabulary m') = size (vocabulary m)
    /\ forall w n,
         vocabulary m !! w = Some n ->
         exists n',
           vocabulary m' !! w = Some n'
           /\ is_leaf n' = true /\ index n' = index n /\ word n' = w
           /\ count n' = count n.
Proof.
  intros Hwf Hne.
  destruct (createBinaryTree_entries_kept m Hwf Hne) as (m' & Hm' & Hsize & Hent & _).
  exists m'. split; [exact Hm'|]. split; [exact Hsize | exact Hent].
Qed.

(** ** The training kernels: what they keep *)

Lemma fold_left_keeps {S B C} (g : S -> C) (step : S -> B -> S) (l : list B) :
  (forall acc x, g (step acc x) = g acc) ->
  forall acc, g (fold_left step l acc) = g acc.
Proof.
  intros Hstep. induction l as [|x l IH]; intros acc; simpl; [reflexivity|].
  rewrite IH. apply Hstep.
Qed.

Lemma at_pos_Ok {A} (v : list A) (i : Z) :
  (0 <= i < Z.of_nat (length v))%Z -> exists x, at_pos v i = Ok x.
Proof.
  intros Hi. unfold at_pos, at_index.
  replace (i <? 0)%Z with false by (symmetry; lia).
  destruct (lookup_lt_is_Some_2 v (Z.to_nat i) ltac:(lia)) as [x Hx].
  exists x. rewrite Hx. reflexivity.
Qed.

Lemma at_pos_Undefined {A} (v : list A) (i : Z) :
  (i < 0 \/ Z.of_nat (length v) <= i)%Z -> at_pos v i = Undefined.
Proof.
  intros Hi. unfold at_pos, at_index. destruct (i <? 0)%Z eqn:E; [reflexivity|].
  apply Z.ltb_ge in E. rewrite lookup_ge_None_2 by lia. reflexivity.
Qed.

Lemma length_vadd u v : length (vadd u v) = length u.
Proof.
  revert v. induction u as [|x u IH]; intros [|y v]; simpl; try reflexivity.
  rewrite IH. reflexivity.
Qed.

Section KernelFrame.
Context {U : Utils}.

Lemma hierarchicalUpdate_keeps {A} (f : MonolingualModel -> A) update m node hidden alpha :
  (update = true -> keeps_hs f) ->
  f (hierarchicalUpdate m node hidden alpha update).2 = f m.
Proof.
  intros Hf. unfold hierarchicalUpdate, for_each.
  rewrite (fold_left_keeps (fun acc => f acc.2)); [reflexivity|].
  intros [temp m0] j. unfold hierarchicalUpdate_step.
  destruct (_ || _); [reflexivity|].
  destruct update; [|reflexivity]. simpl. apply Hf. reflexivity.
Qed.

Lemma negSamplingUpdate_keeps {A} (f : MonolingualModel -> A) update m k node hidden alpha :
  (update = true -> keeps_out f) ->
  f (negSamplingUpdate m k node hidden alpha update).1.2 = f m.
Proof.
  intros Hf. unfold negSamplingUpdate, for_each.
  rewrite (fold_left_keeps (fun acc => f acc.1.2)); [reflexivity|].
  intros [[temp m0] k0] d. unfold negSamplingUpdate_step.
  destruct (d =? 0)%nat.
  - destruct update; [|reflexivity]. simpl. apply Hf. reflexivity.
  - destruct (HuffmanNode_eqb _ _); [reflexivity|].
    destruct update; [|reflexivity]. simpl. apply Hf. reflexivity.
Qed.

Lemma cbow_error_keeps {A} (f : MonolingualModel -> A) update m k node hidden alpha :
  (update = true -> hierarchical_softmax (config m) = true -> keeps_hs f) ->
  (update = true -> (0 < negative (config m))%Z -> keeps_out f) ->
  f (cbow_error m k node hidden alpha update).1.2 = f m.
Proof.
  intros Hhs Hout. unfold cbow_error.
  destruct (hierarchical_softmax (config m)) eqn:Ehs.
  - pose proof (hierarchicalUpdate_keeps f update m node hidden alpha
                  (fun Hu => Hhs Hu eq_refl)) as H1.
    pose proof (hierarchicalUpdate_keeps config update m node hidden alpha
                  (fun _ _ _ _ => eq_refl)) as Hc.
    destruct (hierarchicalUpdate m node hidden alpha update) as [e m1]. simpl in H1, Hc.
    rewrite Hc. destruct (0 <? negative (config m))%Z eqn:En; [|exact H1].
    apply Z.ltb_lt in En.
    pose proof (negSamplingUpdate_keeps f update m1 k node hidden alpha
                  (fun Hu => Hout Hu En)) as H2.
    destruct (negSamplingUpdate m1 k node hidden alpha update) as [[e2 m2] k2].
    simpl in *. congruence.
  - destruct (0 <? negative (config m))%Z eqn:En; [|reflexivity].
    apply Z.ltb_lt in En.
    pose proof (negSamplingUpdate_keeps f update m k node hidden alpha
                  (fun Hu => Hout Hu En)) as H2.
    destruct (negSamplingUpdate m k node hidden alpha update) as [[e2 m2] k2].
    simpl in *. exact H2.
Qed.

Lemma cbow_update_rows_keeps {A} (f : MonolingualModel -> A) m nodes cur_node word_pos w step :
  keeps_in f -> f (cbow_update_rows m nodes cur_node word_pos w step) = f m.
Proof.
  intros Hf. unfold cbow_update_rows.
  rewrite (fold_left_keeps f); [reflexivity|]. intros m0 pos. apply Hf.
Qed.

Lemma trainWordCBOW_keeps {A} (f : MonolingualModel -> A) update m k nodes word_pos sent_vec
    alpha m' sv' k' :
  (update = true -> hierarchical_softmax (config m) = true -> keeps_hs f) ->
  (update = true -> (0 < negative (config m))%Z -> keeps_out f) ->
  (update = true -> keeps_in f) ->
  trainWordCBOW m k nodes word_pos sent_vec alpha update = Ok (m', sv', k') ->
  f m' = f m.
Proof.
  intros Hhs Hout Hin. unfold trainWordCBOW.
  destruct (at_pos nodes word_pos) as [cur_node| |]; simpl; try discriminate.
  destruct (cbow_sum _ _ _ _ _ _) as [sum count].
  destruct (count =? 0)%Z; [intros [= <- _ _]; reflexivity|].
  pose proof (cbow_error_keeps f update m (S k) cur_node
                (vdiv sum (inject_Z (cbow_divisor m count))) alpha Hhs Hout) as H1.
  destruct (cbow_error _ _ _ _ _ _) as [[error m1] k1]. simpl in H1.
  intros [= <- _ _]. destruct update; [|exact H1].
  rewrite cbow_update_rows_keeps by (apply Hin; reflexivity). exact H1.
Qed.

Lemma trainWordDBOW_keeps {A} (f : MonolingualModel -> A) update m k nodes word_pos sent_vec
    alpha m' sv' k' :
  (update = true -> hierarchical_softmax (config m) = true -> keeps_hs f) ->
  (update = true -> (0 < negative (config m))%Z -> keeps_out f) ->
  trainWordDBOW m k nodes word_pos sent_vec alpha update = Ok (m', sv', k') ->
  f m' = f m.
Proof.
  intros Hhs Hout. unfold trainWordDBOW.
  destruct (at_pos nodes word_pos) as [output_word| |]; simpl; try discriminate.
  pose proof (cbow_error_keeps f update m k output_word sent_vec alpha Hhs Hout) as H1.
  destruct (cbow_error _ _ _ _ _ _) as [[error m1] k1]. simpl in H1.
  intros [= <- _ _]. exact H1.
Qed.

Lemma trainWordSkipGram_keeps {A} (f : MonolingualModel -> A) update m k nodes word_pos
    alpha m' k' :
  (update = true -> hierarchical_softmax (config m) = true -> keeps_hs f) ->
  (update = true -> (0 < negative (config m))%Z -> keeps_out f) ->
  (update = true -> keeps_in f) ->
  trainWordSkipGram m k nodes word_pos alpha update = Ok (m', k') ->
  f m' = f m.
Proof.
  intros Hhs Hout Hin. unfold trainWordSkipGram.
  destruct (at_pos nodes word_pos) as [input_word| |]; simpl; try discriminate.
  intros [= H].
  assert (forall l m0 k0,
            config m0 = config m ->
            f (fold_left (trainWordSkipGram_step nodes input_word alpha update) l (m0, k0)).1
            = f m0) as Hloop.
  { induction l as [|p l IH]; intros m0 k0 Hc; cbn [fold_left]; [reflexivity|].
    assert (Hs : f (trainWordSkipGram_step nodes input_word alpha update (m0, k0) p).1 = f m0
                 /\ config (trainWordSkipGram_step nodes input_word alpha update (m0, k0) p).1
                    = config m).
    { unfold trainWordSkipGram_step.
      pose proof (cbow_error_keeps f update m0 k0 (nth (Z.to_nat p) nodes input_word)
                    (row (input_weights m0) (index input_word)) alpha) as H1.
      pose proof (cbow_error_keeps config update m0 k0 (nth (Z.to_nat p) nodes input_word)
                    (row (input_weights m0) (index input_word)) alpha
                    (fun _ _ _ _ _ => eq_refl) (fun _ _ _ _ _ => eq_refl)) as H2.
      rewrite Hc in H1. specialize (H1 Hhs Hout).
      destruct (cbow_error _ _ _ _ _ _) as [[error m1] k1]. simpl in H1, H2.
      destruct update; simpl; [|split; congruence].
      rewrite (Hin eq_refl). split; congruence. }
    destruct Hs as [Hs1 Hs2].
    destruct (trainWordSkipGram_step nodes input_word alpha update (m0, k0) p) as [m1 k1].
    simpl in Hs1, Hs2. rewrite <- Hs1. apply IH. exact Hs2. }
  specialize (Hloop (window_positions (length nodes) word_pos
                       (1 + rand k (window_size (config m)))%Z) m (S k) eq_refl).
  rewrite H in Hloop. exact Hloop.
Qed.

Lemma trainWord_keeps {A} (f : MonolingualModel -> A) skip_gram update m k nodes word_pos
    sent_vec alpha m' sv' k' :
  (update = true -> hierarchical_softmax (config m) = true -> keeps_hs f) ->
  (update = true -> (0 < negative (config m))%Z -> keeps_out f) ->
  (update = true -> (skip_gram = true -> sent_vec = None) -> keeps_in f) ->
  trainWord skip_gram m k nodes word_pos sent_vec alpha update = Ok (m', sv', k') ->
  f m' = f m.
Proof.
  intros Hhs Hout Hin. unfold trainWord. destruct skip_gram.
  - destruct sent_vec as [sv|].
    + destruct (trainWordDBOW m k nodes word_pos sv alpha update) as [[[m1 sv1] k1]| |] eqn:E;
        simpl; try discriminate.
      intros [= <- _ _]. eapply trainWordDBOW_keeps; eassumption.
    + destruct (trainWordSkipGram m k nodes word_pos alpha update) as [[m1 k1]| |] eqn:E;
        simpl; try discriminate.
      intros [= <- _ _].
      eapply trainWordSkipGram_keeps; [exact Hhs | exact Hout | | exact E].
      intros Hu. apply Hin; [exact Hu | reflexivity].
  - apply trainWordCBOW_keeps; [exact Hhs | exact Hout |].
    intros Hu. apply Hin; [exact Hu | discriminate].
Qed.

(** On a position of the sentence [trainWord] returns. *)
Lemma trainWord_returns skip_gram update m k nodes word_pos sent_vec alpha :
  (0 <= word_pos < Z.of_nat (length nodes))%Z ->
  exists m' sv' k',
    trainWord skip_gram m k nodes word_pos sent_vec alpha update = Ok (m', sv', k')
    /\ (k <= k')%nat
    /\ match sent_vec with
       | Some sv => exists v, sv' = Some v /\ length v = length sv
       | None => sv' = None
       end.
Proof.
  intros Hpos. destruct (at_pos_Ok nodes word_pos Hpos) as [node Hnode].
  assert (forall m k node hidden alpha update,
            (k <= (cbow_error m k node hidden alpha update).2)%nat) as Hdraws.
  { clear. intros m k node hidden alpha update. unfold cbow_error.
    assert (forall m k, (k <= (negSamplingUpdate m k node hidden alpha update).2)%nat) as Hneg.
    { intros m0 k0. unfold negSamplingUpdate, for_each.
      generalize (seq 0 (Z.to_nat (negative (config m0) + 1))).
      generalize (zeros (Z.to_nat (dimension (config m0)))).
      intros temp l. revert temp m0 k0.
      induction l as [|d l IH]; intros temp m0 k0; cbn [fold_left]; [simpl; lia|].
      destruct (negSamplingUpdate_step node hidden alpha update (temp, m0, k0) d)
        as [[temp1 m1] k1] eqn:E.
      etransitivity; [|apply IH].
      unfold negSamplingUpdate_step in E. destruct (d =? 0)%nat.
      - destruct update; injection E as _ _ <-; lia.
      - destruct (HuffmanNode_eqb _ _); [injection E as _ _ <-; lia|].
        destruct update; injection E as _ _ <-; lia. }
    destruct (hierarchical_softmax (config m)).
    - destruct (hierarchicalUpdate m node hidden alpha update) as [e m1].
      destruct (0 <? negative (config m1))%Z; [|simpl; lia].
      specialize (Hneg m1 k). destruct (negSamplingUpdate m1 k node hidden alpha update)
        as [[e2 m2] k2]. exact Hneg.
    - destruct (0 <? negative (config m))%Z; [|simpl; lia].
      specialize (Hneg m k). destruct (negSamplingUpdate m k node hidden alpha update)
        as [[e2 m2] k2]. exact Hneg. }
  unfold trainWord. destruct skip_gram.
  - destruct sent_vec as [sv|].
    + unfold trainWordDBOW. rewrite Hnode. simpl.
      specialize (Hdraws m k node sv alpha update).
      destruct (cbow_error m k node sv alpha update) as [[error m1] k1]. simpl in *.
      eexists _, _, _. split; [reflexivity|]. split; [exact Hdraws|].
      eexists. split; [reflexivity | apply length_vadd].
    + unfold trainWordSkipGram. rewrite Hnode. simpl.
      assert (forall l m0 k0,
                (k0 <= (fold_left (trainWordSkipGram_step nodes node alpha update) l
                          (m0, k0)).2)%nat) as Hloop.
      { induction l as [|p l IH]; intros m0 k0; cbn [fold_left]; [simpl; lia|].
        destruct (trainWordSkipGram_step nodes node alpha update (m0, k0) p) as [m2 k2] eqn:Es.
        etransitivity; [|apply IH].
        unfold trainWordSkipGram_step in Es.
        pose proof (Hdraws m0 k0 (nth (Z.to_nat p) nodes node)
                      (row (input_weights m0) (index node)) alpha update) as Hd.
        destruct (cbow_error _ _ _ _ _ _) as [[error m3] k3]. simpl in Hd.
        destruct update; injection Es as _ <-; exact Hd. }
      specialize (Hloop (window_positions (length nodes) word_pos
                           (1 + rand k (window_size (config m)))%Z) m (S k)).
      destruct (fold_left _ _ _) as [m1 k1]. simpl in *.
      eexists _, _, _. split; [reflexivity|]. split; [lia | reflexivity].
  - unfold trainWordCBOW. rewrite Hnode. simpl.
    destruct (cbow_sum _ _ _ _ _ _) as [sum count].
    destruct (count =? 0)%Z.
    + eexists _, _, _. split; [reflexivity|]. split; [lia|].
      destruct sent_vec; [eauto | reflexivity].
    + pose proof (Hdraws m (S k) node (vdiv sum (inject_Z (cbow_divisor m count))) alpha update)
        as Hd.
      destruct (cbow_error _ _ _ _ _ _) as [[error m1] k1]. simpl in Hd.
      eexists _, _, _. split; [reflexivity|]. split; [lia|].
      destruct sent_vec as [sv|]; simpl; [|reflexivity].
      eexists. split; [reflexivity | apply length_vadd].
Qed.

(** X15.  On a position of the sentence, [trainWord] with [update] false
    returns and leaves the model as it was, for each of the three kernels;
    it keeps the sentence vector a vector of the same length when there is
    one.  Out of the sentence the read of [nodes[word_pos]] has no value. *)
Theorem trainWord_frozen (skip_gram : bool) (m : MonolingualModel) (k : nat)
    (nodes : list HuffmanNode) (word_pos : Z) (sent_vec : option vec) (alpha : Q) :
  ((0 <= word_pos < Z.of_nat (length nodes))%Z ->
   exists sv' k',
     trainWord skip_gram m k nodes word_pos sent_vec alpha false = Ok (m, sv', k')
     /\ (k <= k')%nat
     /\ match sent_vec with
        | Some sv => exists v, sv' = Some v /\ length v = length sv
        | None => sv' = None
        end)
  /\ ((word_pos < 0 \/ Z.of_nat (length nodes) <= word_pos)%Z ->
      trainWord skip_gram m k nodes word_pos sent_vec alpha false = Undefined).
Proof.
  split.
  - intros Hpos.
    destruct (trainWord_returns skip_gram false m k nodes word_pos sent_vec alpha Hpos)
      as (m' & sv' & k' & H & Hk & Hsv).
    assert (m' = m) as ->.
    { apply (trainWord_keeps id skip_gram false m k nodes word_pos sent_vec alpha m' sv' k');
        try discriminate. exact H. }
    eauto.
  - intros Hpos. unfold trainWord, trainWordDBOW, trainWordSkipGram, trainWordCBOW.
    rewrite (at_pos_Undefined nodes word_pos Hpos).
    destruct skip_gram; [destruct sent_vec|]; reflexivity.
Qed.

Lemma trainWord_result_frame (skip_gram update : bool) (m : MonolingualModel) (k : nat)
    (nodes : list HuffmanNode) (word_pos : Z) (sent_vec : option vec) (alpha : Q)
    (m' : MonolingualModel) (sv' : option vec) (k' : nat) :
  trainWord skip_gram m k nodes word_pos sent_vec alpha update = Ok (m', sv', k') ->
  config m' = config m
  /\ vocabulary m' = vocabulary m
  /\ unigram_table m' = unigram_table m
  /\ length (input_weights m') = length (input_weights m)
  /\ length (output_weights m') = length (output_weights m)
  /\ length (output_weights_hs m') = length (output_weights_hs m)
  /\ (hierarchical_softmax (config m) = false -> output_weights_hs m' = output_weights_hs m)
  /\ ((negative (config m) <= 0)%Z -> output_weights m' = output_weights m)
  /\ (skip_gram = true -> is_Some sent_vec -> input_weights m' = input_weights m).
Proof.
  intros H.
  repeat match goal with |- _ /\ _ => split end.
  - apply (trainWord_keeps config _ _ _ _ _ _ _ _ _ _ _ (fun _ _ _ _ _ => eq_refl)
             (fun _ _ _ _ _ => eq_refl) (fun _ _ _ _ _ => eq_refl) H).
  - apply (trainWord_keeps vocabulary _ _ _ _ _ _ _ _ _ _ _ (fun _ _ _ _ _ => eq_refl)
             (fun _ _ _ _ _ => eq_refl) (fun _ _ _ _ _ => eq_refl) H).
  - apply (trainWord_keeps unigram_table _ _ _ _ _ _ _ _ _ _ _ (fun _ _ _ _ _ => eq_refl)
             (fun _ _ _ _ _ => eq_refl) (fun _ _ _ _ _ => eq_refl) H).
  - apply (trainWord_keeps (fun m => length (input_weights m)) _ _ _ _ _ _ _ _ _ _ _
             (fun _ _ _ _ _ => eq_refl) (fun _ _ _ _ _ => eq_refl)
             (fun _ _ m0 i v => length_insert (input_weights m0) (Z.to_nat i) v) H).
  - apply (trainWord_keeps (fun m => length (output_weights m)) _ _ _ _ _ _ _ _ _ _ _
             (fun _ _ _ _ _ => eq_refl)
             (fun _ _ m0 i v => length_insert (output_weights m0) (Z.to_nat i) v)
             (fun _ _ _ _ _ => eq_refl) H).
  - apply (trainWord_keeps (fun m => length (output_weights_hs m)) _ _ _ _ _ _ _ _ _ _ _
             (fun _ _ m0 i v => length_insert (output_weights_hs m0) (Z.to_nat i) v)
             (fun _ _ _ _ _ => eq_refl) (fun _ _ _ _ _ => eq_refl) H).
  - intros Hhs.
    eapply (trainWord_keeps output_weights_hs); [| | |exact H].
    + intros _ Ht. congruence.
    + intros _ _ m0 i v. reflexivity.
    + intros _ _ m0 i v. reflexivity.
  - intros Hneg.
    eapply (trainWord_keeps output_weights); [| | |exact H].
    + intros _ _ m0 i v. reflexivity.
    + intros _ Ht. lia.
    + intros _ _ m0 i v. reflexivity.
  - intros -> [sv ->].
    eapply (trainWord_keeps input_weights); [| | |exact H].
    + intros _ _ m0 i v. reflexivity.
    + intros _ _ m0 i v. reflexivity.
    + intros _ Ht. specialize (Ht eq_refl). discriminate.
Qed.

(** X16.  Whatever [update] is, a call of [trainWord] on a position of the
    sentence returns a model with the configuration, the vocabulary, the
    unigram table and the number of rows of each weight matrix it had.  It
    leaves [output_weights_hs] as it was without hierarchical softmax,
    [output_weights] as it was without negative samples, and
    [input_weights] as it was in the DBOW case (skip-gram with a sentence
    vector). *)
Theorem trainWord_frame (skip_gram update : bool) (m : MonolingualModel) (k : nat)
    (nodes : list HuffmanNode) (word_pos : Z) (sent_vec : option vec) (alpha : Q) :
  (0 <= word_pos < Z.of_nat (length nodes))%Z ->
  exists m' sv' k',
    trainWord skip_gram m k nodes word_pos sent_vec alpha update = Ok (m', sv', k')
    /\ config m' = config m
    /\ vocabulary m' = vocabulary m
    /\ unigram_table m' = unigram_table m
    /\ length (input_weights m') = length (input_weights m)
    /\ length (output_weights m') = length (output_weights m)
    /\ length (output_weights_hs m') = length (output_weights_hs m)
    /\ (hierarchical_softmax (config m) = false -> output_weights_hs m' = output_weights_hs m)
    /\ ((negative (config m) <= 0)%Z -> output_weights m' = output_weights m)
    /\ (skip_gram = true -> is_Some sent_vec -> input_weights m' = input_weights m).
Proof.
  intros Hpos.
  destruct (trainWord_returns skip_gram update m k nodes word_pos sent_vec alpha Hpos)
    as (m' & sv' & k' & H & _).
  exists m', sv', k'. split; [exact H|]. eapply trainWord_result_frame, H.
Qed.

End KernelFrame.

(** ** The paragraph vector of a sentence *)

(** Invariants of a counted loop in the outcome monad: when every turn
    returns and keeps the invariant, so does the loop. *)
Lemma for_loop_invariant {A} (Inv : A -> Prop) (body : A -> nat -> outcome A) len :
  forall lo init,
    Inv init ->
    (forall a i, (lo <= i < lo + len)%nat -> Inv a -> exists a', body a i = Ok a' /\ Inv a') ->
    exists a', for_loop lo len body init = Ok a' /\ Inv a'.
Proof.
  induction len as [|len IH]; intros lo init H0 Hstep.
  - exists init. split; [reflexivity | exact H0].
  - rewrite for_loop_S.
    destruct (Hstep init lo ltac:(lia) H0) as (a & Ha & Hinv). rewrite Ha. simpl.
    apply IH; [exact Hinv|]. intros a0 i Hi. apply Hstep. lia.
Qed.

Lemma known_nodes_nil (vocab : gmap string HuffmanNode) (sentence : string) :
  known_nodes vocab sentence = [] <-> Forall (fun w => vocab !! w = None) (split sentence).
Proof.
  unfold known_nodes, getNodes. induction (split sentence) as [|w l IH]; simpl.
  - split; [constructor | reflexivity].
  - destruct (vocab !! w) eqn:E; simpl.
    + split; [discriminate|]. intros H. inversion H; congruence.
    + rewrite IH. split; [intros H; constructor; assumption | intros H; inversion H; assumption].
Qed.

Section SentVec.
Context {U : Utils}.

Lemma sentVec_epoch_frozen skip_gram nodes alpha m sv k :
  exists sv' k',
    sentVec_epoch skip_gram nodes alpha (m, sv, k) = Ok (m, sv', k')
    /\ length sv' = length sv /\ (k <= k')%nat.
Proof.
  unfold sentVec_epoch.
  destruct (for_loop_invariant
              (fun st : MonolingualModel * vec * nat =>
                 st.1.1 = m /\ length st.1.2 = length sv /\ (k <= st.2)%nat)
              (fun '(m, sent_vec, k) pos =>
                 '(m, sv, k) ← trainWord skip_gram m k nodes (Z.of_nat pos) (Some sent_vec)
                                 alpha false;
                 Ok (m, default sent_vec sv, k))
              (length nodes) 0%nat (m, sv, k)) as ([[m' sv'] k'] & Hloop & Hm & Hl & Hk).
  - simpl. repeat split; lia.
  - intros [[m0 sv0] k0] pos Hpos (Hm & Hl & Hk). simpl in Hm, Hl, Hk. subst m0.
    destruct (trainWord_returns skip_gram false m k0 nodes (Z.of_nat pos) (Some sv0) alpha
                ltac:(lia)) as (m1 & sv1 & k1 & H & Hk1 & v & -> & Hv).
    assert (m1 = m) as ->.
    { apply (trainWord_keeps id skip_gram false m k0 nodes (Z.of_nat pos) (Some sv0) alpha
               m1 (Some v) k1); try discriminate. exact H. }
    rewrite H. simpl. eexists. split; [reflexivity|]. simpl. repeat split; lia.
  - simpl in Hm, Hl, Hk. subst m'. rewrite Hloop. eauto.
Qed.

Lemma sentVec_cases skip_gram m k sentence :
  (known_nodes (vocabulary m) sentence = []
   /\ sentVec skip_gram m k sentence = Throw InvalidInput)
  \/ (known_nodes (vocabulary m) sentence <> []
      /\ exists v k',
           sentVec skip_gram m k sentence = Ok (m, v, k')
           /\ length v = Z.to_nat (dimension (config m)) /\ (k <= k')%nat).
Proof.
  unfold sentVec. destruct (known_nodes (vocabulary m) sentence) as [|n nodes] eqn:E.
  - left. split; reflexivity.
  - right. split; [discriminate|].
    destruct (for_loop_invariant
                (fun st : MonolingualModel * vec * nat =>
                   st.1.1 = m /\ length st.1.2 = Z.to_nat (dimension (config m))
                   /\ (k <= st.2)%nat)
                (fun st it =>
                   sentVec_epoch skip_gram (n :: nodes)
                     (learning_rate (config m)
                      * (1 - inject_Z (Z.of_nat it) / inject_Z (iterations (config m)))) st)
                (Z.to_nat (iterations (config m))) 0%nat
                (m, zeros (Z.to_nat (dimension (config m))), k))
      as ([[m' sv'] k'] & Hloop & Hm & Hl & Hk).
    + simpl. unfold zeros. rewrite repeat_length. repeat split; lia.
    + intros [[m0 sv0] k0] it Hit (Hm & Hl & Hk). simpl in Hm, Hl, Hk. subst m0.
      destruct (sentVec_epoch_frozen skip_gram (n :: nodes)
                  (learning_rate (config m)
                   * (1 - inject_Z (Z.of_nat it) / inject_Z (iterations (config m))))
                  m sv0 k0) as (sv1 & k1 & H & Hl1 & Hk1).
      rewrite H. eexists. split; [reflexivity|]. simpl. repeat split; lia.
    + simpl in Hm, Hl, Hk. subst m'. rewrite Hloop. eauto.
Qed.

(** X17.  [sentVec] throws when no token of the sentence is in the
    vocabulary (the empty sentence among them).  Otherwise it returns a
    vector of [dimension] coordinates and leaves the model as it was: the
    parameters are frozen, whatever kernel the configuration selects. *)
Theorem sentVec_frozen (skip_gram : bool) (m : MonolingualModel) (k : nat)
    (sentence : string) :
  (Forall (fun w => vocabulary m !! w = None) (split sentence) ->
   sentVec skip_gram m k sentence = Throw InvalidInput)
  /\ (Exists (fun w => is_Some (vocabulary m !! w)) (split sentence) ->
      exists v k',
        sentVec skip_gram m k sentence = Ok (m, v, k')
        /\ length v = Z.to_nat (dimension (config m)) /\ (k <= k')%nat).
Proof.
  destruct (sentVec_cases skip_gram m k sentence) as [[E H]|[E H]]; split.
  - intros _. exact H.
  - intros Hex. exfalso. apply known_nodes_nil in E.
    apply Exists_exists in Hex as (w & Hw & [n Hn]).
    rewrite List.Forall_forall in E. apply list_elem_of_In in Hw.
    specialize (E w Hw). congruence.
  - intros Hall. exfalso. apply E, known_nodes_nil, Hall.
  - intros _. exact H.
Qed.

Lemma sentVectors_loop skip_gram m lines :
  forall sent_weights k,
    exists rows k',
      fold_left
        (fun acc line =>
           '(m, sent_weights, k) ← acc;
           '(m, embedding, k) ←
             try_catch (sentVec skip_gram m k line)
                       (fun _ => Ok (m, zeros (Z.to_nat (dimension (config m))), k));
           Ok (m, (sent_weights ++ [embedding])%list, k))
        lines (Ok (m, sent_weights, k))
      = Ok (m, (sent_weights ++ rows)%list, k')
      /\ length rows = length lines
      /\ Forall (fun r => length r = Z.to_nat (dimension (config m))) rows
      /\ forall i line,
           lines !! i = Some line ->
           Forall (fun w => vocabulary m !! w = None) (split line) ->
           rows !! i = Some (zeros (Z.to_nat (dimension (config m)))).
Proof.
  match goal with |- context [fold_left ?f] => set (body := f) end.
  induction lines as [|line lines IH]; intros sent_weights k; cbn [fold_left].
  - exists [], k. rewrite app_nil_r. repeat split; [constructor|]. intros i l H. discriminate.
  - assert (exists embedding k1,
              try_catch (sentVec skip_gram m k line)
                        (fun _ => Ok (m, zeros (Z.to_nat (dimension (config m))), k))
              = Ok (m, embedding, k1)
              /\ length embedding = Z.to_nat (dimension (config m))
              /\ (Forall (fun w => vocabulary m !! w = None) (split line) ->
                  embedding = zeros (Z.to_nat (dimension (config m))))) as
        (embedding & k1 & He & Hlen & Hz).
    { destruct (sentVec_cases skip_gram m k line) as [[E H]|[E (v & k1 & H & Hl & _)]];
        rewrite H; simpl.
      - eexists _, _. split; [reflexivity|]. unfold zeros. rewrite repeat_length.
        split; reflexivity.
      - exists v, k1. split; [reflexivity|]. split; [exact Hl|].
        intros Hall. exfalso. apply E, known_nodes_nil, Hall. }
    assert (body (Ok (m, sent_weights, k)) line
            = Ok (m, (sent_weights ++ [embedding])%list, k1)) as ->.
    { unfold body, mbind, outcome_bind. cbv beta iota. rewrite He. reflexivity. }
    destruct (IH (sent_weights ++ [embedding])%list k1) as (rows & k' & H & Hl & Hall & Hzero).
    exists (embedding :: rows), k'. rewrite H, <- app_assoc. simpl.
    split; [reflexivity|]. split; [lia|]. split; [constructor; assumption|].
    intros [|i] l Hi Hunk; simpl in *.
    + injection Hi as <-. rewrite Hz by exact Hunk. reflexivity.
    + eapply Hzero; eassumption.
Qed.

(** X18.  [sentVectors] never fails and leaves the model as it was; it
    fills [sent_weights] with one row of [dimension] coordinates for each
    line of the file, in order, and the row of a line without a token of
    the vocabulary is the vector of zeros. *)
Theorem sentVectors_rows (skip_gram : bool) (m : MonolingualModel) (k : nat)
    (lines : list string) :
  exists sent_weights k',
    sentVectors skip_gram m k lines = Ok (m, sent_weights, k')
    /\ length sent_weights = length lines
    /\ Forall (fun r => length r = Z.to_nat (dimension (config m))) sent_weights
    /\ forall i line,
         lines !! i = Some line ->
         Forall (fun w => vocabulary m !! w = None) (split line) ->
         sent_weights !! i = Some (zeros (Z.to_nat (dimension (config m)))).
Proof.
  destruct (sentVectors_loop skip_gram m lines [] k) as (rows & k' & H & Hrest).
  exists rows, k'. split; [exact H | exact Hrest].
Qed.

End SentVec.

(** ** Accounting and termination of a run *)

Lemma lines_words_nonneg r lines : (0 <= lines_words r lines)%Z.
Proof.
  induction lines as [|s lines IH]; simpl; [lia|].
  pose proof (trainSentence_words_nonneg (run_vocabulary r) s). lia.
Qed.

Lemma lines_words_app r l1 l2 :
  lines_words r (l1 ++ l2) = (lines_words r l1 + lines_words r l2)%Z.
Proof. induction l1 as [|s l1 IH]; simpl; [reflexivity|]. rewrite IH. lia. Qed.

Lemma sum_workers_insert f cs :
  forall ws i c w w',
    cs !! i = Some c -> ws !! i = Some w ->
    sum_workers f cs (<[i := w']> ws) = (sum_workers f cs ws - f c w + f c w')%Z.
Proof.
  unfold sum_workers. induction cs as [|c0 cs IH]; intros ws i c w w' Hc Hw; [discriminate|].
  destruct ws as [|w0 ws]; [discriminate|]. destruct i as [|i]; simpl in *.
  - injection Hc as ->. injection Hw as ->. lia.
  - rewrite (IH ws i c w w' Hc Hw). lia.
Qed.

Lemma sum_workers_nonneg f cs :
  (forall c w, (0 <= f c w)%Z) -> forall ws, (0 <= sum_workers f cs ws)%Z.
Proof.
  intros Hf. unfold sum_workers. induction cs as [|c cs IH]; intros [|w ws]; simpl; try lia.
  specialize (IH ws). specialize (Hf c w). lia.
Qed.

Lemma sum_workers_zero f cs :
  (forall c w, (0 <= f c w)%Z) ->
  forall ws,
    length ws = length cs ->
    (sum_workers f cs ws = 0%Z
     <-> forall i c w, cs !! i = Some c -> ws !! i = Some w -> f c w = 0%Z).
Proof.
  intros Hf. induction cs as [|c cs IH]; intros [|w ws] Hlen; try discriminate.
  - split; [intros _ i c w H; discriminate | reflexivity].
  - injection Hlen as Hlen. specialize (IH ws Hlen).
    pose proof (sum_workers_nonneg f cs Hf ws) as Hn. specialize (Hf c w).
    change (sum_workers f (c :: cs) (w :: ws)) with (f c w + sum_workers f cs ws)%Z.
    split.
    + intros H [|i] c' w' Hc Hw; simpl in *.
      * injection Hc as <-. injection Hw as <-. lia.
      * assert (sum_workers f cs ws = 0%Z) as H0 by lia.
        exact (proj1 IH H0 i c' w' Hc Hw).
    + intros H. rewrite (H 0%nat c w eq_refl eq_refl).
      assert (sum_workers f cs ws = 0%Z) as ->; [|reflexivity].
      apply IH. intros i c' w'. apply (H (S i)).
Qed.

Lemma steps_left_nonneg r c w : (0 <= steps_left r c w)%Z.
Proof. unfold steps_left. destruct (epoch w <? _)%Z eqn:E; [|lia]. apply Z.ltb_lt in E. nia. Qed.

Lemma steps_left_zero r c w :
  steps_left r c w = 0%Z <-> (iterations (run_config r) <= epoch w)%Z.
Proof.
  unfold steps_left. destruct (epoch w <? _)%Z eqn:E.
  - apply Z.ltb_lt in E. split; [nia | lia].
  - apply Z.ltb_ge in E. split; [intros _; exact E | reflexivity].
Qed.

Lemma owed_nonneg r c w : (0 <= word_count w)%Z -> (0 <= owed r c w)%Z.
Proof.
  intros Hc. unfold owed. destruct (epoch w <? _)%Z eqn:E; [|lia]. apply Z.ltb_lt in E.
  pose proof (lines_words_nonneg r (pending w)). pose proof (lines_words_nonneg r c). nia.
Qed.

(** A turn of a worker is one turn less to make. *)
Lemma trainChunk_step_steps r chunk locked wp w wp' w' :
  trainChunk_step r chunk locked wp w = Some (wp', w') ->
  steps_left r chunk w' = (steps_left r chunk w - 1)%Z.
Proof.
  intros Hstep. apply trainChunk_step_cases in Hstep as (E & _ & _ & Hcases).
  unfold steps_left.
  destruct Hcases as [(sent & rest & Hp & _ & _ & He & Hp' & _)
                     |[(sent & rest & Hp & _ & He & Hp' & _)|(Hp & He & Hp' & _)]];
    rewrite He, Hp', Hp.
  - destruct (epoch w <? _)%Z eqn:E1; [|apply Z.ltb_ge in E1; lia]. simpl length. lia.
  - destruct (epoch w <? _)%Z eqn:E1; [|apply Z.ltb_ge in E1; lia]. simpl length. lia.
  - destruct (epoch w <? _)%Z eqn:E1; [|apply Z.ltb_ge in E1; lia].
    destruct (epoch w + 1 <? iterations (run_config r))%Z eqn:E2.
    + simpl length. lia.
    + apply Z.ltb_ge in E2.
      assert (iterations (run_config r) - epoch w - 1 = 0)%Z as -> by lia. simpl length. lia.
Qed.

(** A turn of a worker takes a number [c] of words from what the worker
    owes; the store that the turn leaves to make, if any, is the store of
    the loaded value plus [c]. *)
Lemma trainChunk_step_owed r chunk locked wp w wp' w' :
  trainChunk_step r chunk locked wp w = Some (wp', w') ->
  (0 <= word_count w)%Z ->
  wp' = stored (accesses w) wp
  /\ exists c,
       (0 <= c)%Z /\ owed r chunk w' = (owed r chunk w - c)%Z
       /\ (0 <= word_count w')%Z
       /\ (forall v, In (Store v) (accesses w') -> v = (wp' + c)%Z)
       /\ stored (accesses w') wp' = (wp' + c)%Z.
Proof.
  intros Hstep Hwc. apply trainChunk_step_cases in Hstep as (E & Hwp & _ & Hcases).
  split; [exact Hwp|]. unfold owed.
  destruct (epoch w <? _)%Z eqn:E1; [|apply Z.ltb_ge in E1; lia].
  destruct Hcases as [(sent & rest & Hp & Hflush & _ & He & Hp' & Hc' & Ha)
                     |[(sent & rest & Hp & Hflush & He & Hp' & Hc' & Ha)
                      |(Hp & He & Hp' & Hc' & Ha)]];
    rewrite He, Hp', Hc', Hp, Ha.
  - pose proof (trainSentence_words_nonneg (run_vocabulary r) sent) as Hs.
    exists (word_count w + trainSentence_words (run_vocabulary r) sent)%Z.
    rewrite E1.
    change (lines_words r (sent :: rest))
      with (trainSentence_words (run_vocabulary r) sent + lines_words r rest)%Z.
    split; [lia|]. split; [lia|]. split; [lia|]. split; [|reflexivity].
    intros v [H|[H|[]]]; [injection H as <-; reflexivity | discriminate H].
  - pose proof (trainSentence_words_nonneg (run_vocabulary r) sent) as Hs.
    exists 0%Z. rewrite E1.
    change (lines_words r (sent :: rest))
      with (trainSentence_words (run_vocabulary r) sent + lines_words r rest)%Z.
    split; [lia|]. split; [lia|]. split; [lia|]. split; [intros v []|].
    cbn [stored fold_left]. lia.
  - exists (word_count w). change (lines_words r []) with 0%Z. split; [lia|]. split.
    + destruct (epoch w + 1 <? iterations (run_config r))%Z eqn:E2; [lia|].
      apply Z.ltb_ge in E2.
      assert (iterations (run_config r) - epoch w - 1 = 0)%Z as -> by lia. lia.
    + split; [lia|]. split; [|reflexivity].
      intros v [H|[]]. injection H as <-. reflexivity.
Qed.

Lemma train_reachable_workers r g :
  train_reachable r g -> length (workers g) = length (chunks r).
Proof.
  induction 1 as [|g g' _ IH Hstep|g g' _ IH Hacc].
  - simpl. apply length_map.
  - destruct Hstep. simpl. rewrite length_insert. exact IH.
  - destruct Hacc. simpl. rewrite length_insert. exact IH.
Qed.

Lemma train_init_owed r :
  sum_workers (owed r) (chunks r) (workers (train_init r))
  = (Z.max 0 (iterations (run_config r)) * lines_words r (concat (chunks r)))%Z.
Proof.
  unfold sum_workers, train_init. simpl.
  induction (chunks r) as [|c cs IH]; simpl; [lia|].
  rewrite IH, lines_words_app. unfold owed at 1. simpl.
  destruct (0 <? iterations (run_config r))%Z eqn:E;
    [apply Z.ltb_lt in E | apply Z.ltb_ge in E]; lia.
Qed.

Lemma train_init_steps r :
  sum_workers (steps_left r) (chunks r) (workers (train_init r))
  = (Z.max 0 (iterations (run_config r))
     * (Z.of_nat (length (concat (chunks r))) + Z.of_nat (length (chunks r))))%Z.
Proof.
  unfold sum_workers, train_init. simpl.
  induction (chunks r) as [|c cs IH]; simpl; [lia|].
  rewrite IH, length_app. unfold steps_left at 1. simpl.
  destruct (0 <? iterations (run_config r))%Z eqn:E;
    [apply Z.ltb_lt in E | apply Z.ltb_ge in E]; lia.
Qed.

(** *** The counter never exceeds the total *)

(** In every state of a run, [words_processed] and the value of every
    store that a worker has still to make are between 0 and the number of
    words that the workers have taken from what they owe. *)
Lemma train_reachable_bounded r g :
  train_reachable r g ->
  (forall i w, workers g !! i = Some w -> (0 <= word_count w)%Z)
  /\ (0 <= words_processed g)%Z
  /\ (words_processed g + sum_workers (owed r) (chunks r) (workers g)
      <= Z.max 0 (iterations (run_config r)) * lines_words r (concat (chunks r)))%Z
  /\ (forall i w v,
        workers g !! i = Some w -> In (Store v) (accesses w) ->
        (0 <= v)%Z
        /\ (v + sum_workers (owed r) (chunks r) (workers g)
            <= Z.max 0 (iterations (run_config r)) * lines_words r (concat (chunks r)))%Z).
Proof.
  set (T := (Z.max 0 (iterations (run_config r)) * lines_words r (concat (chunks r)))%Z).
  induction 1 as [|g g' Hg IH Hstep|g g' Hg IH Hacc].
  - rewrite train_init_owed. fold T. simpl. split.
    { intros i w Hw. apply list_lookup_fmap_Some in Hw as (chunk & -> & _). simpl. lia. }
    split; [lia|]. split; [lia|].
    intros i w v Hw Hin. apply list_lookup_fmap_Some in Hw as (chunk & -> & _).
    destruct Hin.
  - destruct IH as (Hwc & Hwp0 & Hwp & Hst).
    destruct Hstep as [g i chunk w w' wp' Hw Hchunk Hstep]. simpl.
    rewrite (sum_workers_insert (owed r) (chunks r) (workers g) i chunk w w' Hchunk Hw).
    destruct (trainChunk_step_owed r chunk _ _ w wp' w' Hstep (Hwc i w Hw))
      as (Hwp' & c & Hc & Howed & Hwc' & Hstore & _).
    assert (0 <= wp'
            /\ wp' + sum_workers (owed r) (chunks r) (workers g) <= T)%Z as [Hwp'0 Hwp'T].
    { rewrite Hwp'. destruct (stored_cases (accesses w) (words_processed g)) as [->|Hin].
      - split; assumption.
      - exact (Hst i w _ Hw Hin). }
    split.
    { intros j wj Hj. destruct (decide (i = j)) as [->|Hne].
      - rewrite list_lookup_insert_eq in Hj by (eapply lookup_lt_Some, Hw).
        injection Hj as <-. exact Hwc'.
      - rewrite list_lookup_insert_ne in Hj by exact Hne. exact (Hwc j wj Hj). }
    split; [exact Hwp'0|]. split; [lia|].
    intros j wj v Hj Hin. destruct (decide (i = j)) as [->|Hne].
    + rewrite list_lookup_insert_eq in Hj by (eapply lookup_lt_Some, Hw).
      injection Hj as <-. rewrite (Hstore v Hin). lia.
    + rewrite list_lookup_insert_ne in Hj by exact Hne.
      destruct (Hst j wj v Hj Hin). lia.
  - destruct IH as (Hwc & Hwp0 & Hwp & Hst).
    destruct Hacc as [g i w w' wp' Hw Hacc]. simpl.
    destruct (lookup_lt_is_Some_2 (chunks r) i) as [chunk Hchunk].
    { rewrite <- (train_reachable_workers r g Hg). eapply lookup_lt_Some, Hw. }
    rewrite (sum_workers_insert (owed r) (chunks r) (workers g) i chunk w w' Hchunk Hw).
    apply access_step_cases in Hacc as (a & rest & Ha & Ha' & He & Hp & Hc & Hwp' & _).
    assert (owed r chunk w' = owed r chunk w) as Howed.
    { unfold owed. rewrite He, Hp, Hc. reflexivity. }
    rewrite Howed.
    assert (0 <= wp'
            /\ wp' + sum_workers (owed r) (chunks r) (workers g) <= T)%Z as [Hwp'0 Hwp'T].
    { rewrite Hwp'. destruct a as [v|]; cbn [stored fold_left].
      - apply (Hst i w v Hw). rewrite Ha. left. reflexivity.
      - split; assumption. }
    split.
    { intros j wj Hj. destruct (decide (i = j)) as [->|Hne].
      - rewrite list_lookup_insert_eq in Hj by (eapply lookup_lt_Some, Hw).
        injection Hj as <-. rewrite Hc. exact (Hwc j w Hw).
      - rewrite list_lookup_insert_ne in Hj by exact Hne. exact (Hwc j wj Hj). }
    split; [exact Hwp'0|]. split; [lia|].
    intros j wj v Hj Hin. destruct (decide (i = j)) as [->|Hne].
    + rewrite list_lookup_insert_eq in Hj by (eapply lookup_lt_Some, Hw).
      injection Hj as <-.
      assert (In (Store v) (accesses w)) as Hin' by (rewrite Ha; right; rewrite <- Ha'; exact Hin).
      destruct (Hst j w v Hw Hin'). lia.
    + rewrite list_lookup_insert_ne in Hj by exact Hne.
      destruct (Hst j wj v Hj Hin). lia.
Qed.

(** *** One worker *)

(** With one worker nothing comes between a load and its store: the value
    of [words_processed] after the store that the worker has still to make,
    and what the worker owes, sum to the total. *)
Lemma train_reachable_single r c g :
  chunks r = [c] ->
  train_reachable r g ->
  exists w,
    workers g = [w]
    /\ (stored (accesses w) (words_processed g) + owed r c w
        = Z.max 0 (iterations (run_config r)) * lines_words r (concat (chunks r)))%Z.
Proof.
  intros Hcs. induction 1 as [|g g' Hg IH Hstep|g g' Hg IH Hacc].
  - pose proof (train_init_owed r) as Hinit. unfold train_init in *. rewrite Hcs in *.
    simpl in *. eexists. split; [reflexivity|]. simpl. unfold sum_workers in Hinit.
    simpl in Hinit. lia.
  - destruct IH as (w0 & Hws & Hsum).
    pose proof (train_reachable_bounded r g Hg) as (Hwc & _).
    destruct Hstep as [g i chunk w w' wp' Hw Hchunk Hstep]. simpl.
    rewrite Hcs in Hchunk. rewrite Hws in Hw. destruct i as [|i]; [|destruct i; discriminate].
    injection Hchunk as <-. injection Hw as <-. rewrite Hws.
    exists w'. split; [reflexivity|].
    destruct (trainChunk_step_owed r c _ _ w0 wp' w' Hstep)
      as (Hwp' & k & _ & Howed & _ & _ & Hstored).
    { apply (Hwc 0%nat). rewrite Hws. reflexivity. }
    rewrite Hstored, Howed, Hwp'. lia.
  - destruct IH as (w0 & Hws & Hsum).
    destruct Hacc as [g i w w' wp' Hw Hacc]. simpl.
    rewrite Hws in Hw. destruct i as [|i]; [|destruct i; discriminate].
    injection Hw as <-. rewrite Hws. exists w'. split; [reflexivity|].
    apply access_step_cases in Hacc as (a & rest & Ha & Ha' & He & Hp & Hc & Hwp' & _).
    assert (owed r c w' = owed r c w0) as -> by (unfold owed; rewrite He, Hp, Hc; reflexivity).
    rewrite Ha in Hsum. rewrite Ha', Hwp'. exact Hsum.
Qed.

(** X19.  Lost updates only lose: in every state of a run, whatever the
    number of workers and the order of their accesses, [words_processed] is
    between 0 and [iterations] times the tokens of the vocabulary in the
    chunks.  With one worker ([threads == 1]) the accounts are exact:
    [words_processed], once the worker has made the store it has still to
    make, and what the worker has still to add sum to that number, which is
    the value of [words_processed] when the worker has ended its epochs. *)
Theorem trainChunk_accounting (r : TrainingRun) (g : Progress) :
  train_reachable r g ->
  (0 <= words_processed g
   <= Z.max 0 (iterations (run_config r)) * lines_words r (concat (chunks r)))%Z
  /\ forall c, chunks r = [c] ->
       exists w,
         workers g = [w]
         /\ (stored (accesses w) (words_processed g) + owed r c w
             = Z.max 0 (iterations (run_config r)) * lines_words r (concat (chunks r)))%Z
         /\ ((iterations (run_config r) <= epoch w)%Z -> accesses w = [] ->
             words_processed g
             = (Z.max 0 (iterations (run_config r)) * lines_words r (concat (chunks r)))%Z).
Proof.
  intros Hg. split.
  - destruct (train_reachable_bounded r g Hg) as (Hwc & Hwp0 & Hwp & _).
    split; [exact Hwp0|].
    assert (0 <= sum_workers (owed r) (chunks r) (workers g))%Z; [|lia].
    revert Hwc. generalize (workers g). generalize (chunks r).
    unfold sum_workers. induction l as [|c cs IH]; intros [|w ws] Hwc; simpl; try lia.
    pose proof (owed_nonneg r c w (Hwc 0%nat w eq_refl)).
    assert (0 <= fold_right (fun cw acc => (owed r cw.1 cw.2 + acc)%Z) 0%Z (zip cs ws))%Z.
    { apply IH. intros i w'. apply (Hwc (S i)). }
    lia.
  - intros c Hcs. destruct (train_reachable_single r c g Hcs Hg) as (w & Hws & Hsum).
    exists w. split; [exact Hws|]. split; [exact Hsum|].
    intros Hdone Hnil. rewrite Hnil in Hsum. cbn [stored fold_left] in Hsum.
    unfold owed in Hsum.
    destruct (epoch w <? iterations (run_config r))%Z eqn:E; [apply Z.ltb_lt in E; lia|].
    lia.
Qed.

(** *** The mutex *)

Lemma existsb_false_lookup {A} (f : A -> bool) (l : list A) :
  existsb f l = false <-> forall j a, l !! j = Some a -> f a = false.
Proof.
  induction l as [|x l IH]; simpl.
  - split; [intros _ j a H; discriminate | reflexivity].
  - rewrite orb_false_iff, IH. split.
    + intros [Hx Hl] [|j] a Hj; simpl in Hj; [injection Hj as <-; exact Hx | eapply Hl, Hj].
    + intros H. split; [apply (H 0%nat), eq_refl | intros j a Hj; apply (H (S j)), Hj].
Qed.

Lemma locked_by_other_false ws :
  forall i,
    locked_by_other ws i = false
    <-> forall j w, j <> i -> ws !! j = Some w -> holds_print_mutex w = false.
Proof.
  unfold locked_by_other. induction ws as [|w0 ws IH]; intros i.
  - rewrite take_nil, drop_nil. simpl. split; [intros _ j w _ H; discriminate | reflexivity].
  - destruct i as [|i].
    + cbn [take drop app]. rewrite drop_0, existsb_false_lookup. split.
      * intros H [|j] w Hne Hj; [contradiction | eapply H, Hj].
      * intros H j w Hj. apply (H (S j)); [discriminate | exact Hj].
    + cbn [take drop app existsb]. rewrite orb_false_iff, IH. split.
      * intros [H0 H] [|j] w Hne Hj; simpl in Hj.
        -- injection Hj as <-. exact H0.
        -- apply (H j); [congruence | exact Hj].
      * intros H. split; [apply (H 0%nat); [discriminate | reflexivity]|].
        intros j w Hne Hj. apply (H (S j)); [congruence | exact Hj].
Qed.

(** A worker that has entered the block of [print_mutex] found it free. *)
Lemma trainChunk_step_holds r chunk locked wp w wp' w' :
  trainChunk_step r chunk locked wp w = Some (wp', w') ->
  holds_print_mutex w' = true ->
  locked = false /\ (epoch w' < iterations (run_config r))%Z.
Proof.
  intros Hstep Hh. apply trainChunk_step_cases in Hstep as (E & _ & _ & Hcases).
  unfold holds_print_mutex in Hh.
  destruct Hcases as [(sent & rest & _ & _ & Hl & He & _)
                     |[(sent & rest & _ & _ & _ & _ & _ & Ha)|(_ & _ & _ & _ & Ha)]].
  - split; [exact Hl | lia].
  - rewrite Ha in Hh. discriminate Hh.
  - rewrite Ha in Hh. discriminate Hh.
Qed.

(** At most one worker is in the block of [print_mutex], and it has not
    ended its epochs. *)
Lemma train_reachable_mutex r g :
  train_reachable r g ->
  (forall i j wi wj,
     workers g !! i = Some wi -> workers g !! j = Some wj ->
     holds_print_mutex wi = true -> holds_print_mutex wj = true -> i = j)
  /\ (forall i w,
        workers g !! i = Some w -> holds_print_mutex w = true ->
        (epoch w < iterations (run_config r))%Z).
Proof.
  induction 1 as [|g g' Hg IH Hstep|g g' Hg IH Hacc].
  - split.
    + intros i j wi wj Hi _ Hh. simpl in Hi.
      apply list_lookup_fmap_Some in Hi as (chunk & -> & _). discriminate Hh.
    + intros i w Hi Hh. simpl in Hi.
      apply list_lookup_fmap_Some in Hi as (chunk & -> & _). discriminate Hh.
  - destruct IH as [Hone Hep]. destruct Hstep as [g i chunk w w' wp' Hw Hchunk Hstep].
    pose proof (trainChunk_step_holds r chunk _ _ w wp' w' Hstep) as Hholds.
    pose proof (lookup_lt_Some _ _ _ Hw) as Hlt. simpl. split.
    + intros j1 j2 w1 w2 H1 H2 Hh1 Hh2.
      destruct (decide (i = j1)) as [<-|Hne1]; destruct (decide (i = j2)) as [<-|Hne2];
        try reflexivity.
      * rewrite list_lookup_insert_eq in H1 by exact Hlt. injection H1 as <-.
        rewrite list_lookup_insert_ne in H2 by exact Hne2.
        destruct (Hholds Hh1) as [Hfree _].
        rewrite (proj1 (locked_by_other_false (workers g) i) Hfree j2 w2) in Hh2;
          [discriminate Hh2 | congruence | exact H2].
      * rewrite list_lookup_insert_eq in H2 by exact Hlt. injection H2 as <-.
        rewrite list_lookup_insert_ne in H1 by exact Hne1.
        destruct (Hholds Hh2) as [Hfree _].
        rewrite (proj1 (locked_by_other_false (workers g) i) Hfree j1 w1) in Hh1;
          [discriminate Hh1 | congruence | exact H1].
      * rewrite list_lookup_insert_ne in H1 by exact Hne1.
        rewrite list_lookup_insert_ne in H2 by exact Hne2.
        exact (Hone j1 j2 w1 w2 H1 H2 Hh1 Hh2).
    + intros j wj Hj Hh. destruct (decide (i = j)) as [<-|Hne].
      * rewrite list_lookup_insert_eq in Hj by exact Hlt. injection Hj as <-.
        apply (Hholds Hh).
      * rewrite list_lookup_insert_ne in Hj by exact Hne. exact (Hep j wj Hj Hh).
  - destruct IH as [Hone Hep]. destruct Hacc as [g i w w' wp' Hw Hacc].
    pose proof (lookup_lt_Some _ _ _ Hw) as Hlt.
    apply access_step_cases in Hacc as (a & rest & Ha & Ha' & He & _).
    assert (holds_print_mutex w' = true -> holds_print_mutex w = true) as Hholds.
    { unfold holds_print_mutex. rewrite Ha, Ha'. simpl. intros ->. apply orb_true_r. }
    simpl. split.
    + intros j1 j2 w1 w2 H1 H2 Hh1 Hh2. apply (Hone j1 j2
        (if decide (i = j1) then w else w1) (if decide (i = j2) then w else w2)).
      * destruct (decide (i = j1)) as [<-|Hne]; [exact Hw|].
        rewrite list_lookup_insert_ne in H1 by exact Hne. exact H1.
      * destruct (decide (i = j2)) as [<-|Hne]; [exact Hw|].
        rewrite list_lookup_insert_ne in H2 by exact Hne. exact H2.
      * destruct (decide (i = j1)) as [<-|Hne]; [|exact Hh1].
        rewrite list_lookup_insert_eq in H1 by exact Hlt. injection H1 as <-.
        exact (Hholds Hh1).
      * destruct (decide (i = j2)) as [<-|Hne]; [|exact Hh2].
        rewrite list_lookup_insert_eq in H2 by exact Hlt. injection H2 as <-.
        exact (Hholds Hh2).
    + intros j wj Hj Hh. destruct (decide (i = j)) as [<-|Hne].
      * rewrite list_lookup_insert_eq in Hj by exact Hlt. injection Hj as <-.
        rewrite He. exact (Hep i w Hw (Hholds Hh)).
      * rewrite list_lookup_insert_ne in Hj by exact Hne. exact (Hep j wj Hj Hh).
Qed.

(** A worker that has epochs to make and that the mutex does not stop. *)
Lemma train_reachable_unblocked r g :
  train_reachable r g ->
  (0 < sum_workers (steps_left r) (chunks r) (workers g))%Z ->
  exists i c w,
    chunks r !! i = Some c /\ workers g !! i = Some w
    /\ (epoch w < iterations (run_config r))%Z
    /\ locked_by_other (workers g) i = false.
Proof.
  intros Hg Hpos. pose proof (train_reachable_workers r g Hg) as Hlen.
  destruct (train_reachable_mutex r g Hg) as [Hone Hep].
  destruct (existsb holds_print_mutex (workers g)) eqn:Hex.
  - apply existsb_exists in Hex as (w & Hin & Hh).
    apply (proj2 (list_elem_of_In _ _)), list_elem_of_lookup in Hin as [i Hw].
    destruct (lookup_lt_is_Some_2 (chunks r) i) as [c Hc].
    { rewrite <- Hlen. eapply lookup_lt_Some, Hw. }
    exists i, c, w. split; [exact Hc|]. split; [exact Hw|]. split; [exact (Hep i w Hw Hh)|].
    apply locked_by_other_false. intros j wj Hne Hj.
    destruct (holds_print_mutex wj) eqn:Hhj; [|reflexivity].
    exfalso. apply Hne. exact (Hone j i wj w Hj Hw Hhj Hh).
  - assert (exists i c w, chunks r !! i = Some c /\ workers g !! i = Some w
                          /\ (epoch w < iterations (run_config r))%Z)
      as (i & c & w & Hc & Hw & He).
    { clear -Hlen Hpos. revert Hlen Hpos. generalize (workers g). generalize (chunks r).
      unfold sum_workers. induction l as [|c cs IH]; intros [|w ws] Hlen Hpos;
        simpl in *; try lia.
      destruct (Z_lt_le_dec (epoch w) (iterations (run_config r))) as [He|He].
      - exists 0%nat, c, w. repeat split; assumption.
      - destruct (IH ws ltac:(lia)) as (i & c' & w' & Hc & Hw & He').
        + pose proof (proj2 (steps_left_zero r c w) He). lia.
        + exists (S i), c', w'. repeat split; assumption. }
    exists i, c, w. split; [exact Hc|]. split; [exact Hw|]. split; [exact He|].
    apply locked_by_other_false. intros j wj _ Hj.
    exact (proj1 (existsb_false_lookup _ _) Hex j wj Hj).
Qed.

(** Every turn and every access is one move less to make, at least: a run
    has no infinite schedule. *)
Lemma train_moves_decrease r g g' :
  train_reachable r g ->
  train_step r g g' \/ train_access r g g' ->
  (0 <= sum_workers (moves_left r) (chunks r) (workers g')
   < sum_workers (moves_left r) (chunks r) (workers g))%Z.
Proof.
  intros Hg Hmove.
  assert (forall c w, (0 <= moves_left r c w)%Z) as Hnn.
  { intros c w. unfold moves_left. pose proof (steps_left_nonneg r c w). lia. }
  split; [apply sum_workers_nonneg, Hnn|].
  destruct Hmove as [Hstep|Hacc].
  - destruct Hstep as [g i chunk w w' wp' Hw Hchunk Hstep]. simpl.
    rewrite (sum_workers_insert (moves_left r) (chunks r) (workers g) i chunk w w' Hchunk Hw).
    pose proof (trainChunk_step_steps r chunk _ _ w wp' w' Hstep) as Hs.
    apply trainChunk_step_cases in Hstep as (_ & _ & _ & Hcases).
    unfold moves_left. rewrite Hs.
    destruct Hcases as [(sent & rest & _ & _ & _ & _ & _ & _ & Ha)
                       |[(sent & rest & _ & _ & _ & _ & _ & Ha)|(_ & _ & _ & _ & Ha)]];
      rewrite Ha; simpl length; lia.
  - destruct Hacc as [g i w w' wp' Hw Hacc]. simpl.
    destruct (lookup_lt_is_Some_2 (chunks r) i) as [chunk Hchunk].
    { rewrite <- (train_reachable_workers r g Hg). eapply lookup_lt_Some, Hw. }
    rewrite (sum_workers_insert (moves_left r) (chunks r) (workers g) i chunk w w' Hchunk Hw).
    apply access_step_cases in Hacc as (a & rest & Ha & Ha' & He & Hp & _).
    unfold moves_left, steps_left. rewrite He, Hp, Ha, Ha'. simpl length. lia.
Qed.

(** X20.  Every step of a run, of whatever worker, is one step less to
    make: a run from [train] ends after [iterations * (lines + workers)]
    steps, one for each line and one for the end of each epoch of each
    worker, and it has ended when every worker is through its epochs.  A
    step is a turn of a worker ([train_step]); the accesses to
    [words_processed] that a turn leaves to make are counted by
    [train_moves_decrease]. *)
Theorem trainChunk_terminates (r : TrainingRun) :
  sum_workers (steps_left r) (chunks r) (workers (train_init r))
  = (Z.max 0 (iterations (run_config r))
     * (Z.of_nat (length (concat (chunks r))) + Z.of_nat (length (chunks r))))%Z
  /\ (forall g g',
        train_reachable r g -> train_step r g g' ->
        sum_workers (steps_left r) (chunks r) (workers g')
        = (sum_workers (steps_left r) (chunks r) (workers g) - 1)%Z)
  /\ (forall g,
        train_reachable r g ->
        (0 <= sum_workers (steps_left r) (chunks r) (workers g))%Z
        /\ (sum_workers (steps_left r) (chunks r) (workers g) = 0%Z
            <-> forall i w, workers g !! i = Some w ->
                            (iterations (run_config r) <= epoch w)%Z)
        /\ ((exists g', train_step r g g')
            <-> (0 < sum_workers (steps_left r) (chunks r) (workers g))%Z)).
Proof.
  split; [apply train_init_steps|]. split.
  - intros g g' _ Hstep. destruct Hstep as [g i chunk w w' wp' Hw Hchunk Hstep]. simpl.
    rewrite (sum_workers_insert (steps_left r) (chunks r) (workers g) i chunk w w' Hchunk Hw).
    apply trainChunk_step_steps in Hstep. lia.
  - intros g Hg. pose proof (train_reachable_workers r g Hg) as Hlen.
    pose proof (sum_workers_nonneg (steps_left r) (chunks r) (steps_left_nonneg r) (workers g))
      as Hnn.
    assert (sum_workers (steps_left r) (chunks r) (workers g) = 0%Z
            <-> forall i w, workers g !! i = Some w ->
                            (iterations (run_config r) <= epoch w)%Z) as Hzero.
    { rewrite (sum_workers_zero (steps_left r) (chunks r) (steps_left_nonneg r) _ Hlen). split.
      - intros H i w Hw.
        destruct (lookup_lt_is_Some_2 (chunks r) i) as [c Hc].
        { rewrite <- Hlen. eapply lookup_lt_Some, Hw. }
        apply (steps_left_zero r c w), (H i c w Hc Hw).
      - intros H i c w Hc Hw. apply steps_left_zero, (H i w Hw). }
    split; [exact Hnn|]. split; [exact Hzero|]. split.
    + intros [g' Hstep]. destruct Hstep as [g i chunk w w' wp' Hw Hchunk Hstep].
      destruct (Z.eq_dec (sum_workers (steps_left r) (chunks r) (workers g)) 0%Z) as [H0|H0];
        [|lia].
      exfalso. pose proof (proj1 Hzero H0 i w Hw) as H1.
      apply trainChunk_step_cases in Hstep as [E _]. lia.
    + intros Hpos.
      destruct (train_reachable_unblocked r g Hg Hpos) as (i & c & w & Hc & Hw & He & Hfree).
      destruct (trainChunk_step_enabled r c (words_processed g) w He) as [[wp' w'] Hstep].
      eexists. eapply train_step_worker; [exact Hw | exact Hc |].
      rewrite Hfree. exact Hstep.
Qed.

(** ** The sequence queries of the bilingual model *)

Section MoreBilingualFacts.
Context {U : Utils}.

Lemma bilingual_ngrams_loop b policy (pre1 pre2 words1 words2 : list string) res n :
  length pre1 = length pre2 ->
  for_loop (length pre1) (length words1)
           (bilingual_ngrams_step b (pre1 ++ words1) (pre2 ++ words2) policy) (res, n)
  = if (length words1 <=? length words2)%nat
    then Ok (bilingual_pairs_sum b policy words1 words2 res, (n + Z.of_nat (length words1))%Z)
    else Undefined.
Proof.
  revert pre1 pre2 words2 res n.
  induction words1 as [|w1 words1 IH]; intros pre1 pre2 words2 res n Hpre.
  - simpl. unfold for_loop. simpl. do 2 f_equal. lia.
  - destruct words2 as [|w2 words2].
    + simpl length. rewrite for_loop_S.
      assert (bilingual_ngrams_step b (pre1 ++ w1 :: words1) (pre2 ++ []) policy (res, n)
                (length pre1) = Undefined) as ->.
      { unfold bilingual_ngrams_step, at_index.
        rewrite (list_lookup_middle pre1 words1 w1 (length pre1) eq_refl).
        rewrite app_nil_r, (lookup_ge_None_2 pre2) by lia. reflexivity. }
      reflexivity.
    + simpl length. rewrite for_loop_S.
      assert (bilingual_ngrams_step b (pre1 ++ w1 :: words1) (pre2 ++ w2 :: words2) policy
                (res, n) (length pre1)
              = Ok (res + bilingual_similarity b w1 w2 policy, (n + 1)%Z)) as ->.
      { unfold bilingual_ngrams_step, at_index.
        rewrite (list_lookup_middle pre1 words1 w1 (length pre1) eq_refl).
        rewrite (list_lookup_middle pre2 words2 w2 (length pre1) Hpre). reflexivity. }
      simpl.
      replace (pre1 ++ w1 :: words1)%list with ((pre1 ++ [w1]) ++ words1)%list
        by (rewrite <- app_assoc; reflexivity).
      replace (pre2 ++ w2 :: words2)%list with ((pre2 ++ [w2]) ++ words2)%list
        by (rewrite <- app_assoc; reflexivity).
      replace (S (length pre1)) with (length (pre1 ++ [w1])%list)
        by (rewrite length_app; simpl; lia).
      rewrite IH by (rewrite !length_app; simpl; lia).
      destruct (length words1 <=? length words2)%nat; [|reflexivity].
      do 2 f_equal. lia.
Qed.

Lemma bilingual_pairs_sum_unknown b policy src_words trg_words :
  Forall (fun w => vocabulary (src_model b) !! w = None) src_words ->
  forall res, bilingual_pairs_sum b policy src_words trg_words res == res.
Proof.
  intros Hall. revert trg_words.
  induction Hall as [|w src_words Hw _ IH]; intros trg_words res; simpl; [reflexivity|].
  destruct trg_words as [|w2 trg_words]; [reflexivity|].
  rewrite IH. unfold bilingual_similarity. rewrite Hw. ring.
Qed.

(** X21.  [BilingualModel::similarityNgrams] never throws [ShapeMismatch].
    When the source sequence has at most as many tokens as the target one,
    it returns the sum of the similarities of the pairs divided by the
    number of tokens of the source sequence, a pair with an unknown word
    counting 0: so it returns 0, and does not throw, when no source word is
    known.  [AllOOV] is thrown only for a source sequence without token, and
    a longer source sequence makes the loop read the target one out of
    range. *)
Theorem bilingual_similarityNgrams_pairs (b : BilingualModel) (src_seq trg_seq : string)
    (policy : Z) :
  bilingual_similarityNgrams b src_seq trg_seq policy <> Throw ShapeMismatch
  /\ ((length (split src_seq) <= length (split trg_seq))%nat ->
      bilingual_similarityNgrams b src_seq trg_seq policy =
        if (length (split src_seq) =? 0)%nat then Throw AllOOV
        else Ok (bilingual_pairs_sum b policy (split src_seq) (split trg_seq) 0
                 / inject_Z (Z.of_nat (length (split src_seq)))))
  /\ ((0 < length (split src_seq) <= length (split trg_seq))%nat ->
      Forall (fun w => vocabulary (src_model b) !! w = None) (split src_seq) ->
      exists q, bilingual_similarityNgrams b src_seq trg_seq policy = Ok q /\ q == 0)
  /\ ((length (split trg_seq) < length (split src_seq))%nat ->
      bilingual_similarityNgrams b src_seq trg_seq policy = Undefined).
Proof.
  pose proof (bilingual_ngrams_loop b policy [] [] (split src_seq) (split trg_seq) 0 0%Z
                eq_refl) as H.
  simpl in H. unfold bilingual_similarityNgrams. rewrite Nat.eqb_refl. simpl negb. cbv iota.
  rewrite H.
  assert ((length (split src_seq) <= length (split trg_seq))%nat ->
          (if (length (split src_seq) <=? length (split trg_seq))%nat
           then Ok (bilingual_pairs_sum b policy (split src_seq) (split trg_seq) 0,
                    Z.of_nat (length (split src_seq)))
           else Undefined)
          ≫= (fun acc : Q * Z =>
                if (acc.2 =? 0)%Z then Throw AllOOV else Ok (acc.1 / inject_Z acc.2))
          = if (length (split src_seq) =? 0)%nat then Throw AllOOV
            else Ok (bilingual_pairs_sum b policy (split src_seq) (split trg_seq) 0
                     / inject_Z (Z.of_nat (length (split src_seq))))) as Hle.
  { intros Hlen.
    replace (length (split src_seq) <=? length (split trg_seq))%nat with true
      by (symmetry; apply Nat.leb_le; exact Hlen).
    simpl. destruct (length (split src_seq)) as [|k]; reflexivity. }
  split; [|split; [exact Hle|split]].
  - destruct (length (split src_seq) <=? length (split trg_seq))%nat; simpl; [|discriminate].
    destruct (_ =? 0)%Z; discriminate.
  - intros [Hpos Hlen] Hall. specialize (Hle Hlen).
    replace (length (split src_seq) =? 0)%nat with false in Hle
      by (symmetry; apply Nat.eqb_neq; lia).
    eexists. split; [exact Hle|].
    rewrite (bilingual_pairs_sum_unknown b policy _ (split trg_seq) Hall 0).
    unfold Qdiv. ring.
  - intros Hlen.
    replace (length (split src_seq) <=? length (split trg_seq))%nat with false
      by (symmetry; apply Nat.leb_gt; exact Hlen).
    reflexivity.
Qed.

(** X22.  [BilingualModel::similaritySentence] never fails: it is the
    cosine formula on the sum of the vectors of the source words that the
    source model knows and the sum for the target words that the target
    model knows, and 0 when the product of the norms is 0; it is 0 when one
    of the two sentences has no known word. *)
Theorem bilingual_similaritySentence_known_words (b : BilingualModel)
    (src_seq trg_seq : string) (policy : Z) :
  let d := Z.to_nat (dimension (bi_config b)) in
  let src_vec :=
    known_sum (src_model b) (known_words (src_model b) (split src_seq)) policy (zeros d) in
  let trg_vec :=
    known_sum (trg_model b) (known_words (trg_model b) (split trg_seq)) policy (zeros d) in
  bilingual_similaritySentence b src_seq trg_seq policy
  = Ok (if Qeq_bool (norm src_vec * norm trg_vec) 0 then 0
        else dot src_vec trg_vec / (norm src_vec * norm trg_vec))
  /\ (known_words (src_model b) (split src_seq) = []
      \/ known_words (trg_model b) (split trg_seq) = [] ->
      exists q, bilingual_similaritySentence b src_seq trg_seq policy = Ok q /\ q == 0).
Proof.
  intros d src_vec trg_vec.
  assert (bilingual_similaritySentence b src_seq trg_seq policy
          = Ok (if Qeq_bool (norm src_vec * norm trg_vec) 0 then 0
                else dot src_vec trg_vec / (norm src_vec * norm trg_vec))) as Heq.
  { unfold bilingual_similaritySentence. rewrite !sentence_sum_known.
    subst src_vec trg_vec d. rewrite <- !known_sum_known_words.
    cbn [mbind outcome_bind]. destruct (Qeq_bool _ 0); reflexivity. }
  split; [exact Heq|].
  intros Hnone. rewrite Heq. eexists. split; [reflexivity|].
  destruct (Qeq_bool _ 0); [reflexivity|].
  assert (dot src_vec trg_vec == 0) as ->.
  { unfold src_vec, trg_vec. destruct Hnone as [-> | ->]; simpl.
    - apply dot_zeros_l.
    - apply dot_zeros_r. }
  unfold Qdiv. ring.
Qed.

End MoreBilingualFacts.

(** ** The pairs of dictionaryInduction *)

Section DictionaryBest.
Context {U : Utils}.

(** The inner loop of [dictionaryInduction] from a current best [t]: it
    ends on a target word that no word before it reaches and no word after
    it exceeds. *)
Lemma best_target_loop (src_vec : vec) (rest : list (string * vec)) :
  forall pre t mid,
    Forall (fun t' => dot src_vec t'.2 < dot src_vec t.2) pre ->
    Forall (fun t' => dot src_vec t'.2 <= dot src_vec t.2) mid ->
    exists pre' t' post',
      (pre ++ t :: mid ++ rest)%list = (pre' ++ t' :: post')%list
      /\ fold_left (fun acc trg_it =>
                      let sim := dot src_vec trg_it.2 in
                      match acc.1 with
                      | None => (Some trg_it, sim)
                      | Some _ => if Qltb acc.2 sim then (Some trg_it, sim) else acc
                      end)
                   rest (Some t, dot src_vec t.2)
         = (Some t', dot src_vec t'.2)
      /\ Forall (fun x => dot src_vec x.2 < dot src_vec t'.2) pre'
      /\ Forall (fun x => dot src_vec x.2 <= dot src_vec t'.2) post'.
Proof.
  induction rest as [|x rest IH]; intros pre t mid Hpre Hmid.
  - exists pre, t, mid. rewrite app_nil_r. repeat split; assumption.
  - cbn [fold_left]. cbv zeta. cbn [fst snd].
    destruct (Qltb (dot src_vec t.2) (dot src_vec x.2)) eqn:E.
    + apply Qltb_lt in E.
      destruct (IH (pre ++ t :: mid)%list x []) as (pre' & t' & post' & Heq & Hfold & H1 & H2).
      * apply Forall_app. split; [|constructor].
        -- eapply List.Forall_impl; [|exact Hpre]. intros a Ha. simpl in Ha. lra.
        -- exact E.
        -- eapply List.Forall_impl; [|exact Hmid]. intros a Ha. simpl in Ha. lra.
      * constructor.
      * exists pre', t', post'. split; [|repeat split; assumption].
        rewrite <- Heq. rewrite <- !app_assoc. reflexivity.
    + apply Qltb_ge in E.
      destruct (IH pre t (mid ++ [x])%list Hpre) as (pre' & t' & post' & Heq & Hfold & H1 & H2).
      * apply Forall_app. split; [exact Hmid|]. constructor; [exact E | constructor].
      * exists pre', t', post'. split; [|repeat split; assumption].
        rewrite <- Heq. rewrite <- !app_assoc. reflexivity.
Qed.

Lemma best_target_first (src_vec : vec) (trg_words : list (string * vec)) :
  trg_words <> [] ->
  exists pre t post,
    trg_words = (pre ++ t :: post)%list
    /\ (best_target src_vec trg_words).1 = Some t
    /\ Forall (fun x => dot src_vec x.2 < dot src_vec t.2) pre
    /\ Forall (fun x => dot src_vec x.2 <= dot src_vec t.2) post.
Proof.
  intros Hne. destruct trg_words as [|t0 rest]; [contradiction|].
  destruct (best_target_loop src_vec rest [] t0 [] ltac:(constructor) ltac:(constructor))
    as (pre & t & post & Heq & Hfold & H1 & H2).
  exists pre, t, post. split; [exact Heq|]. split; [|split; assumption].
  unfold best_target. cbn [fold_left]. cbv zeta in Hfold |- *. cbn [fst].
  rewrite Hfold. reflexivity.
Qed.

(** X23.  The free function [dictionaryInduction] appends one pair for each
    source word, in order, when there is a target word, and nothing when
    there is none.  The target of a pair is the first target word of
    greatest scalar product with the source vector: no target word before it
    reaches its product and no target word after it exceeds it. *)
Theorem dictionaryInduction_words_best (src_words trg_words : list (string * vec))
    (dictionary : list (string * string)) :
  (trg_words = [] -> dictionaryInduction_words src_words trg_words dictionary = dictionary)
  /\ (trg_words <> [] ->
      exists picks,
        dictionaryInduction_words src_words trg_words dictionary = (dictionary ++ picks)%list
        /\ Forall2 (fun it pick =>
                      pick.1 = it.1
                      /\ exists pre t post,
                           trg_words = (pre ++ t :: post)%list
                           /\ pick.2 = t.1
                           /\ Forall (fun x => dot it.2 x.2 < dot it.2 t.2) pre
                           /\ Forall (fun x => dot it.2 x.2 <= dot it.2 t.2) post)
                   src_words picks).
Proof.
  split.
  - intros ->. unfold dictionaryInduction_words.
    induction src_words as [|it src_words IH]; simpl; [reflexivity | exact IH].
  - intros Hne. revert dictionary.
    induction src_words as [|it src_words IH]; intros dictionary.
    + exists []. rewrite app_nil_r. split; [reflexivity | constructor].
    + destruct (best_target_first it.2 trg_words Hne) as (pre & t & post & Heq & Hbest & H1 & H2).
      destruct (IH (dictionary ++ [(it.1, t.1)])%list) as (picks & Hpicks & Hall).
      exists ((it.1, t.1) :: picks). split.
      * unfold dictionaryInduction_words in *. cbn [fold_left]. rewrite Hbest, Hpicks.
        rewrite <- app_assoc. reflexivity.
      * constructor; [|exact Hall]. split; [reflexivity|].
        exists pre, t, post. repeat split; assumption.
Qed.

End DictionaryBest.

(** ** learnMapping on a dictionary without a known pair *)

Lemma known_pairs_nil (b : BilingualModel) (dict : list (string * string)) :
  Forall (fun it => vocabulary (src_model b) !! it.1 = None
                    \/ vocabulary (trg_model b) !! it.2 = None) dict ->
  known_pairs b dict = [].
Proof.
  unfold known_pairs. induction 1 as [|it dict Hit _ IH]; simpl; [reflexivity|].
  destruct Hit as [-> | Hit]; [exact IH|].
  rewrite Hit. destruct (vocabulary (src_model b) !! it.1); exact IH.
Qed.

Section LearnMappingFacts.
Variable shuffle : nat -> list (Z * Z) -> list (Z * Z).
Hypothesis shuffle_perm : forall k l, shuffle k l ≡ₚ l.

(** Without a pair to train on, a turn of the loop finds the loss 0 and
    leaves the matrix, the patience and the learning rate as they are. *)
Lemma learnMapping_turn_idle src_weights trg_weights turn st :
  dict_indices st = [] ->
  best_loss st <= 0 ->
  patience st <> 0%Z ->
  exists st',
    learnMapping_turn shuffle src_weights trg_weights turn st = Ok (st', false)
    /\ dict_indices st' = [] /\ best_loss st' <= 0
    /\ patience st' = patience st /\ mapping_alpha st' = mapping_alpha st
    /\ mapping st' = mapping st.
Proof.
  intros Hnil Hbest Hpat. unfold learnMapping_turn. rewrite Hnil.
  assert (shuffle turn [] = []) as ->
    by (apply Permutation_nil; symmetry; apply shuffle_perm).
  cbn [fold_left mbind outcome_bind]. cbv zeta.
  assert (Qltb 0 (best_loss st) = false) as -> by (apply Qltb_ge; exact Hbest).
  assert (Qle_bool (best_loss st) 0 = true) as -> by (apply Qle_bool_iff; exact Hbest).
  cbn [andb].
  replace (patience st =? 0)%Z with false by (symmetry; apply Z.eqb_neq; exact Hpat).
  eexists. split; [reflexivity|]. simpl. repeat split; try reflexivity. lra.
Qed.

Lemma learnMapping_loop_idle src_weights trg_weights fuel :
  forall turn st,
    dict_indices st = [] ->
    best_loss st <= 0 ->
    patience st <> 0%Z ->
    1 # 10000000000 < mapping_alpha st ->
    learnMapping_loop shuffle src_weights trg_weights fuel turn st = Ok None.
Proof.
  induction fuel as [|fuel IH]; intros turn st Hnil Hbest Hpat Halpha; [reflexivity|].
  cbn [learnMapping_loop].
  assert (Qltb (1 # 10000000000) (mapping_alpha st) = true) as ->
    by (apply Qltb_lt; exact Halpha).
  destruct (learnMapping_turn_idle src_weights trg_weights turn st Hnil Hbest Hpat)
    as (st' & Hturn & Hnil' & Hbest' & Hpat' & Halpha' & _).
  rewrite Hturn. cbn [mbind outcome_bind]. cbv iota beta.
  apply IH; [exact Hnil' | exact Hbest' | congruence | rewrite Halpha'; exact Halpha].
Qed.

(** X24.  On a dictionary of which no pair is known to both vocabularies,
    the empty dictionary among them, the loop of [learnMapping] does not
    end: the loss of every turn is 0, so [best_loss] never becomes positive,
    [patience] is never decremented and [alpha] is never halved.  Whatever
    the number of turns, the loop is still running after them. *)
Theorem learnMapping_no_known_pair (b : BilingualModel) (dict : list (string * string)) :
  Forall (fun it => vocabulary (src_model b) !! it.1 = None
                    \/ vocabulary (trg_model b) !! it.2 = None) dict ->
  forall fuel, learnMapping shuffle b dict fuel = Ok None.
Proof.
  intros Hdict fuel. unfold learnMapping.
  apply learnMapping_loop_idle; simpl.
  - apply known_pairs_nil, Hdict.
  - lra.
  - discriminate.
  - reflexivity.
Qed.

End LearnMappingFacts.

(** ** chunkify: which lines each worker reads *)

Lemma substring_all (s : string) : substring 0 (String.length s) s = s.
Proof. induction s as [|c s IH]; simpl; [reflexivity|]. rewrite IH. reflexivity. Qed.

Lemma line_positions_from_length pos lines :
  length (line_positions_from pos lines) = S (length lines).
Proof.
  revert pos. induction lines as [|line lines IH]; intros pos; simpl; [reflexivity|].
  rewrite IH. reflexivity.
Qed.

Lemma line_offset_0 lines : line_offset lines 0 = 0%Z.
Proof. unfold line_offset. rewrite take_0. reflexivity. Qed.

Lemma line_offset_S line lines k :
  line_offset (line :: lines) (S k)
  = (Z.of_nat (String.length line) + 1 + line_offset lines k)%Z.
Proof. reflexivity. Qed.

Lemma line_offset_nonneg lines k : (0 <= line_offset lines k)%Z.
Proof.
  revert k. induction lines as [|line lines IH]; intros [|k];
    try (unfold line_offset; simpl; lia).
  rewrite line_offset_S. specialize (IH k). lia.
Qed.

Lemma line_offset_pos lines k :
  (0 < k <= length lines)%nat -> (0 < line_offset lines k)%Z.
Proof.
  destruct lines as [|line lines]; intros Hk; simpl in Hk; [lia|].
  destruct k as [|k]; [lia|]. rewrite line_offset_S.
  pose proof (line_offset_nonneg lines k). lia.
Qed.

Lemma line_offset_drop lines :
  forall k d,
    line_offset lines (k + d) = (line_offset lines k + line_offset (drop k lines) d)%Z.
Proof.
  induction lines as [|line lines IH]; intros [|k] d; simpl drop.
  - rewrite line_offset_0. simpl. lia.
  - unfold line_offset. simpl. rewrite !take_nil. simpl. lia.
  - rewrite line_offset_0. simpl. lia.
  - replace (S k + d)%nat with (S (k + d)) by lia. rewrite !line_offset_S, IH. lia.
Qed.

Lemma line_positions_from_lookup lines :
  forall pos k,
    (k <= length lines)%nat ->
    line_positions_from pos lines !! k = Some (pos + line_offset lines k)%Z.
Proof.
  induction lines as [|line lines IH]; intros pos [|k] Hk; simpl in Hk; try lia.
  - simpl. rewrite line_offset_0. f_equal. lia.
  - simpl. rewrite line_offset_0. f_equal. lia.
  - cbn [line_positions_from lookup list_lookup]. rewrite IH by lia.
    rewrite line_offset_S. f_equal. lia.
Qed.

(** A stream set to the start of the line [k] reads the lines from [k]
    on. *)
Lemma seekg_line_offset lines :
  forall k, (k <= length lines)%nat -> seekg lines (line_offset lines k) = drop k lines.
Proof.
  induction lines as [|line lines IH]; intros [|k] Hk; simpl in Hk; try lia.
  - reflexivity.
  - rewrite line_offset_0. cbn [seekg drop].
    replace (0 <? 0)%Z with false by reflexivity.
    replace (0 <=? Z.of_nat (String.length line))%Z with true
      by (symmetry; apply Z.leb_le; lia).
    simpl. rewrite Nat.sub_0_r, substring_all. reflexivity.
  - rewrite line_offset_S. pose proof (line_offset_nonneg lines k) as Hn.
    cbn [seekg drop].
    destruct (_ <? 0)%Z eqn:E1; [apply Z.ltb_lt in E1; lia|].
    destruct (_ <=? Z.of_nat (String.length line))%Z eqn:E2; [apply Z.leb_le in E2; lia|].
    rewrite <- (IH k) by lia. f_equal. lia.
Qed.

Lemma read_chunk_None pos remaining : read_chunk None pos remaining = remaining.
Proof.
  revert pos. induction remaining as [|sent rest IH]; intros pos; simpl; [reflexivity|].
  rewrite IH. reflexivity.
Qed.

(** Up to the start of a line [d] lines further, the loop reads [d] lines,
    and one line when [d] is 0: the test of the end of the chunk comes after
    the sentence. *)
Lemma read_chunk_Some remaining :
  forall pos d,
    (d <= length remaining)%nat ->
    read_chunk (Some (pos + line_offset remaining d)%Z) pos remaining
    = take (Nat.max 1 d) remaining.
Proof.
  induction remaining as [|sent rest IH]; intros pos d Hd; simpl in Hd.
  - rewrite take_nil. reflexivity.
  - cbn [read_chunk]. destruct d as [|[|d]].
    + rewrite line_offset_0.
      destruct (_ <=? _)%Z eqn:E; [reflexivity | apply Z.leb_gt in E; lia].
    + rewrite line_offset_S, line_offset_0.
      destruct (_ <=? _)%Z eqn:E; [reflexivity | apply Z.leb_gt in E; lia].
    + rewrite line_offset_S.
      pose proof (line_offset_pos rest (S d) ltac:(lia)) as Hp.
      destruct (_ <=? _)%Z eqn:E; [apply Z.leb_le in E; lia|].
      replace (pos + (Z.of_nat (String.length sent) + 1 + line_offset rest (S d)))%Z
        with ((pos + Z.of_nat (String.length sent) + 1) + line_offset rest (S d))%Z by lia.
      rewrite IH by lia. reflexivity.
Qed.

Lemma for_loop_push {A} (f : nat -> outcome A) (g : nat -> A) len :
  forall lo acc,
    (forall i, (lo <= i < lo + len)%nat -> f i = Ok (g i)) ->
    for_loop lo len (fun chunks i => x ← f i; Ok (chunks ++ [x])%list) acc
    = Ok (acc ++ List.map g (seq lo len))%list.
Proof.
  induction len as [|len IH]; intros lo acc Hf.
  - unfold for_loop. simpl. rewrite app_nil_r. reflexivity.
  - rewrite for_loop_S, (Hf lo) by lia. cbn [mbind outcome_bind].
    rewrite IH by (intros i Hi; apply Hf; lia).
    simpl. rewrite <- app_assoc. reflexivity.
Qed.

(** The chunks that [chunkify] returns for a positive number of chunks: the
    starts of the lines [0], [chunk_size], [2 * chunk_size], ... *)
Lemma chunkify_chunks lines n :
  (1 <= n)%nat ->
  exists words,
    chunkify lines (Z.of_nat n)
    = Ok (List.map (fun i => line_offset lines (i * (length lines / n))) (seq 0 n),
          Z.of_nat (length lines), words).
Proof.
  intros Hn. unfold chunkify. rewrite line_positions_from_length.
  replace (Z.of_nat n =? 0)%Z with false by (symmetry; lia).
  replace (Z.of_nat (S (length lines)) - 1)%Z with (Z.of_nat (length lines)) by lia.
  rewrite Nat2Z.id.
  assert (Z.quot (Z.of_nat (length lines)) (Z.of_nat n) = Z.of_nat (length lines / n)) as ->.
  { rewrite Z.quot_div_nonneg by lia. symmetry. apply Nat2Z.inj_div. }
  rewrite (for_loop_push _ (fun i => line_offset lines (i * (length lines / n)))).
  - simpl. eexists. reflexivity.
  - intros i Hi. unfold at_pos, at_index.
    destruct (_ <? 0)%Z eqn:E; [apply Z.ltb_lt in E; lia|].
    rewrite <- Nat2Z.inj_mul, Nat2Z.id.
    rewrite line_positions_from_lookup.
    + reflexivity.
    + transitivity (n * (length lines / n))%nat.
      * apply Nat.mul_le_mono_r. lia.
      * apply Nat.Div0.mul_div_le.
Qed.

(** X25.  For [n] threads, [chunkify] returns the starts of the lines [0],
    [s], [2 s], ... with [s] the quotient of the number of lines by [n], and
    counts the lines.  In each epoch the last worker reads from its start
    to the end of the file, and a worker before it reads [s] lines, but one
    line when [s] is 0.  So with at most as many threads as lines the chunks
    are the slices of the file, each line in one chunk; with more
    threads than lines every worker but the last trains on the first line
    and the last one on the whole file.  The division by [n] has no value
    for 0. *)
Theorem chunkify_partition (lines : list string) (n : nat) :
  (1 <= n)%nat ->
  exists chunks words,
    chunkify lines (Z.of_nat n) = Ok (chunks, Z.of_nat (length lines), words)
    /\ length chunks = n
    /\ (forall i, (i < n - 1)%nat ->
          trainChunk_lines lines chunks i
          = Ok (take (Nat.max 1 (length lines / n)) (drop (i * (length lines / n)) lines)))
    /\ trainChunk_lines lines chunks (n - 1) = Ok (drop ((n - 1) * (length lines / n)) lines)
    /\ ((n <= length lines)%nat ->
        forall chunk_lines,
          Forall2 (fun i c => trainChunk_lines lines chunks i = Ok c) (seq 0 n) chunk_lines ->
          concat chunk_lines = lines)
    /\ ((length lines < n)%nat ->
        (forall i, (i < n - 1)%nat -> trainChunk_lines lines chunks i = Ok (take 1 lines))
        /\ trainChunk_lines lines chunks (n - 1) = Ok lines)
    /\ chunkify lines 0 = Undefined.
Proof.
  intros Hn. destruct (chunkify_chunks lines n Hn) as [words Hchunks].
  set (s := (length lines / n)%nat) in *.
  set (chunks := List.map (fun i => line_offset lines (i * s)) (seq 0 n)) in *.
  assert (length chunks = n) as Hlen
    by (unfold chunks; rewrite length_map, length_seq; reflexivity).
  assert (forall i, (i < n)%nat -> chunks !! i = Some (line_offset lines (i * s))) as Hlook.
  { intros i Hi. unfold chunks. rewrite list_lookup_fmap, lookup_seq_lt by exact Hi.
    reflexivity. }
  assert (forall i, (i < n)%nat -> (i * s <= length lines)%nat) as Hin.
  { intros i Hi. transitivity (n * s)%nat; [apply Nat.mul_le_mono_r; lia|].
    apply Nat.Div0.mul_div_le. }
  assert (forall i, (i < n - 1)%nat ->
            trainChunk_lines lines chunks i = Ok (take (Nat.max 1 s) (drop (i * s) lines)))
    as Hmid.
  { intros i Hi. unfold trainChunk_lines, at_index. rewrite (Hlook i) by lia.
    cbn [mbind outcome_bind]. rewrite Hlen.
    destruct (_ <? _)%Z eqn:E; [|apply Z.ltb_ge in E; lia].
    rewrite (Hlook (S i)) by lia. rewrite seekg_line_offset by (apply Hin; lia).
    replace (S i * s)%nat with (i * s + s)%nat by lia.
    rewrite line_offset_drop, read_chunk_Some; [reflexivity|].
    rewrite length_drop. pose proof (Hin (S i) ltac:(lia)) as HS. simpl in HS. lia. }
  assert (trainChunk_lines lines chunks (n - 1) = Ok (drop ((n - 1) * s) lines)) as Hlast.
  { unfold trainChunk_lines, at_index. rewrite (Hlook (n - 1)%nat) by lia.
    cbn [mbind outcome_bind]. rewrite Hlen.
    destruct (_ <? _)%Z eqn:E; [apply Z.ltb_lt in E; lia|].
    rewrite seekg_line_offset by (apply Hin; lia). rewrite read_chunk_None. reflexivity. }
  exists chunks, words.
  split; [exact Hchunks|]. split; [exact Hlen|]. split; [exact Hmid|].
  split; [exact Hlast|]. split; [|split].
  - intros Hle chunk_lines Hall.
    assert (1 <= s)%nat as Hs by (apply Nat.div_le_lower_bound; lia).
    assert (chunk_lines = List.map (thread_split lines n) (seq 0 n)) as ->.
    { apply Forall2_same_length_lookup in Hall as [Hl Hall].
      apply list_eq_same_length with (n := n).
      - rewrite length_map, length_seq. reflexivity.
      - rewrite <- Hl, length_seq. reflexivity.
      - intros i c c' Hi Hc Hc'.
        rewrite list_lookup_fmap, lookup_seq_lt in Hc' by exact Hi. injection Hc' as <-.
        specialize (Hall i i c (lookup_seq_lt 0 n i Hi) Hc).
        unfold thread_split. fold s.
        destruct (decide (i = n - 1)%nat) as [->|Hne].
        + rewrite Hlast in Hall. injection Hall as <-. rewrite Nat.eqb_refl.
          rewrite take_ge; [reflexivity|]. rewrite length_drop. lia.
        + rewrite Hmid in Hall by lia. injection Hall as <-.
          replace (i =? n - 1)%nat with false by (symmetry; apply Nat.eqb_neq; exact Hne).
          f_equal. lia. }
    apply thread_split_concat. exact Hn.
  - intros Hlt. assert (s = 0%nat) as Hs by (apply Nat.div_small; exact Hlt).
    split.
    + intros i Hi. rewrite Hmid by exact Hi. rewrite Hs, Nat.mul_0_r. reflexivity.
    + rewrite Hlast, Hs, Nat.mul_0_r. reflexivity.
  - reflexivity.
Qed.
(** ** Rounding to float *)

Lemma two_power_pos e : 0 < 2 ^ e.
Proof. apply Qpower_0_lt. reflexivity. Qed.

Lemma two_power_succ e : 2 ^ (e + 1) == 2 * 2 ^ e.
Proof. rewrite Qpower_plus by discriminate. rewrite Qpower_1_r. ring. Qed.

Lemma two_power_Z a : (0 <= a)%Z -> inject_Z (2 ^ a) == 2 ^ a.
Proof. intros Ha. rewrite Zpower_Qpower by exact Ha. reflexivity. Qed.

Lemma float_exponent_spec x :
  0 < x -> 2 ^ float_exponent x <= x /\ x < 2 ^ (float_exponent x + 1).
Proof.
  intros Hx. unfold float_exponent.
  destruct x as [n d]. simpl Qnum. simpl Qden.
  assert (0 < n)%Z as Hn by (unfold Qlt in Hx; simpl in Hx; lia).
  set (a := Z.log2 n). set (b := Z.log2 (Zpos d)).
  destruct (Z.log2_spec n Hn) as [Ha1 Ha2]. fold a in Ha1, Ha2.
  destruct (Z.log2_spec (Zpos d) ltac:(lia)) as [Hb1 Hb2]. fold b in Hb1, Hb2.
  assert (0 <= a)%Z as Ha0 by apply Z.log2_nonneg.
  assert (0 <= b)%Z as Hb0 by apply Z.log2_nonneg.
  assert (n # d == inject_Z n / inject_Z (Zpos d)) as Hq by apply Qmake_Qdiv.
  assert (0 < inject_Z (Zpos d)) as Hd by reflexivity.
  pose proof (two_power_pos a) as HA. pose proof (two_power_pos b) as HB.
  assert (2 ^ a <= inject_Z n) as Hn1.
  { rewrite <- two_power_Z by exact Ha0. rewrite <- Zle_Qle. exact Ha1. }
  assert (inject_Z n < 2 * 2 ^ a) as Hn2.
  { rewrite <- two_power_succ, <- two_power_Z by lia. rewrite <- Zlt_Qlt.
    replace (a + 1)%Z with (Z.succ a) by lia. exact Ha2. }
  assert (2 ^ b <= inject_Z (Zpos d)) as Hd1.
  { rewrite <- two_power_Z by exact Hb0. rewrite <- Zle_Qle. exact Hb1. }
  assert (inject_Z (Zpos d) < 2 * 2 ^ b) as Hd2.
  { rewrite <- two_power_succ, <- two_power_Z by lia. rewrite <- Zlt_Qlt.
    replace (b + 1)%Z with (Z.succ b) by lia. exact Hb2. }
  assert (2 ^ (a - b) == 2 ^ a / 2 ^ b) as He by (apply Qpower_minus; discriminate).
  assert ((n # d) < 2 * 2 ^ (a - b)) as Hup.
  { rewrite Hq, He. apply Qlt_shift_div_r; [exact Hd|].
    apply Qlt_le_trans with (2 * 2 ^ a); [exact Hn2|].
    assert (2 * (2 ^ a / 2 ^ b) * inject_Z (Zpos d)
            == 2 * 2 ^ a * (inject_Z (Zpos d) / 2 ^ b)) as -> by (field; lra).
    assert (1 <= inject_Z (Zpos d) / 2 ^ b) by (apply Qle_shift_div_l; lra).
    nra. }
  assert (2 ^ (a - b) < 2 * (n # d)) as Hlo.
  { rewrite Hq, He. apply Qlt_shift_div_r; [exact HB|].
    assert (2 * (inject_Z n / inject_Z (Zpos d)) * 2 ^ b
            == inject_Z n * (2 * 2 ^ b / inject_Z (Zpos d))) as -> by (field; lra).
    assert (1 < 2 * 2 ^ b / inject_Z (Zpos d)) by (apply Qlt_shift_div_l; lra).
    nra. }
  destruct (Qle_bool (2 ^ (a - b)) (n # d)) eqn:E.
  - apply Qle_bool_iff in E. split; [exact E|]. rewrite two_power_succ. exact Hup.
  - assert (~ 2 ^ (a - b) <= n # d) as E'.
    { intros H. apply Qle_bool_iff in H. congruence. }
    apply Qnot_le_lt in E'.
    replace (a - b - 1 + 1)%Z with (a - b)%Z by lia. split; [|exact E'].
    assert (2 ^ (a - b) == 2 * 2 ^ (a - b - 1)) as H2.
    { rewrite <- two_power_succ. replace (a - b - 1 + 1)%Z with (a - b)%Z by lia. reflexivity. }
    lra.
Qed.

Lemma round_half_even_Z k : round_half_even (inject_Z k) = k.
Proof.
  unfold round_half_even. rewrite Qfloor_Z.
  destruct (Qcompare_spec (inject_Z k - inject_Z k) (1 # 2)) as [E|E|E];
    [exfalso; lra | reflexivity | exfalso; lra].
Qed.

Lemma round_half_even_monotone x y : x <= y -> (round_half_even x <= round_half_even y)%Z.
Proof.
  intros Hxy. unfold round_half_even.
  pose proof (Qfloor_resp_le x y Hxy) as Hk.
  destruct (Z.eq_dec (Qfloor x) (Qfloor y)) as [Heq|Hne].
  - rewrite <- Heq.
    destruct (Qcompare_spec (x - inject_Z (Qfloor x)) (1 # 2)) as [Ex|Ex|Ex];
      destruct (Qcompare_spec (y - inject_Z (Qfloor x)) (1 # 2)) as [Ey|Ey|Ey];
      try (destruct (Z.even (Qfloor x))); try lia; exfalso; lra.
  - assert (Qfloor x + 1 <= Qfloor y)%Z by lia.
    destruct (Qcompare (x - _) _); destruct (Qcompare (y - _) _);
      try (destruct (Z.even (Qfloor x))); try (destruct (Z.even (Qfloor y))); lia.
Qed.

Lemma binary32_pos_bounds x :
  0 < x ->
  2 ^ float_exponent x <= binary32_pos x /\ binary32_pos x <= 2 ^ (float_exponent x + 1).
Proof.
  intros Hx. destruct (float_exponent_spec x Hx) as [H1 H2].
  unfold binary32_pos. cbv zeta. set (e := float_exponent x) in *.
  pose proof (two_power_pos e) as He. pose proof (two_power_pos (23 - e)) as Hs.
  pose proof (two_power_pos (e - 23)) as Hu.
  assert (2 ^ (23 - e) * 2 ^ (e - 23) == 1) as Hinv.
  { rewrite <- Qpower_plus by discriminate. replace (23 - e + (e - 23))%Z with 0%Z by lia.
    reflexivity. }
  assert (2 ^ e == 2 ^ 23 * 2 ^ (e - 23)) as He23.
  { rewrite <- Qpower_plus by discriminate. replace (23 + (e - 23))%Z with e by lia.
    reflexivity. }
  assert (2 ^ (e + 1) == 2 ^ 24 * 2 ^ (e - 23)) as He24.
  { rewrite <- Qpower_plus by discriminate. replace (24 + (e - 23))%Z with (e + 1)%Z by lia.
    reflexivity. }
  assert (inject_Z (2 ^ 23) <= x * 2 ^ (23 - e)) as Hm1.
  { rewrite two_power_Z by lia.
    assert (2 ^ 23 == 2 ^ e * 2 ^ (23 - e)) as ->.
    { rewrite <- Qpower_plus by discriminate. replace (e + (23 - e))%Z with 23%Z by lia.
      reflexivity. }
    apply Qmult_le_compat_r; lra. }
  assert (x * 2 ^ (23 - e) <= inject_Z (2 ^ 24)) as Hm2.
  { rewrite two_power_Z by lia.
    assert (2 ^ 24 == 2 ^ (e + 1) * 2 ^ (23 - e)) as ->.
    { rewrite <- Qpower_plus by discriminate. replace (e + 1 + (23 - e))%Z with 24%Z by lia.
      reflexivity. }
    apply Qmult_le_compat_r; lra. }
  apply round_half_even_monotone in Hm1, Hm2. rewrite round_half_even_Z in Hm1, Hm2.
  set (m := round_half_even (x * 2 ^ (23 - e))) in *.
  rewrite He23, He24. rewrite <- (two_power_Z 23), <- (two_power_Z 24) by lia.
  split; (apply Qmult_le_compat_r; [rewrite <- Zle_Qle; assumption | lra]).
Qed.

Lemma float_exponent_monotone x y :
  0 < x -> x <= y -> (float_exponent x <= float_exponent y)%Z.
Proof.
  intros Hx Hxy. destruct (float_exponent_spec x Hx) as [H1 _].
  destruct (float_exponent_spec y ltac:(lra)) as [_ H2].
  assert (2 ^ float_exponent x < 2 ^ (float_exponent y + 1)) as H by lra.
  apply Qpower_lt_compat_l_inv in H; [lia | reflexivity].
Qed.

Lemma binary32_pos_monotone x y : 0 < x -> x <= y -> binary32_pos x <= binary32_pos y.
Proof.
  intros Hx Hxy. pose proof (float_exponent_monotone x y Hx Hxy) as He.
  destruct (Z.eq_dec (float_exponent x) (float_exponent y)) as [Heq|Hne].
  - unfold binary32_pos. cbv zeta. rewrite <- Heq.
    pose proof (two_power_pos (23 - float_exponent x)).
    pose proof (two_power_pos (float_exponent x - 23)).
    apply Qmult_le_compat_r; [|lra]. rewrite <- Zle_Qle.
    apply round_half_even_monotone. apply Qmult_le_compat_r; lra.
  - destruct (binary32_pos_bounds x Hx) as [_ H1].
    destruct (binary32_pos_bounds y ltac:(lra)) as [H2 _].
    apply Qle_trans with (2 ^ (float_exponent x + 1)); [exact H1|].
    apply Qle_trans with (2 ^ float_exponent y); [|exact H2].
    apply Qpower_le_compat_l; [lia | discriminate].
Qed.

Lemma binary32_pos_positive x : 0 < x -> 0 < binary32_pos x.
Proof.
  intros Hx. destruct (binary32_pos_bounds x Hx) as [H _].
  pose proof (two_power_pos (float_exponent x)). lra.
Qed.

Lemma binary32_cases x :
  (0 < x /\ binary32 x = binary32_pos x)
  \/ (x < 0 /\ binary32 x = - binary32_pos (- x))
  \/ (x == 0 /\ binary32 x = 0).
Proof.
  unfold binary32. destruct (Qltb 0 x) eqn:E1.
  - left. split; [apply Qltb_lt, E1 | reflexivity].
  - destruct (Qltb x 0) eqn:E2.
    + right. left. split; [apply Qltb_lt, E2 | reflexivity].
    + right. right. split; [|reflexivity].
      assert (~ 0 < x) as N1 by (intros H; apply Qltb_lt in H; congruence).
      assert (~ x < 0) as N2 by (intros H; apply Qltb_lt in H; congruence).
      lra.
Qed.

Lemma binary32_positive x : 0 < x -> 0 < binary32 x.
Proof.
  intros Hx. destruct (binary32_cases x) as [[_ ->]|[[H _]|[H _]]]; [|exfalso; lra..].
  apply binary32_pos_positive, Hx.
Qed.

Lemma binary32_monotone x y : x <= y -> binary32 x <= binary32 y.
Proof.
  intros Hxy.
  destruct (binary32_cases x) as [[Hx ->]|[[Hx ->]|[Hx ->]]];
    destruct (binary32_cases y) as [[Hy ->]|[[Hy ->]|[Hy ->]]];
    try (exfalso; lra).
  - apply binary32_pos_monotone; assumption.
  - pose proof (binary32_pos_positive (- x) ltac:(lra)).
    pose proof (binary32_pos_positive y Hy). lra.
  - assert (binary32_pos (- y) <= binary32_pos (- x)) by (apply binary32_pos_monotone; lra).
    lra.
  - pose proof (binary32_pos_positive (- x) ltac:(lra)). lra.
  - pose proof (binary32_pos_positive y Hy). lra.
  - lra.
Qed.

(** The float of 1/3 and the float of its product by 10^8, which is above
    the product of the reals, 33333333.33. *)
Lemma binary32_third :
  binary32 (1 # 3) == 11184811 # 33554432
  /\ binary32 (binary32 (1 # 3) * 100000000) == 33333334.
Proof. split; vm_compute; reflexivity. Qed.
(** ** The unigram table *)

(** The cast keeps the order. *)
Lemma float_to_int_monotone (p q : Q) : p <= q -> (float_to_int p <= float_to_int q)%Z.
Proof.
  destruct p as [a b], q as [c d]. unfold Qle, float_to_int. simpl. intros H.
  rewrite <- (Z.quot_mul_cancel_r a (Zpos b) (Zpos d)) by lia.
  rewrite <- (Z.quot_mul_cancel_r c (Zpos d) (Zpos b)) by lia.
  rewrite (Z.mul_comm (Zpos d) (Zpos b)). apply Z.quot_le_mono; lia.
Qed.

Section UnigramFacts.
Variable to_float : Q -> Q.
Variable pow : Q -> Q -> Q.
Variable UNIGRAM_TABLE_SIZE : Z.
Hypothesis to_float_positive : forall x, 0 < x -> 0 < to_float x.

(** [total_count] is positive after the first loop over a vocabulary that
    is not empty. *)
Lemma unigram_total_pos entries :
  Forall (fun it => 0 < pow (inject_Z (count it.2)) (3 # 4)) entries ->
  entries <> [] ->
  0 < unigram_total to_float pow entries.
Proof.
  intros Hall Hne. unfold unigram_total.
  assert (forall acc,
            0 <= acc -> 0 < acc \/ entries <> [] ->
            0 < fold_left (fun total_count (it : string * HuffmanNode) =>
                             to_float (total_count + pow (inject_Z (count it.2)) (3 # 4)))
                          entries acc) as H.
  { clear Hne. induction Hall as [|it entries Hit _ IH]; intros acc Hacc Hor.
    - destruct Hor as [Hpos|Hne]; [exact Hpos | congruence].
    - cbn [fold_left].
      assert (0 < to_float (acc + pow (inject_Z (count it.2)) (3 # 4))) as Hpos
        by (apply to_float_positive; lra).
      apply IH; [lra | left; exact Hpos]. }
  apply H; [lra | right; exact Hne].
Qed.

Lemma unigram_table_loop total_count entries :
  Qeq_bool total_count 0 = false ->
  forall table,
    fold_left
      (fun acc (it : string * HuffmanNode) =>
         table ← acc;
         if Qeq_bool total_count 0 then Undefined
         else
           Ok (table
               ++ repeat it.2
                    (Z.to_nat (unigram_copies to_float pow UNIGRAM_TABLE_SIZE total_count
                                 (count it.2))))%list)
      entries (Ok table)
    = Ok (table
          ++ concat (List.map
                       (fun it : string * HuffmanNode =>
                          repeat it.2
                            (Z.to_nat (unigram_copies to_float pow UNIGRAM_TABLE_SIZE
                                         total_count (count it.2))))
                       entries))%list.
Proof.
  intros HT. match goal with |- context [fold_left ?f] => set (body := f) end.
  induction entries as [|it entries IH]; intros table; cbn [fold_left].
  - simpl. rewrite app_nil_r. reflexivity.
  - assert (body (Ok table) it
            = Ok (table ++ repeat it.2
                             (Z.to_nat (unigram_copies to_float pow UNIGRAM_TABLE_SIZE
                                          total_count (count it.2))))%list) as ->.
    { unfold body, mbind, outcome_bind. cbv beta iota zeta. rewrite HT. reflexivity. }
    rewrite IH. simpl. rewrite <- app_assoc. reflexivity.
Qed.

(** The table that [initUnigramTable] builds: for each entry of the
    vocabulary, in the order of the loop, a block of [d] copies of it. *)
Lemma initUnigramTable_spec (m : MonolingualModel) :
  (forall w n, vocabulary m !! w = Some n -> 0 < pow (inject_Z (count n)) (3 # 4)) ->
  exists table vocab_word_count,
    initUnigramTable to_float pow UNIGRAM_TABLE_SIZE m
    = Ok (with_unigram_table m table, vocab_word_count)
    /\ table
       = concat (List.map
                   (fun it : string * HuffmanNode =>
                      repeat it.2
                        (Z.to_nat (unigram_copies to_float pow UNIGRAM_TABLE_SIZE
                                     (unigram_total to_float pow (map_to_list (vocabulary m)))
                                     (count it.2))))
                   (map_to_list (vocabulary m)))
    /\ (forall node, In node table -> exists w, vocabulary m !! w = Some node).
Proof.
  intros Hpow. unfold initUnigramTable. cbv zeta.
  remember (map_to_list (vocabulary m)) as entries eqn:Eentries.
  assert (Forall (fun it => 0 < pow (inject_Z (count it.2)) (3 # 4)) entries) as Hall.
  { apply List.Forall_forall. intros [w n] Hin. rewrite Eentries in Hin.
    apply list_elem_of_In, elem_of_map_to_list in Hin. simpl. eapply Hpow, Hin. }
  assert (entries = [] \/ entries <> []) as [Hnil|Hne]
    by (destruct entries; [left; reflexivity | right; discriminate]).
  - rewrite Hnil. simpl. eexists _, _. split; [reflexivity|]. simpl.
    split; [reflexivity | intros node []].
  - pose proof (unigram_total_pos entries Hall Hne) as HT.
    assert (Qeq_bool (unigram_total to_float pow entries) 0 = false) as HTb.
    { destruct (Qeq_bool _ 0) eqn:E; [|reflexivity]. apply Qeq_bool_iff in E. lra. }
    rewrite (unigram_table_loop _ entries HTb []). cbn [mbind outcome_bind app].
    eexists _, _. split; [reflexivity|]. split; [reflexivity|].
    intros node Hin. apply in_concat in Hin as (l & Hl & Hin).
    apply in_map_iff in Hl as ([w n] & <- & Hit). apply repeat_spec in Hin. subst node.
    exists w. apply elem_of_map_to_list, list_elem_of_In. rewrite <- Eentries. exact Hit.
Qed.

(** An entry whose power is not smaller does not get fewer copies. *)
Lemma unigram_copies_monotone total_count c1 c2 :
  (forall x y, x <= y -> to_float x <= to_float y) ->
  (0 <= UNIGRAM_TABLE_SIZE)%Z ->
  0 <= total_count ->
  pow (inject_Z c1) (3 # 4) <= pow (inject_Z c2) (3 # 4) ->
  (unigram_copies to_float pow UNIGRAM_TABLE_SIZE total_count c1
   <= unigram_copies to_float pow UNIGRAM_TABLE_SIZE total_count c2)%Z.
Proof.
  intros Hmono HN HT Hp. unfold unigram_copies. cbv zeta.
  apply float_to_int_monotone, Hmono.
  apply Qmult_le_compat_r; [|change 0 with (inject_Z 0); rewrite <- Zle_Qle; exact HN].
  apply Hmono. unfold Qdiv. apply Qmult_le_compat_r; [exact Hp|].
  apply Qinv_le_0_compat, HT.
Qed.

(** X26.  With a rounding to [float] that is monotone and takes no
    positive real to zero, and powers of the counts that are positive,
    [initUnigramTable] returns, and leaves the vocabulary as it is.  The
    table is made of one block for each entry of the vocabulary, in the
    order of the loop: [d] copies of the entry, where [d] is the integer
    part of the float [f * UNIGRAM_TABLE_SIZE] and [f] the float of
    [pow(count) / total_count].  So the table holds entries of the
    vocabulary only, and an entry whose power is not smaller has no fewer
    copies.  (The length of the table is not bounded by
    [UNIGRAM_TABLE_SIZE]: see [initUnigramTable_exceeds].) *)
Theorem initUnigramTable_shares (m : MonolingualModel) :
  (forall x y, x <= y -> to_float x <= to_float y) ->
  (0 <= UNIGRAM_TABLE_SIZE)%Z ->
  (forall w n, vocabulary m !! w = Some n -> 0 < pow (inject_Z (count n)) (3 # 4)) ->
  exists m' vocab_word_count total_count,
    initUnigramTable to_float pow UNIGRAM_TABLE_SIZE m = Ok (m', vocab_word_count)
    /\ vocabulary m' = vocabulary m
    /\ total_count = unigram_total to_float pow (map_to_list (vocabulary m))
    /\ unigram_table m'
       = concat (List.map
                   (fun it : string * HuffmanNode =>
                      repeat it.2
                        (Z.to_nat (unigram_copies to_float pow UNIGRAM_TABLE_SIZE total_count
                                     (count it.2))))
                   (map_to_list (vocabulary m)))
    /\ (forall node, In node (unigram_table m') -> exists w, vocabulary m !! w = Some node)
    /\ (forall c1 c2,
          pow (inject_Z c1) (3 # 4) <= pow (inject_Z c2) (3 # 4) ->
          (unigram_copies to_float pow UNIGRAM_TABLE_SIZE total_count c1
           <= unigram_copies to_float pow UNIGRAM_TABLE_SIZE total_count c2)%Z).
Proof.
  intros Hmono HN Hpow.
  destruct (initUnigramTable_spec m Hpow) as (table & wc & H1 & H2 & H3).
  eexists _, _, _. split; [exact H1|]. simpl. split; [reflexivity|].
  split; [reflexivity|]. split; [exact H2|]. split; [exact H3|].
  intros c1 c2 Hc. apply unigram_copies_monotone; try assumption.
  destruct (map_to_list (vocabulary m)) as [|it entries] eqn:E; [vm_compute; discriminate|].
  apply Qlt_le_weak, unigram_total_pos; [|discriminate].
  apply List.Forall_forall. intros [w n] Hin. rewrite <- E in Hin.
  apply list_elem_of_In, elem_of_map_to_list in Hin. simpl. eapply Hpow, Hin.
Qed.

End UnigramFacts.

(** With the rounding of the machine and 10^8 slots, each of three words
    of one occurrence gets 33333334 copies: the float of 1/3 is above 1/3,
    and the table is longer than [UNIGRAM_TABLE_SIZE]. *)
Lemma initUnigramTable_exceeds :
  exists m' vocab_word_count,
    initUnigramTable binary32 example_pow 100000000 model_ones = Ok (m', vocab_word_count)
    /\ Z.of_nat (length (unigram_table m')) = 100000002%Z.
Proof.
  destruct (initUnigramTable_spec binary32 example_pow 100000000 binary32_positive model_ones)
    as (table & wc & H1 & H2 & _).
  { intros w n Hn. simpl in Hn.
    repeat (apply lookup_insert_Some in Hn as [[_ <-]|[_ Hn]]; [reflexivity|]).
    rewrite lookup_empty in Hn. discriminate Hn. }
  eexists _, _. split; [exact H1|]. cbn [unigram_table with_unigram_table]. rewrite H2.
  assert (unigram_copies binary32 example_pow 100000000
            (unigram_total binary32 example_pow (map_to_list (vocabulary model_ones))) 1
          = 33333334%Z) as Hd by (vm_compute; reflexivity).
  revert Hd. generalize (unigram_total binary32 example_pow
                           (map_to_list (vocabulary model_ones))).
  intros total_count Hd.
  assert (Forall (fun it : string * HuffmanNode => count it.2 = 1%Z)
                 (map_to_list (vocabulary model_ones))) as Hcount.
  { apply List.Forall_forall. intros [w n] Hin.
    apply list_elem_of_In, elem_of_map_to_list in Hin. simpl in Hin. simpl.
    repeat (apply lookup_insert_Some in Hin as [[_ <-]|[_ Hin]]; [reflexivity|]).
    rewrite lookup_empty in Hin. discriminate Hin. }
  assert (length (map_to_list (vocabulary model_ones)) = 3%nat) as Hlen.
  { rewrite length_map_to_list. reflexivity. }
  revert Hcount Hlen. generalize (map_to_list (vocabulary model_ones)).
  intros entries Hcount Hlen.
  assert (Z.of_nat (length (concat
            (List.map (fun it : string * HuffmanNode =>
                         repeat it.2
                           (Z.to_nat (unigram_copies binary32 example_pow 100000000
                                        total_count (count it.2))))
                      entries)))
          = (33333334 * Z.of_nat (length entries))%Z) as ->.
  { clear Hlen. induction Hcount as [|it entries Hit _ IH]; [reflexivity|].
    cbn [List.map concat]. rewrite length_app, repeat_length, Nat2Z.inj_add, IH, Hit, Hd.
    rewrite Z2Nat.id by lia. cbn [length]. lia. }
  rewrite Hlen. reflexivity.
Qed.

(** ** The model after the initialisation of train *)

Section InitializeFacts.
Variable randf : nat -> Q.
Variable pow : Q -> Q -> Q.
Variable UNIGRAM_TABLE_SIZE : Z.

(** X28.  When some word of the file occurs [min_count] times at least,
    the initialisation of [train] returns a model whose parts fit: each
    weight matrix has one row for each entry of the vocabulary,
    [input_weights] with [dimension] columns; the entry of a word has its
    number of occurrences as count and an index that is a row of the
    matrices; its parents are rows of [output_weights_hs] and are as many as
    the bits of its code; and every node of the unigram table has the index
    of a row of [output_weights].  With draws in [0, 1), every input weight
    times [dimension] lies in [-1/2, 1/2). *)
Theorem train_initialize_consistent (k : nat) (m : MonolingualModel) (words : list string) :
  (0 <= UNIGRAM_TABLE_SIZE)%Z ->
  (forall c, (0 < c)%Z -> 0 < pow (inject_Z c) (3 # 4)) ->
  (exists w, (0 < count_occ string_dec words w)%nat
             /\ (min_count (config m) <= Z.of_nat (count_occ string_dec words w))%Z) ->
  exists m' vocab_word_count,
    train_initialize randf pow UNIGRAM_TABLE_SIZE k m words = Ok (m', vocab_word_count)
    /\ config m' = config m
    /\ length (input_weights m') = size (vocabulary m')
    /\ length (output_weights m') = size (vocabulary m')
    /\ length (output_weights_hs m') = size (vocabulary m')
    /\ Forall (fun r => length r = Z.to_nat (dimension (config m))) (input_weights m')
    /\ (forall w n,
          vocabulary m' !! w = Some n ->
          count n = Z.of_nat (count_occ string_dec words w)
          /\ (min_count (config m) <= count n)%Z
          /\ (0 <= index n < Z.of_nat (length (input_weights m')))%Z
          /\ length (code n) = length (parents n)
          /\ Forall (fun p => (0 <= p < Z.of_nat (length (output_weights_hs m')))%Z)
                    (parents n))
    /\ (forall node,
          In node (unigram_table m') ->
          (0 <= index node < Z.of_nat (length (output_weights m')))%Z)
    /\ ((forall j, 0 <= randf j < 1) ->
        Forall (Forall (fun x => - (1 # 2) <= x * inject_Z (dimension (config m)) < 1 # 2))
               (input_weights m')).
Proof.
  intros HN Hpow (w0 & Hocc0 & Hmin0).
  unfold train_initialize, readVocab.
  set (vocab0 := readVocab_words (min_count (config m)) words).
  set (m1 := with_vocabulary m vocab0).
  destruct (readVocab_words_entries (min_count (config m)) words) as (Hin0 & Hent0 & _ & _).
  cbv zeta in Hin0, Hent0. fold vocab0 in Hin0, Hent0.
  destruct (readVocab_words_wf (min_count (config m)) words) as [Hwf _]. fold vocab0 in Hwf.
  assert (vocab0 <> ∅) as Hne.
  { intros He. destruct (proj2 (Hin0 w0) (conj Hocc0 Hmin0)) as [n Hn].
    rewrite He, lookup_empty in Hn. discriminate. }
  destruct (createBinaryTree_entries_kept m1 Hwf Hne) as (m2 & Hm2 & Hsize & _ & Hback).
  destruct (createBinaryTree_parents_spec m1 Hwf Hne) as (m2' & Hm2' & Hpar).
  rewrite Hm2 in Hm2'. injection Hm2' as <-.
  assert (config m2 = config m) as Hcfg.
  { unfold createBinaryTree in Hm2. destruct (createBinaryTree_heap _); [discriminate|].
    injection Hm2 as <-. reflexivity. }
  assert (forall w n, vocabulary m2 !! w = Some n ->
            count n = Z.of_nat (count_occ string_dec words w)
            /\ (min_count (config m) <= count n)%Z
            /\ (0 <= index n < Z.of_nat (size (vocabulary m2)))%Z) as Hent2.
  { intros w n Hn. destruct (Hback w n Hn) as (n0 & Hn0 & Hi & Hc).
    simpl in Hn0. destruct (Hent0 w n0 Hn0) as (_ & _ & Hcount & Hrange).
    destruct (proj1 (Hin0 w) ltac:(eauto)) as [_ Hmin].
    rewrite Hsize. simpl. rewrite Hi, Hc, Hcount. repeat split; lia || assumption. }
  destruct (initUnigramTable_spec binary32 pow UNIGRAM_TABLE_SIZE binary32_positive m2)
    as (table & wc & Htable & _ & Hmem).
  { intros w n Hn. apply Hpow. destruct (Hent2 w n Hn) as (Hc & _).
    destruct (Hback w n Hn) as (n0 & Hn0 & _). simpl in Hn0.
    destruct (proj1 (Hin0 w) ltac:(eauto)) as [Hpos _]. lia. }
  rewrite Hm2. cbn [mbind outcome_bind]. rewrite Htable. cbn [mbind outcome_bind].
  eexists _, _. split; [reflexivity|]. simpl. rewrite Hcfg.
  rewrite length_map, length_seq, !repeat_length.
  split; [reflexivity|]. split; [reflexivity|]. split; [reflexivity|]. split; [reflexivity|].
  split; [|split; [|split; [|]]].
  - apply List.Forall_forall. intros r Hr. apply in_map_iff in Hr as (i & <- & _).
    rewrite length_map, length_seq. reflexivity.
  - intros w n Hn. destruct (Hent2 w n Hn) as (Hc & Hmin & Hrange).
    destruct (Hpar w n Hn) as (Hlen & Hp & _).
    split; [exact Hc|]. split; [exact Hmin|]. split; [exact Hrange|]. split; [exact Hlen|].
    eapply List.Forall_impl; [|exact Hp]. intros p Hp'. cbv beta in Hp'. lia.
  - intros node Hnode. destruct (Hmem node Hnode) as [w Hw].
    destruct (Hent2 w node Hw) as (_ & _ & Hrange). exact Hrange.
  - intros Hrand. apply List.Forall_forall. intros r Hr.
    apply in_map_iff in Hr as (i & <- & _).
    apply List.Forall_forall. intros x Hx. apply in_map_iff in Hx as (j & <- & Hj).
    apply in_seq in Hj.
    assert (0 < dimension (config m))%Z as Hd by lia.
    assert (0 < inject_Z (dimension (config m))) as Hdq.
    { unfold Qlt. simpl. lia. }
    match goal with |- context [randf ?a] => specialize (Hrand a); set (r := randf a) in * end.
    assert ((r - (1 # 2)) / inject_Z (dimension (config m)) * inject_Z (dimension (config m))
            == r - (1 # 2)) as ->.
    { field. apply Qnot_eq_sym, Qlt_not_eq, Hdq. }
    lra.
Qed.

End InitializeFacts.

(** ** A sentence of one word, and the rows that the gradients write *)

Lemma window_positions_single w : window_positions 1 0 w = [].
Proof.
  unfold window_positions.
  induction (List.map (fun k => (0 - w + Z.of_nat k)%Z) (seq 0 (Z.to_nat (2 * w + 1))))
    as [|pos l IH]; cbn [List.filter]; [reflexivity|].
  match goal with |- (if ?c then _ else _) = _ => assert (c = false) as -> end;
    [|exact IH].
  apply negb_false_iff.
  destruct (Z_lt_le_dec pos 0%Z) as [Hlt|Hge].
  - apply orb_true_iff. left. apply orb_true_iff. left. apply Z.ltb_lt. exact Hlt.
  - destruct (Z.eq_dec pos 0%Z) as [->|Hne].
    + apply orb_true_iff. right. reflexivity.
    + apply orb_true_iff. left. apply orb_true_iff. right. apply Z.leb_le. simpl. lia.
Qed.

Lemma fold_left_keeps_in {S B C} (g : S -> C) (step : S -> B -> S) (l : list B) :
  (forall acc x, In x l -> g (step acc x) = g acc) ->
  forall acc, g (fold_left step l acc) = g acc.
Proof.
  induction l as [|x l IH]; intros Hstep acc; simpl; [reflexivity|].
  rewrite IH by (intros a y Hy; apply Hstep; right; exact Hy).
  apply Hstep. left. reflexivity.
Qed.

Section KernelLocal.
Context {U : Utils}.

(** X29.  On a sentence of one word and without sentence vector,
    [trainWord] changes nothing, whatever [update] is and for the CBOW and
    the skip-gram kernel alike: the window holds no other position.  It
    draws the window size and returns the model as it was. *)
Theorem trainWord_single_word (skip_gram update : bool) (m : MonolingualModel) (k : nat)
    (node : HuffmanNode) (alpha : Q) :
  trainWord skip_gram m k [node] 0 None alpha update = Ok (m, None, S k).
Proof.
  pose proof window_positions_single as Hw.
  unfold trainWord. destruct skip_gram.
  - unfold trainWordSkipGram. simpl. rewrite Hw. reflexivity.
  - unfold trainWordCBOW, cbow_sum. simpl. rewrite Hw. reflexivity.
Qed.

Lemma hierarchicalUpdate_rows m node hidden alpha update r :
  (length (code node) <= length (parents node))%nat ->
  (forall p, In p (parents node) -> Z.to_nat p <> r) ->
  output_weights_hs (hierarchicalUpdate m node hidden alpha update).2 !! r
  = output_weights_hs m !! r.
Proof.
  intros Hlen Hr. unfold hierarchicalUpdate, for_each.
  rewrite (fold_left_keeps_in (fun acc => output_weights_hs acc.2 !! r)); [reflexivity|].
  intros [temp m0] j Hj. apply in_seq in Hj. unfold hierarchicalUpdate_step.
  destruct (_ || _); [reflexivity|].
  destruct update; [|reflexivity]. simpl. unfold set_row.
  apply list_lookup_insert_ne. apply Hr, nth_In. lia.
Qed.

Lemma negSamplingUpdate_rows m k node hidden alpha update r :
  Z.to_nat (index node) <> r ->
  (forall t, In t (unigram_table m) -> Z.to_nat (index t) <> r) ->
  output_weights (negSamplingUpdate m k node hidden alpha update).1.2 !! r
  = output_weights m !! r.
Proof.
  intros Hnode Htable. unfold negSamplingUpdate, for_each.
  assert (forall l acc,
            unigram_table acc.1.2 = unigram_table m ->
            let res := fold_left (negSamplingUpdate_step node hidden alpha update) l acc in
            output_weights res.1.2 !! r = output_weights acc.1.2 !! r) as Hloop.
  { induction l as [|d l IH]; intros [[temp m0] k0] Ht; cbn [fold_left]; [reflexivity|].
    cbn [fst snd] in Ht.
    assert (Z.to_nat (index (getRandomHuffmanNode m0 k0 node)) <> r) as Hrand.
    { unfold getRandomHuffmanNode. rewrite Ht.
      destruct (nth_in_or_default
                  (Z.to_nat (rand k0 (Z.of_nat (length (unigram_table m)))))
                  (unigram_table m) node) as [Hin| ->]; [apply Htable, Hin | exact Hnode]. }
    assert (Hs : unigram_table
                   (negSamplingUpdate_step node hidden alpha update (temp, m0, k0) d).1.2
                 = unigram_table m
                 /\ output_weights
                      (negSamplingUpdate_step node hidden alpha update (temp, m0, k0) d).1.2
                    !! r = output_weights m0 !! r).
    { unfold negSamplingUpdate_step. destruct (d =? 0)%nat.
      - destruct update; simpl; (split; [exact Ht|]); [|reflexivity].
        unfold set_row. apply list_lookup_insert_ne. exact Hnode.
      - destruct (HuffmanNode_eqb _ _); [split; [exact Ht | reflexivity]|].
        destruct update; simpl; (split; [exact Ht|]); [|reflexivity].
        unfold set_row. apply list_lookup_insert_ne. exact Hrand. }
    destruct Hs as [Hs1 Hs2].
    destruct (negSamplingUpdate_step node hidden alpha update (temp, m0, k0) d)
      as [[temp1 m1] k1].
    cbn [fst snd] in Hs1, Hs2 |- *. rewrite <- Hs2. apply (IH (temp1, m1, k1)). exact Hs1. }
  apply (Hloop _ (zeros (Z.to_nat (dimension (config m))), m, k)). reflexivity.
Qed.

(** X30.  The gradient routines write to the rows of their targets only.
    [hierarchicalUpdate] leaves every row of [output_weights_hs] that is not
    a parent of the node as it was, when the node has a parent for each bit
    of its code; [negSamplingUpdate] leaves every row of [output_weights]
    as it was that is neither the row of the node nor the row of a node of
    the unigram table. *)
Theorem gradient_updates_local (m : MonolingualModel) (k : nat) (node : HuffmanNode)
    (hidden : vec) (alpha : Q) (update : bool) (r : nat) :
  ((length (code node) <= length (parents node))%nat ->
   (forall p, In p (parents node) -> Z.to_nat p <> r) ->
   output_weights_hs (hierarchicalUpdate m node hidden alpha update).2 !! r
   = output_weights_hs m !! r)
  /\ (Z.to_nat (index node) <> r ->
      (forall t, In t (unigram_table m) -> Z.to_nat (index t) <> r) ->
      output_weights (negSamplingUpdate m k node hidden alpha update).1.2 !! r
      = output_weights m !! r).
Proof.
  split.
  - apply hierarchicalUpdate_rows.
  - apply negSamplingUpdate_rows.
Qed.

End KernelLocal.

(** ** The further properties on the example models *)

Lemma sign_range q : - (1) <= sign q <= 1.
Proof. unfold sign. destruct (Qltb 0 q); [lra|]. destruct (Qltb q 0); lra. Qed.

Lemma model_abc_indices negative no_average :
  vocabulary_indices (vocabulary (model_abc negative no_average)).
Proof.
  intros k1 k2 n1 n2 H1 H2. simpl in H1, H2.
  repeat (apply lookup_insert_Some in H1 as [[<- <-]|[_ H1]]);
    try (rewrite lookup_empty in H1; discriminate);
    repeat (apply lookup_insert_Some in H2 as [[<- <-]|[_ H2]]);
    try (rewrite lookup_empty in H2; discriminate);
    simpl; intros Hi; try reflexivity; discriminate Hi.
Qed.

Lemma model_abc_nonempty negative no_average :
  vocabulary (model_abc negative no_average) <> ∅.
Proof.
  intros H. apply (f_equal (fun v => v !! "a")) in H. vm_compute in H. discriminate H.
Qed.

Lemma model_abc_pow negative no_average w n :
  vocabulary (model_abc negative no_average) !! w = Some n ->
  0 < example_pow (inject_Z (count n)) (3 # 4).
Proof.
  intros H. simpl in H.
  repeat (apply lookup_insert_Some in H as [[<- <-]|[_ H]]; [vm_compute; reflexivity|]).
  rewrite lookup_empty in H. discriminate.
Qed.

Section MoreExamples.
#[local] Existing Instance example_utils.

(** One token against two, and two against one. *)
Lemma similarityNgrams_pairs_witness :
  (exists q, similarityNgrams model_xz "x" "x y" 0 = Ok q /\ q == 1)
  /\ similarityNgrams model_xz "x y" "x" 0 = Undefined.
Proof.
  split.
  - eexists. split.
    + apply (proj1 (similarityNgrams_pairs model_xz "x" "x y" 0)). vm_compute. lia.
    + vm_compute. reflexivity.
  - apply (proj2 (similarityNgrams_pairs model_xz "x y" "x" 0)). vm_compute. lia.
Defined.

(** The known word [x] against itself and against the unknown word [q]. *)
Lemma distance_range_witness :
  0 <= distance model_xz "x" "q" 0 <= 1
  /\ distance model_xz "x" "x" 0 == 0
  /\ distance model_xz "x" "q" 0 == 1 # 2.
Proof.
  destruct (distance_range (U := example_utils) model_xz "x" "q" 0
              (fun u v => sign_range (dot u v))) as (H1 & H2 & H3).
  split; [exact H1|]. split.
  - apply H2. vm_compute. eauto.
  - apply H3. right. reflexivity.
Defined.

Lemma bilingual_distance_range_witness :
  0 <= bilingual_distance (example_bilingual 1) "a" "q" 0 <= 2
  /\ bilingual_distance (example_bilingual 1) "a" "q" 0 == 1.
Proof.
  destruct (bilingual_distance_range (U := example_utils) (example_bilingual 1) "a" "q" 0
              (fun u v => sign_range (dot u v))) as (H1 & H2).
  split; [exact H1|]. apply H2. right. reflexivity.
Defined.

(** The nearest word of [a] among [b] and [c]. *)
Lemma closest_n_best_witness :
  exists res rest,
    closest (model_abc 0 false) "a" 1 0 = Ok res
    /\ length res = 1%nat
    /\ StronglySorted by_similarity res
    /\ (forall p, In p res -> p.1 <> "a")
    /\ (res ++ rest)%list
       ≡ₚ closest_candidates (model_abc 0 false) 0
            (wordVec_index (model_abc 0 false) 0 0) 0
    /\ (forall p q, In p res -> In q rest -> q.2 <= p.2).
Proof.
  apply (closest_n_best (model_abc 0 false) "a" (example_leaf 0 "a" 5) 1 0).
  - apply model_abc_wf.
  - apply model_abc_indices.
  - reflexivity.
  - vm_compute. split; discriminate.
Defined.

(** The default [n = 10] on a vocabulary of three words. *)
Lemma closest_undefined_witness :
  closest (model_abc 0 false) "a" 10 0 = Undefined.
Proof.
  apply (closest_undefined (model_abc 0 false) "a" (example_leaf 0 "a" 5) 10 0).
  - apply model_abc_indices.
  - reflexivity.
  - right. vm_compute. reflexivity.
Defined.

(** The word [a] against a list with itself, a repetition and an unknown
    word. *)
Lemma closest_among_sorted_witness :
  closest_among (model_abc 0 false) "q" ["a"; "b"] 0 = Throw OOV
  /\ exists res,
       closest_among (model_abc 0 false) "a" ["b"; "a"; "q"; "b"] 0 = Ok res
       /\ length res = 3%nat
       /\ StronglySorted by_similarity res.
Proof.
  split.
  - apply (proj1 (closest_among_sorted (model_abc 0 false) "q" ["a"; "b"] 0)). reflexivity.
  - destruct (proj2 (closest_among_sorted (model_abc 0 false) "a" ["b"; "a"; "q"; "b"] 0)
                (example_leaf 0 "a" 5) eq_refl) as (res & H1 & H2 & H3 & _).
    exists res. split; [exact H1|]. split; [exact H2 | exact H3].
Defined.

(** The source word [a] against the two target words [x] and [z]: the
    best of them, and the other one left out. *)
Lemma trg_closest_range_witness :
  trg_closest (example_bilingual 1) "q" 1 0 = Throw OOV
  /\ (exists res rest,
        trg_closest (example_bilingual 1) "a" 1 0 = Ok res
        /\ length res = 1%nat
        /\ (res ++ rest)%list
           ≡ₚ List.map
                (fun it : string * HuffmanNode =>
                   (word it.2,
                    cosineSimilarity (wordVec_index (model_abc 0 false) 0 0)
                                     (wordVec_index model_xz (index it.2) 0)))
                (map_to_list (vocabulary model_xz))
        /\ forall p q, In p res -> In q rest -> q.2 <= p.2)
  /\ trg_closest (example_bilingual 1) "a" 10 0 = Undefined.
Proof.
  split; [|split].
  - apply (proj1 (trg_closest_range (example_bilingual 1) "q" 1 0)). reflexivity.
  - destruct (proj1 (proj2 (trg_closest_range (example_bilingual 1) "a" 1 0))
                (example_leaf 0 "a" 5))
      as (res & rest & H1 & H2 & _ & H3 & _ & H4).
    + reflexivity.
    + vm_compute. split; discriminate.
    + exists res, rest. split; [exact H1|]. split; [exact H2|].
      split; [exact H3 | exact H4].
  - apply (proj2 (proj2 (trg_closest_range (example_bilingual 1) "a" 10 0))).
    + vm_compute. eauto.
    + right. vm_compute. reflexivity.
Defined.

(** A sentence with an unknown word and a sentence without known word. *)
Lemma similaritySentence_known_words_witness :
  exists q, similaritySentence (model_abc 0 false) "a q b" "q q" 0 = Ok q /\ q == 0.
Proof.
  apply (proj2 (similaritySentence_known_words (model_abc 0 false) "a q b" "q q" 0)).
  right. reflexivity.
Defined.

(** The tag [VRB] is not in the table; [VERB] and [NOUN] are. *)
Lemma similaritySentenceSyntax_unknown_tag_witness :
  similaritySentenceSyntax example_pow true false (model_abc 0 false)
    "a b" "c" "NOUN VRB" "NOUN" [1; 1] [1] 0 0 = Raises out_of_range
  /\ exists q,
       similaritySentenceSyntax example_pow true false (model_abc 0 false)
         "a b" "c" "NOUN VERB" "NOUN" [1; 1] [1] 0 0 = Returns q.
Proof.
  split.
  - apply (proj1 (similaritySentenceSyntax_unknown_tag example_pow true false
                    (model_abc 0 false) "a b" "c" "NOUN VRB" "NOUN" [1; 1] [1] 0 0)).
    left. exists 1%nat. split; [vm_compute; lia|]. split; [vm_compute; eauto | reflexivity].
  - apply (proj2 (similaritySentenceSyntax_unknown_tag example_pow true false
                    (model_abc 0 false) "a b" "c" "NOUN VERB" "NOUN" [1; 1] [1] 0 0)).
    + intros [|[|i]] Hi; [vm_compute; eauto | vm_compute; eauto | vm_compute in Hi; lia].
    + intros [|i] Hi; [vm_compute; eauto | vm_compute in Hi; lia].
Defined.

End MoreExamples.

Section MoreExamples2.
#[local] Existing Instance example_utils.

(** The words [a b a] read, and the minimum count 2. *)
Lemma addWordToVocab_counts_witness :
  exists node,
    fold_left addWordToVocab ["a"; "b"; "a"] ∅ !! "a" = Some node
    /\ count node = 2%Z /\ index node = 0%Z.
Proof.
  destruct (addWordToVocab_counts ["a"; "b"; "a"]) as (_ & H & _).
  eexists. split; [vm_compute; reflexivity|].
  destruct (H "a" (LeafNode 0 "a" 2 [] []) ltac:(vm_compute; reflexivity)) as (_ & _ & Hc & _).
  split; [exact Hc | reflexivity].
Defined.

Lemma reduceVocab_contiguous_witness :
  is_Some (reduceVocab 3 (vocabulary (model_abc 0 false)) !! "b")
  /\ exists w node,
       reduceVocab 3 (vocabulary (model_abc 0 false)) !! w = Some node /\ index node = 1%Z.
Proof.
  destruct (reduceVocab_contiguous 3 (vocabulary (model_abc 0 false)))
    as (_ & Hkeeps & Hsurj & _).
  split.
  - apply (Hkeeps "b" (example_leaf 1 "b" 3)); [reflexivity | vm_compute; discriminate].
  - apply Hsurj. vm_compute. split; [discriminate | reflexivity].
Defined.

Lemma readVocab_words_spec_witness :
  is_Some (readVocab_words 2 ["a"; "b"; "a"] !! "a")
  /\ readVocab_words 2 ["a"; "b"; "a"] !! "b" = None.
Proof.
  destruct (readVocab_words_spec 2 ["a"; "b"; "a"]) as (H & _).
  split.
  - apply H. vm_compute. split; [lia | discriminate].
  - destruct (readVocab_words 2 ["a"; "b"; "a"] !! "b") eqn:E; [|reflexivity].
    exfalso. destruct (proj1 (H "b") ltac:(eauto)) as [_ Hmin]. vm_compute in Hmin.
    apply Hmin. reflexivity.
Defined.

(** The tree of the vocabulary [{a, b, c}]. *)
Lemma createBinaryTree_parents_in_range_witness :
  exists m',
    createBinaryTree (model_abc 0 false) = Ok m'
    /\ forall w n,
         vocabulary m' !! w = Some n ->
         Forall (fun p => (0 <= p < Z.of_nat (size (vocabulary (model_abc 0 false))) - 1)%Z)
                (parents n)
         /\ Forall (fun b => b = 0%Z \/ b = 1%Z) (code n).
Proof.
  apply (createBinaryTree_parents_in_range (model_abc 0 false)).
  - apply model_abc_wf.
  - apply model_abc_nonempty.
Defined.

Lemma createBinaryTree_prefix_free_witness :
  exists m',
    createBinaryTree (model_abc 0 false) = Ok m'
    /\ forall w1 w2 n1 n2 rest,
         vocabulary m' !! w1 = Some n1 ->
         vocabulary m' !! w2 = Some n2 ->
         code n2 = (code n1 ++ rest)%list ->
         w1 = w2.
Proof.
  apply (createBinaryTree_prefix_free (model_abc 0 false)).
  - apply model_abc_wf.
  - apply model_abc_nonempty.
Defined.

Lemma createBinaryTree_keeps_entries_witness :
  exists m',
    createBinaryTree (model_abc 0 false) = Ok m'
    /\ size (vocabulary m') = 3%nat
    /\ exists n',
         vocabulary m' !! "b" = Some n'
         /\ is_leaf n' = true /\ index n' = 1%Z /\ word n' = "b" /\ count n' = 3%Z.
Proof.
  destruct (createBinaryTree_keeps_entries (model_abc 0 false)
              (model_abc_wf 0 false) (model_abc_nonempty 0 false)) as (m' & H1 & H2 & H3).
  exists m'. split; [exact H1|]. split; [exact H2|].
  apply (H3 "b" (example_leaf 1 "b" 3)). reflexivity.
Defined.

(** The word [b] of the sentence [a b c], with one negative sample. *)
Lemma trainWord_frozen_witness :
  (exists sv' k',
     trainWord false (model_abc 1 true) 0 nodes_abc 1 (Some [0]) (1 # 10) false
     = Ok (model_abc 1 true, sv', k')
     /\ (0 <= k')%nat
     /\ exists v, sv' = Some v /\ length v = 1%nat)
  /\ trainWord true (model_abc 1 true) 0 nodes_abc 3 None (1 # 10) false = Undefined.
Proof.
  split.
  - apply (proj1 (trainWord_frozen false (model_abc 1 true) 0 nodes_abc 1 (Some [0]) (1 # 10))).
    vm_compute. split; [discriminate | reflexivity].
  - apply (proj2 (trainWord_frozen true (model_abc 1 true) 0 nodes_abc 3 None (1 # 10))).
    right. vm_compute. discriminate.
Defined.

Lemma trainWord_frame_witness :
  exists m' sv' k',
    trainWord true (model_abc 1 true) 0 nodes_abc 1 (Some [0]) (1 # 10) true = Ok (m', sv', k')
    /\ config m' = config (model_abc 1 true)
    /\ vocabulary m' = vocabulary (model_abc 1 true)
    /\ length (output_weights m') = 3%nat
    /\ output_weights_hs m' = output_weights_hs (model_abc 1 true)
    /\ input_weights m' = input_weights (model_abc 1 true).
Proof.
  destruct (trainWord_frame true true (model_abc 1 true) 0 nodes_abc 1 (Some [0]) (1 # 10))
    as (m' & sv' & k' & H & Hc & Hv & _ & _ & Ho & _ & Hhs & _ & Hin).
  { vm_compute. split; [discriminate | reflexivity]. }
  exists m', sv', k'. split; [exact H|]. split; [exact Hc|]. split; [exact Hv|].
  split; [exact Ho|]. split; [apply Hhs; reflexivity|]. apply Hin; [reflexivity | eauto].
Defined.

(** A sentence with the known words [a] and [c], and one without. *)
Lemma sentVec_frozen_witness :
  sentVec false (model_abc 1 true) 0 "q q" = Throw InvalidInput
  /\ exists v k',
       sentVec true (model_abc 1 true) 0 "a q c" = Ok (model_abc 1 true, v, k')
       /\ length v = 1%nat /\ (0 <= k')%nat.
Proof.
  split.
  - apply (proj1 (sentVec_frozen false (model_abc 1 true) 0 "q q")).
    repeat constructor.
  - apply (proj2 (sentVec_frozen true (model_abc 1 true) 0 "a q c")).
    apply Exists_cons_hd. vm_compute. eauto.
Defined.

(** The run of [example_run], of one worker, after the first line: the
    worker has stored 10000 and owes the two words of its second line. *)
Lemma trainChunk_accounting_witness :
  (0 <= words_processed example_progress
   <= Z.max 0 (iterations (run_config example_run))
      * lines_words example_run (concat (chunks example_run)))%Z
  /\ exists w,
       workers example_progress = [w]
       /\ (stored (accesses w) (words_processed example_progress)
           + owed example_run [long_line; "b c"] w
           = Z.max 0 (iterations (run_config example_run))
             * lines_words example_run (concat (chunks example_run)))%Z.
Proof.
  destruct (trainChunk_accounting example_run example_progress) as [H1 H2].
  - apply (run_moves_reachable example_run [Turn 0%nat; Acc 0%nat; Acc 0%nat]
             (train_init example_run)); [apply train_reachable_init|].
    vm_compute. reflexivity.
  - split; [exact H1|].
    destruct (H2 [long_line; "b c"] eq_refl) as (w & Hw & Hsum & _).
    exists w. split; [exact Hw | exact Hsum].
Defined.

(** The run of [example_run] has three steps to make: two lines and the end
    of one epoch. *)
Lemma trainChunk_terminates_witness :
  sum_workers (steps_left example_run) (chunks example_run)
              (workers (train_init example_run)) = 3%Z
  /\ exists g', train_step example_run (train_init example_run) g'.
Proof.
  destruct (trainChunk_terminates example_run) as (H1 & _ & H3).
  split; [exact H1|].
  apply (proj2 (proj2 (H3 (train_init example_run) (train_reachable_init example_run)))).
  vm_compute. reflexivity.
Defined.

(** A source word that the source model does not know. *)
Lemma bilingual_similarityNgrams_pairs_witness :
  (exists q, bilingual_similarityNgrams (example_bilingual 1) "q" "x z" 0 = Ok q /\ q == 0)
  /\ bilingual_similarityNgrams (example_bilingual 1) "a b" "x" 0 = Undefined.
Proof.
  split.
  - apply (proj1 (proj2 (proj2 (bilingual_similarityNgrams_pairs (example_bilingual 1)
                                  "q" "x z" 0)))).
    + vm_compute. lia.
    + repeat constructor.
  - apply (proj2 (proj2 (proj2 (bilingual_similarityNgrams_pairs (example_bilingual 1)
                                  "a b" "x" 0)))).
    vm_compute. lia.
Defined.

Lemma bilingual_similaritySentence_known_words_witness :
  exists q, bilingual_similaritySentence (example_bilingual 1) "a b" "q" 0 = Ok q /\ q == 0.
Proof.
  apply (proj2 (bilingual_similaritySentence_known_words (example_bilingual 1) "a b" "q" 0)).
  right. reflexivity.
Defined.

(** Two target words of the same scalar product: the first one is kept. *)
Lemma dictionaryInduction_words_best_witness :
  dictionaryInduction_words [("s", [1])] [] [] = []
  /\ exists picks,
       dictionaryInduction_words [("s", [1])] [("t", [2]); ("u", [2])] [] = picks
       /\ length picks = 1%nat.
Proof.
  split.
  - apply (proj1 (dictionaryInduction_words_best [("s", [1])] [] [])). reflexivity.
  - destruct (proj2 (dictionaryInduction_words_best [("s", [1])] [("t", [2]); ("u", [2])] []))
      as (picks & H & Hall); [discriminate|].
    exists picks. split; [exact H|].
    apply Forall2_length in Hall. simpl in Hall. lia.
Defined.

(** A dictionary whose only pair has an unknown source word. *)
Lemma learnMapping_no_known_pair_witness :
  learnMapping example_shuffle (example_bilingual 1) [("q", "x")] 100 = Ok None.
Proof.
  apply (learnMapping_no_known_pair example_shuffle).
  - intros k l. reflexivity.
  - constructor; [left; reflexivity | constructor].
Defined.

(** Three lines for two threads. *)
Lemma chunkify_partition_witness :
  exists chunks words,
    chunkify example_lines 2 = Ok (chunks, 3%Z, words)
    /\ trainChunk_lines example_lines chunks 0 = Ok ["a b"]
    /\ trainChunk_lines example_lines chunks 1 = Ok ["c"; "a"].
Proof.
  destruct (chunkify_partition example_lines 2) as (chunks & words & H1 & _ & Hmid & Hlast & _).
  { lia. }
  exists chunks, words. split; [exact H1|]. split; [apply (Hmid 0%nat); lia | exact Hlast].
Defined.

(** A table of ten slots for the counts 5, 3 and 1, with the rounding of
    the machine. *)
Lemma initUnigramTable_shares_witness :
  exists m' vocab_word_count total_count,
    initUnigramTable binary32 example_pow 10 (model_abc 0 false) = Ok (m', vocab_word_count)
    /\ vocabulary m' = vocabulary (model_abc 0 false)
    /\ (forall node, In node (unigram_table m') ->
                     exists w, vocabulary (model_abc 0 false) !! w = Some node)
    /\ (unigram_copies binary32 example_pow 10 total_count 1
        <= unigram_copies binary32 example_pow 10 total_count 5)%Z.
Proof.
  destruct (initUnigramTable_shares binary32 example_pow 10 binary32_positive
              (model_abc 0 false) binary32_monotone)
    as (m' & wc & total_count & H1 & H2 & _ & _ & H3 & H4).
  { lia. }
  { apply model_abc_pow. }
  exists m', wc, total_count. split; [exact H1|]. split; [exact H2|]. split; [exact H3|].
  apply H4. vm_compute. discriminate.
Defined.

(** The model [model_abc] initialised from the words [a b a], with every
    draw 1/2. *)
Lemma train_initialize_consistent_witness :
  exists m' vocab_word_count,
    train_initialize (fun _ => 1 # 2) example_pow 10 0 (model_abc 0 false) ["a"; "b"; "a"]
    = Ok (m', vocab_word_count)
    /\ length (input_weights m') = size (vocabulary m')
    /\ length (output_weights_hs m') = size (vocabulary m')
    /\ Forall (fun r => length r = 1%nat) (input_weights m')
    /\ forall node,
         In node (unigram_table m') ->
         (0 <= index node < Z.of_nat (length (output_weights m')))%Z.
Proof.
  destruct (train_initialize_consistent (fun _ => 1 # 2) example_pow 10 0 (model_abc 0 false)
              ["a"; "b"; "a"])
    as (m' & wc & H & _ & H1 & _ & H2 & H3 & _ & H4 & _).
  { lia. }
  { intros c Hc. unfold example_pow. simpl. unfold Qlt. simpl. lia. }
  { exists "a". vm_compute. split; [lia | discriminate]. }
  exists m', wc. split; [exact H|]. split; [exact H1|]. split; [exact H2|].
  split; [exact H3 | exact H4].
Defined.

(** The word [b], whose row is 1 and which the table holds: the row 2 of
    [output_weights] is not written. *)
Lemma gradient_updates_local_witness :
  output_weights
    (negSamplingUpdate (model_abc 1 true) 0 (example_leaf 1 "b" 3) [1] (1 # 10) true).1.2
  !! 2%nat = Some [1].
Proof.
  etransitivity.
  - apply (proj2 (gradient_updates_local (model_abc 1 true) 0 (example_leaf 1 "b" 3) [1]
                    (1 # 10) true 2)).
    + vm_compute. discriminate.
    + intros t [<-|[]]. vm_compute. discriminate.
  - reflexivity.
Defined.

End MoreExamples2.
